(** * HardSpheres: an event-driven hard-disc gas in a circular container

    Shallow embedding of [Ball.py] (kinematics, collision-time prediction,
    collision resolution), of [App.py] (collision tables, the scheduler
    and the observables), of [ParseState.py] (the balls read from the CSV
    file) and of [InitialState.py] (the generator of initial conditions),
    followed by the properties of the engine.

    Numbers.  The program computes with IEEE doubles (numpy [float64]).
    They are modelled by [float64]: a real number, or one of the three
    special values [+inf], [-inf], [nan].  Arithmetic on finite values is
    exact (no rounding, no overflow, a single unsigned zero); arithmetic
    involving a special value follows IEEE 754, which is what numpy does
    ([inf - inf = nan], [0 * inf = nan], [x / 0 = +-inf] with a warning
    only).  Likewise [np_roots] returns the exact roots of the polynomial,
    where [np.roots] computes the eigenvalues of the companion matrix in
    floating point, and [fsquare] never overflows, where Python's [** 2]
    raises OverflowError.  The properties that hold in exact arithmetic
    only say so; the properties of [predict_collision_time] that do not
    depend on the solver are stated for an arbitrary array of roots
    ([earliest_time]), and those that need a result in the range of the
    doubles assume it ([representable]).

    Effects.  Python exceptions are modelled by the [result] monad; the
    balls, which the program mutates in place, live in the list [balls] of
    the engine's state and are updated by index, so that two references to
    the same ball see the same object.  The file read by [ParseState] is
    the list of rows that the reader yields, together with the exception,
    if any, that the reader raises after them; Python's [float] is a
    function on strings, and numpy's random generator an oracle that
    answers the successive calls.

    Not modelled: the animation ([render] with [animate], [Ball.render])
    and the output collaborator ([WriteOutput]), which do not change the
    engine's state, and the validation of the constants in [Config.py]. *)

From Stdlib Require Import Reals Lra Lia String.
From stdpp Require Import base list.
From Equations Require Import Equations.
From Equations.Prop Require Import Logic.


(* ================================================================== *)
(** * Python exceptions *)
(* ================================================================== *)

Inductive exn : Type :=
| Exception (msg : string)   (* [raise Exception(...)] written in the source *)
| IndexError                 (* subscript out of range *)
| ValueError                 (* argmin of an empty array, bad unpacking *)
| ZeroDivisionError          (* Python float divided by int 0 *)
| LinAlgError                (* numpy.linalg.eigvals on a non-finite matrix *)
| LibraryError (cls : string).
                             (* raised inside a library call while a file is
                                read: csv.Error, UnicodeDecodeError *)

Inductive result (A : Type) : Type :=
| Ok (a : A)
| Raise (e : exn).
Arguments Ok {A} a.
Arguments Raise {A} e.

Definition bind {A B} (m : result A) (k : A -> result B) : result B :=
  match m with
  | Ok a => k a
  | Raise e => Raise e
  end.

Notation "x <- m ;; k" := (bind m (fun x => k))
  (at level 90, m at next level, right associativity).

(** [for x in xs: body], threading the mutated state. *)
Fixpoint for_each {A S} (xs : list A) (body : A -> S -> result S) (s : S)
  : result S :=
  match xs with
  | [] => Ok s
  | x :: xs' => s' <- body x s ;; for_each xs' body s'
  end.

(** [range(lo, hi)] *)
Definition range (lo hi : nat) : list nat := seq lo (hi - lo).

(** [l[i]] and [l[i] = v] for a non-negative index: Python and numpy raise
    IndexError out of range. *)
Definition get_item {A} (l : list A) (i : nat) : result A :=
  match l !! i with
  | Some x => Ok x
  | None => Raise IndexError
  end.

Definition set_item {A} (l : list A) (i : nat) (v : A) : result (list A) :=
  if decide (i < length l)%nat then Ok (<[i:=v]> l) else Raise IndexError.

(* ================================================================== *)
(** * numpy float64, exact on finite values *)
(* ================================================================== *)

Inductive float64 : Type :=
| Fin (r : R)
| PInf
| NInf
| NaN.

Definition Rltb (x y : R) : bool := if Rlt_dec x y then true else false.
Definition Reqb (x y : R) : bool := if Req_EM_T x y then true else false.

Definition is_finite (x : float64) : bool :=
  match x with Fin _ => true | _ => false end.

Definition fneg (x : float64) : float64 :=
  match x with
  | Fin r => Fin (- r)
  | PInf => NInf
  | NInf => PInf
  | NaN => NaN
  end.

Definition fadd (x y : float64) : float64 :=
  match x, y with
  | NaN, _ | _, NaN => NaN
  | Fin a, Fin b => Fin (a + b)
  | PInf, NInf | NInf, PInf => NaN
  | PInf, _ | _, PInf => PInf
  | NInf, _ | _, NInf => NInf
  end.

Definition fsub (x y : float64) : float64 := fadd x (fneg y).

(** An infinity times (or divided by) a finite [r]: the sign follows [r],
    and [inf * 0] is [nan]. *)
Definition inf_times (pos : bool) (r : R) : float64 :=
  if Reqb r 0 then NaN
  else if Rltb 0 r then (if pos then PInf else NInf)
  else (if pos then NInf else PInf).

Definition fmul (x y : float64) : float64 :=
  match x, y with
  | NaN, _ | _, NaN => NaN
  | Fin a, Fin b => Fin (a * b)
  | PInf, Fin r | Fin r, PInf => inf_times true r
  | NInf, Fin r | Fin r, NInf => inf_times false r
  | PInf, PInf | NInf, NInf => PInf
  | PInf, NInf | NInf, PInf => NInf
  end.

(** numpy division: never raises.  A finite value divided by zero is
    [nan] for [0 / 0] and an infinity otherwise (the zero is taken as
    [+0]). *)
Definition fdiv (x y : float64) : float64 :=
  match x, y with
  | NaN, _ | _, NaN => NaN
  | Fin a, Fin b =>
      if Reqb b 0 then
        (if Reqb a 0 then NaN else if Rltb 0 a then PInf else NInf)
      else Fin (a / b)
  | Fin _, PInf | Fin _, NInf => Fin 0
  | PInf, Fin r => if Rltb r 0 then NInf else PInf
  | NInf, Fin r => if Rltb r 0 then PInf else NInf
  | PInf, PInf | PInf, NInf | NInf, PInf | NInf, NInf => NaN
  end.

(** [x < y]: false as soon as one side is [nan]. *)
Definition flt (x y : float64) : bool :=
  match x, y with
  | NaN, _ | _, NaN => false
  | Fin a, Fin b => Rltb a b
  | NInf, Fin _ | NInf, PInf | Fin _, PInf => true
  | _, _ => false
  end.

(** [x <= y]: false as soon as one side is [nan]. *)
Definition fle (x y : float64) : bool :=
  match x, y with
  | NaN, _ | _, NaN => false
  | Fin a, Fin b => negb (Rltb b a)
  | NInf, _ | _, PInf => true
  | _, _ => false
  end.

(** [np.sqrt] *)
Definition fsqrt (x : float64) : float64 :=
  match x with
  | Fin r => if Rltb r 0 then NaN else Fin (sqrt r)
  | PInf => PInf
  | NInf | NaN => NaN
  end.

(** [x ** 2] *)
Definition fsquare (x : float64) : float64 := fmul x x.

(** [x != 0], as [numpy.nonzero] sees it: [nan] and the infinities are
    non-zero. *)
Definition fnonzero (x : float64) : bool :=
  match x with
  | Fin r => negb (Reqb r 0)
  | _ => true
  end.

(** A numpy array of length 2. *)
Definition vec : Type := (float64 * float64)%type.

Definition vadd (x y : vec) : vec := (fadd (fst x) (fst y), fadd (snd x) (snd y)).
Definition vsub (x y : vec) : vec := (fsub (fst x) (fst y), fsub (snd x) (snd y)).
(** [x * k] and [k * x] for an array [x] and a scalar [k] *)
Definition vscale (x : vec) (k : float64) : vec := (fmul (fst x) k, fmul (snd x) k).
Definition smul (k : float64) (x : vec) : vec := (fmul k (fst x), fmul k (snd x)).
(** [np.dot] *)
Definition dot (x y : vec) : float64 :=
  fadd (fmul (fst x) (fst y)) (fmul (snd x) (snd y)).
(** [numpy.linalg.norm] *)
Definition norm (x : vec) : float64 := fsqrt (dot x x).

(* ================================================================== *)
(** * numpy.roots and numpy.amin, as [predict_collision_time] uses them *)
(* ================================================================== *)

(** An eigenvalue returned by [numpy.linalg.eigvals]: real and imaginary
    part. *)
Definition complex : Type := (R * R)%type.

(** [np.isreal] *)
Definition isreal (z : complex) : bool := Reqb (snd z) 0.

(** Eigenvalues of the companion matrix of the monic polynomial
    [t^2 + p t + q], i.e. its two roots, in exact arithmetic.  The
    eigenvalues that numpy computes are these up to rounding; a double
    root can come out as a complex-conjugate pair. *)
Definition monic_quadratic_roots (p q : R) : list complex :=
  let disc := (p * p - 4 * q)%R in
  if Rltb disc 0 then
    [ ((- p / 2)%R, (sqrt (- disc) / 2)%R) ;
      ((- p / 2)%R, (- sqrt (- disc) / 2)%R) ]
  else
    [ (((- p + sqrt disc) / 2)%R, 0%R) ;
      (((- p - sqrt disc) / 2)%R, 0%R) ].

(** [np.roots([a, b, c])], following numpy's algorithm: an all-zero
    polynomial has no roots; leading and trailing zero coefficients are
    stripped (each trailing zero is a root at 0); what remains is divided
    by its leading coefficient to fill the first row of the companion
    matrix, and [eigvals] of that matrix raises LinAlgError when an entry
    is not finite. *)
Definition np_roots (a b c : float64) : result (list complex) :=
  let z : complex := (0%R, 0%R) in
  let entry (x lead : float64) (k : R -> result (list complex)) :=
    match fneg (fdiv x lead) with
    | Fin r => k (- r)%R
    | _ => Raise LinAlgError
    end in
  match fnonzero a, fnonzero b, fnonzero c with
  | true, _, true =>
      entry b a (fun p => entry c a (fun q => Ok (monic_quadratic_roots p q)))
  | true, true, false => entry b a (fun p => Ok [ ((- p)%R, 0%R) ; z ])
  | true, false, false => Ok [ z ; z ]
  | false, true, true => entry c b (fun p => Ok [ ((- p)%R, 0%R) ])
  | false, true, false => Ok [ z ]
  | false, false, _ => Ok []
  end.

(** [np.amin] of a non-empty list of reals. *)
Definition amin (x : R) (xs : list R) : R := fold_left Rmin xs x.

(* ================================================================== *)
(** * Ball.py *)
(* ================================================================== *)

Module Ball.

Record Ball : Type := mkBall {
  position : vec;
  velocity : vec;
  mass : float64;
  radius : float64;
  distance_travelled : float64;
  ball_collisions : nat;
  wall_collisions : nat
}.

(** [Ball.__init__]: only the lengths of [position] and [velocity] are
    checked. *)
Definition init (position velocity : list float64) (mass radius : float64)
  : result Ball :=
  match position, velocity with
  | [x1; x2], [v1; v2] =>
      Ok {| position := (x1, x2); velocity := (v1, v2);
            mass := mass; radius := radius;
            distance_travelled := Fin 0;
            ball_collisions := 0; wall_collisions := 0 |}
  | _, _ =>
      Raise (Exception "Unexpected position or velocity format in Ballmodule.")
  end.

Definition kinetic_energy (b : Ball) : float64 :=
  let v := velocity b in
  fmul (fmul (Fin (1 / 2)) (mass b)) (dot v v).

Definition speed_squared (b : Ball) : float64 :=
  let v := velocity b in dot v v.

Definition mean_free_path (b : Ball) : float64 :=
  if (0 <? ball_collisions b)%nat
  then fdiv (distance_travelled b) (Fin (INR (ball_collisions b)))
  else Fin 0.

Definition momentum (b : Ball) : vec := vscale (velocity b) (mass b).

Definition update_position (b : Ball) (dt : float64) : Ball :=
  let dp := vscale (velocity b) dt in
  {| position := vadd (position b) dp;
     velocity := velocity b;
     mass := mass b;
     radius := radius b;
     distance_travelled := fadd (distance_travelled b) (norm dp);
     ball_collisions := ball_collisions b;
     wall_collisions := wall_collisions b |}.

Definition update_velocity (b : Ball) (v : vec) : Ball :=
  {| position := position b;
     velocity := v;
     mass := mass b;
     radius := radius b;
     distance_travelled := distance_travelled b;
     ball_collisions := ball_collisions b;
     wall_collisions := wall_collisions b |}.

(** The positive-time floor [1e-12]. *)
Definition time_floor : R := 1e-12%R.

(** [time_roots = [t for t in roots if np.isreal(t) and t > 1e-12]] *)
Definition time_roots (roots : list complex) : list R :=
  map fst (List.filter (fun t => isreal t && Rltb time_floor (fst t)) roots).

Definition predict_collision_time (a b c : float64) : result float64 :=
  roots <- np_roots a b c ;;
  match time_roots roots with
  | [] => Ok PInf
  | t :: ts => Ok (Fin (amin t ts))
  end.

Definition next_wall_collision (self : Ball) (container_radius : float64)
  : result float64 :=
  let x := position self in
  let v := velocity self in
  let a := dot v v in
  let b := fmul (Fin 2) (dot x v) in
  let c := fsub (dot x x) (fsquare (fsub container_radius (radius self))) in
  predict_collision_time a b c.

Definition next_ball_collision (self ball : Ball) : result float64 :=
  let r1 := radius self in
  let r2 := radius ball in
  let dx := vsub (position self) (position ball) in
  let dv := vsub (velocity self) (velocity ball) in
  let a := dot dv dv in
  let b := fmul (Fin 2) (dot dx dv) in
  let c := fsub (dot dx dx) (fsquare (fadd r1 r2)) in
  predict_collision_time a b c.

Definition velocity_after_wall_collision (self : Ball) : vec :=
  let r := position self in
  let u := velocity self in
  let R := vscale r (fdiv (fmul (Fin 2) (dot u r)) (dot r r)) in
  vsub u R.

Definition velocity_after_ball_collision (self b : Ball) : vec * vec :=
  let m1 := mass self in
  let m2 := mass b in
  let u1 := velocity self in
  let u2 := velocity b in
  let dx := vsub (position self) (position b) in
  let dv := vsub u1 u2 in
  let s := fdiv (fmul (Fin 2) (dot dx dv)) (fmul (fadd m1 m2) (dot dx dx)) in
  let v1 := vsub u1 (vscale (vscale dx m2) s) in
  let v2 := vadd u2 (vscale (vscale dx m1) s) in
  (v1, v2).

(** A ball whose position and velocity are finite: the balls that
    [ParseState] builds from a well-formed file. *)
Definition finite (x y ux uy : R) (m r : float64) (d : float64) (n w : nat)
  : Ball :=
  mkBall (Fin x, Fin y) (Fin ux, Fin uy) m r d n w.

End Ball.

(* ================================================================== *)
(** * numpy arrays used by the scheduler *)
(* ================================================================== *)

(** Does [x] replace the running minimum [best] in [np.argmin]'s scan?
    A [nan] counts as the minimum and the first one wins; otherwise only a
    strictly smaller value replaces the current one, so the first
    occurrence of the minimum is returned. *)
Definition argmin_takes (x best : float64) : bool :=
  match best, x with
  | NaN, _ => false
  | _, NaN => true
  | _, _ => flt x best
  end.

Fixpoint argmin_scan (best_i : nat) (best : float64) (i : nat)
  (xs : list float64) : nat :=
  match xs with
  | [] => best_i
  | x :: xs' =>
      if argmin_takes x best then argmin_scan i x (S i) xs'
      else argmin_scan best_i best (S i) xs'
  end.

(** [np.argmin] of a flat array; an empty array raises ValueError. *)
Definition np_argmin (xs : list float64) : result nat :=
  match xs with
  | [] => Raise ValueError
  | x :: xs' => Ok (argmin_scan 0 x 1 xs')
  end.

(** A 2-D array is the list of its rows, [list (list float64)]. *)

(** [np.full((n, m), v)] and [np.full(n, v)] *)
Definition np_full (n : nat) (v : float64) : list float64 := replicate n v.
Definition np_full2 (n m : nat) (v : float64) : list (list float64) := replicate n (np_full m v).

Definition ncols (t : list (list float64)) : nat :=
  match t with
  | [] => 0
  | row :: _ => length row
  end.

(** [np.unravel_index(k, t.shape)] for a flat index [k] returned by
    [np.argmin(t)]. *)
Definition unravel_index (k : nat) (t : list (list float64)) : nat * nat :=
  (k / ncols t, k mod ncols t).

(** [t[i][j]] and [t[i][j] = v] *)
Definition get_item2 (t : list (list float64)) (i j : nat) : result float64 :=
  row <- get_item t i ;; get_item row j.

Definition set_item2 (t : list (list float64)) (i j : nat) (v : float64) : result (list (list float64)) :=
  row <- get_item t i ;;
  row' <- set_item row j v ;;
  set_item t i row'.

(* ================================================================== *)
(** * App.py *)
(* ================================================================== *)

Module App.

Record App : Type := mkApp {
  container_radius : float64;
  time : float64;
  num_balls : nat;
  kinetic_energy : float64;
  rms_speed : float64;
  pressure : float64;
  delta_p : float64;
  ball_collisions : nat;
  wall_collisions : nat;
  balls : list Ball.Ball;
  b2b_table : list (list float64);
  b2w_table : list float64;
  container_circumference : float64
}.

(** Assignments to one attribute. *)
Definition with_b2w (self : App) (v : list float64) : App :=
  mkApp (container_radius self) (time self) (num_balls self)
    (kinetic_energy self) (rms_speed self) (pressure self) (delta_p self)
    (ball_collisions self) (wall_collisions self) (balls self)
    (b2b_table self) v (container_circumference self).

Definition with_b2b (self : App) (v : list (list float64)) : App :=
  mkApp (container_radius self) (time self) (num_balls self)
    (kinetic_energy self) (rms_speed self) (pressure self) (delta_p self)
    (ball_collisions self) (wall_collisions self) (balls self)
    v (b2w_table self) (container_circumference self).

Definition with_balls (self : App) (v : list Ball.Ball) : App :=
  mkApp (container_radius self) (time self) (num_balls self)
    (kinetic_energy self) (rms_speed self) (pressure self) (delta_p self)
    (ball_collisions self) (wall_collisions self) v
    (b2b_table self) (b2w_table self) (container_circumference self).

Definition with_delta_p (self : App) (v : float64) : App :=
  mkApp (container_radius self) (time self) (num_balls self)
    (kinetic_energy self) (rms_speed self) (pressure self) v
    (ball_collisions self) (wall_collisions self) (balls self)
    (b2b_table self) (b2w_table self) (container_circumference self).

Definition with_ball_collisions (self : App) (v : nat) : App :=
  mkApp (container_radius self) (time self) (num_balls self)
    (kinetic_energy self) (rms_speed self) (pressure self) (delta_p self)
    v (wall_collisions self) (balls self)
    (b2b_table self) (b2w_table self) (container_circumference self).

Definition with_wall_collisions (self : App) (v : nat) : App :=
  mkApp (container_radius self) (time self) (num_balls self)
    (kinetic_energy self) (rms_speed self) (pressure self) (delta_p self)
    (ball_collisions self) v (balls self)
    (b2b_table self) (b2w_table self) (container_circumference self).

(** Mutation of the ball object stored at index [i] of [balls]. *)
Definition modify_ball (self : App) (i : nat) (f : Ball.Ball -> Ball.Ball)
  : result App :=
  b <- get_item (balls self) i ;;
  bs <- set_item (balls self) i (f b) ;;
  Ok (with_balls self bs).

Definition init_table (self : App) : result App :=
  let l := num_balls self in
  for_each (range 0 l) (fun i self =>
    bi <- get_item (balls self) i ;;
    collision_time <- Ball.next_wall_collision bi (container_radius self) ;;
    b2w <- set_item (b2w_table self) i collision_time ;;
    let self := with_b2w self b2w in
    for_each (range (i + 1) l) (fun j self =>
      bi <- get_item (balls self) i ;;
      bj <- get_item (balls self) j ;;
      collision_time <- Ball.next_ball_collision bi bj ;;
      b2b <- set_item2 (b2b_table self) i j collision_time ;;
      Ok (with_b2b self b2b)) self) self.

Definition update_table (self : App) (dt : float64) : result App :=
  let l := length (b2b_table self) in
  let self := with_b2w self (map (fun t => fsub t dt) (b2w_table self)) in
  for_each (range 0 l) (fun i self =>
    for_each (range (i + 1) l) (fun j self =>
      t <- get_item2 (b2b_table self) i j ;;
      b2b <- set_item2 (b2b_table self) i j (fsub t dt) ;;
      Ok (with_b2b self b2b)) self) self.

Definition recalculate_collision (self : App) (ball_ids : list nat)
  : result App :=
  let l := num_balls self in
  for_each ball_ids (fun i self =>
    bi <- get_item (balls self) i ;;
    b2w_time <- Ball.next_wall_collision bi (container_radius self) ;;
    b2w <- set_item (b2w_table self) i b2w_time ;;
    let self := with_b2w self b2w in
    for_each (range 0 l) (fun j self =>
      if decide (i <> j) then
        let x := Nat.min i j in
        let y := Nat.max i j in
        bi <- get_item (balls self) i ;;
        bj <- get_item (balls self) j ;;
        b2b_time <- Ball.next_ball_collision bi bj ;;
        b2b <- set_item2 (b2b_table self) x y b2b_time ;;
        Ok (with_b2b self b2b)
      else Ok self) self) self.

(** A collision object: the ids of the colliding balls and the time. *)
Definition collision : Type := (list nat * float64)%type.

Definition next_collision (self : App) : result collision :=
  b2w <- np_argmin (b2w_table self) ;;
  b2w_time <- get_item (b2w_table self) b2w ;;
  k <- np_argmin (concat (b2b_table self)) ;;
  let b2b := unravel_index k (b2b_table self) in
  b2b_time <- get_item2 (b2b_table self) (fst b2b) (snd b2b) ;;
  if flt b2w_time b2b_time then Ok ([b2w], b2w_time)
  else Ok ([fst b2b; snd b2b], b2b_time).

(** [update_state]; the call to [output.print_line] does nothing, output
    being disabled ([SHOULD_OUTPUT = False]). *)
Definition update_state (self : App) (dt : float64) : result App :=
  let kinetic_energy :=
    fold_left (fun acc b => fadd acc (Ball.kinetic_energy b)) (balls self) (Fin 0) in
  let rms_speed_sum :=
    fold_left (fun acc b => fadd acc (Ball.speed_squared b)) (balls self) (Fin 0) in
  let time := fadd (time self) dt in
  (* a Python float divided by the int 0 raises; a numpy scalar does not *)
  mean <- match balls self, num_balls self with
          | [], O => Raise ZeroDivisionError
          | _, n => Ok (fdiv rms_speed_sum (Fin (INR n)))
          end ;;
  let rms_speed := fsqrt mean in
  let pressure :=
    if flt (Fin 0) time
    then fdiv (delta_p self) (fmul (container_circumference self) time)
    else Fin 0 in
  Ok (mkApp (container_radius self) time (num_balls self)
        kinetic_energy rms_speed pressure (delta_p self)
        (ball_collisions self) (wall_collisions self) (balls self)
        (b2b_table self) (b2w_table self) (container_circumference self)).

Definition incr_wall (b : Ball.Ball) : Ball.Ball :=
  Ball.mkBall (Ball.position b) (Ball.velocity b) (Ball.mass b) (Ball.radius b)
    (Ball.distance_travelled b) (Ball.ball_collisions b)
    (S (Ball.wall_collisions b)).

Definition incr_ball (b : Ball.Ball) : Ball.Ball :=
  Ball.mkBall (Ball.position b) (Ball.velocity b) (Ball.mass b) (Ball.radius b)
    (Ball.distance_travelled b) (S (Ball.ball_collisions b))
    (Ball.wall_collisions b).

(** The first part of [collide]: the tables are decremented and every ball
    is moved to its position at the collision time. *)
Definition advance (self : App) (dt : float64) : result App :=
  self <- update_table self dt ;;
  Ok (with_balls self (map (fun b => Ball.update_position b dt) (balls self))).

(** The wall branch of [collide]. *)
Definition collide_wall (self : App) (b2w : nat) : result App :=
  ball <- get_item (balls self) b2w ;;
  let u := Ball.velocity ball in
  let v := Ball.velocity_after_wall_collision ball in
  self <- modify_ball self b2w (fun b => Ball.update_velocity b v) ;;
  let delta_p := smul (Ball.mass ball) (vsub v u) in
  let self := with_delta_p self (fadd (App.delta_p self) (norm delta_p)) in
  self <- recalculate_collision self [b2w] ;;
  self <- modify_ball self b2w incr_wall ;;
  Ok (with_wall_collisions self (S (wall_collisions self))).

(** The ball branch of [collide]. *)
Definition collide_balls (self : App) (b_i b_j : nat) : result App :=
  b1 <- get_item (balls self) b_i ;;
  b2 <- get_item (balls self) b_j ;;
  let vs := Ball.velocity_after_ball_collision b1 b2 in
  self <- modify_ball self b_i (fun b => Ball.update_velocity b (fst vs)) ;;
  self <- modify_ball self b_j (fun b => Ball.update_velocity b (snd vs)) ;;
  self <- recalculate_collision self [b_i; b_j] ;;
  self <- modify_ball self b_i incr_ball ;;
  self <- modify_ball self b_j incr_ball ;;
  Ok (with_ball_collisions self (S (ball_collisions self))).

Definition collide (self : App) (c : collision) : result App :=
  let dt := snd c in
  self <- advance self dt ;;
  self <- match fst c with
          | [b2w] => collide_wall self b2w
          | [b_i; b_j] => collide_balls self b_i b_j
          | _ => Raise ValueError   (* [b_i, b_j = collision[0]] *)
          end ;;
  update_state self dt.

(** The event loop of [render], without the animation. *)
Fixpoint render (num_frames : nat) (self : App) : result App :=
  match num_frames with
  | O => Ok self
  | S n =>
      next <- next_collision self ;;
      self <- collide self next ;;
      render n self
  end.

(** [App.__init__] up to the start of the event loop, given the balls read
    by [ParseState]. *)
Definition init (container_radius : float64) (balls : list Ball.Ball)
  : result App :=
  let n := length balls in
  let self :=
    mkApp container_radius (Fin 0) n (Fin 0) (Fin 0) (Fin 0) (Fin 0) 0 0 balls
      (np_full2 n n PInf) (np_full n PInf)
      (fmul (Fin (2 * PI)) container_radius) in
  self <- init_table self ;;
  update_state self (Fin 0).

(** [App.__init__]: initialisation followed by [render]. *)
Definition run (container_radius : float64) (num_frames : nat)
  (balls : list Ball.Ball) : result App :=
  self <- init container_radius balls ;;
  render num_frames self.

End App.

(* ================================================================== *)
(** * Shapes of the engine's state *)
(* ================================================================== *)

(** The pairwise table is logically upper-triangular: every cell on or
    below the diagonal holds [+inf]. *)
Definition upper_triangular (t : list (list float64)) : Prop :=
  forall i j row v,
    t !! i = Some row -> row !! j = Some v -> (j <= i)%nat -> v = PInf.

(** An [n] by [n] array. *)
Definition square (n : nat) (t : list (list float64)) : Prop :=
  length t = n /\ Forall (fun row => length row = n) t.

(** Containment: [|position| + radius <= container_radius]. *)
Definition contained (b : Ball.Ball) (container_radius : float64) : bool :=
  fle (fadd (norm (Ball.position b)) (Ball.radius b)) container_radius.

(** The shapes that [App.__init__] establishes: [num_balls] balls, a wall
    table of that length and a square pairwise table. *)
Definition well_shaped (self : App.App) : Prop :=
  length (App.balls self) = App.num_balls self /\
  length (App.b2w_table self) = App.num_balls self /\
  square (App.num_balls self) (App.b2b_table self).

(* ================================================================== *)
(** * Three initial configurations *)
(* ================================================================== *)

(** A ball of mass 1 and radius 1, as [ParseState] builds it. *)
Definition unit_ball (x y ux uy : R) : Ball.Ball :=
  Ball.finite x y ux uy (Fin 1) (Fin 1) (Fin 0) 0 0.

(** One ball at rest at the centre of a container of radius 10: no
    collision is possible. *)
Definition stalled_balls : list Ball.Ball := [ unit_ball 0 0 0 0 ].

Definition stalled_app : App.App :=
  App.mkApp (Fin 10) (Fin 0) 1 (Fin 0) (Fin 0) (Fin 0) (Fin 0) 0 0
    stalled_balls [ [ PInf ] ] [ PInf ] (Fin (2 * PI * 10)).

(** Two balls in a container of radius 10.  The first touches the wall
    and moves outwards; the second starts at the centre and reaches the
    wall at time 1. *)
Definition escape_balls : list Ball.Ball :=
  [ unit_ball 9 0 1 0 ; unit_ball 0 0 0 9 ].

(** Two balls in a container of radius 10: the first reaches the wall at
    time 1, exactly when the second catches up with it. *)
Definition tie_balls : list Ball.Ball :=
  [ unit_ball 8 0 1 0 ; unit_ball 5 0 2 0 ].

(** The state of the engine when the event loop starts on [escape_balls],
    and after its first event: the second ball bounces off the wall at
    time 1 while the first one, never scheduled, has left the container. *)
Definition escape_app : App.App :=
  App.mkApp (Fin 10) (Fin 0) 2 (Fin 41) (Fin (sqrt 41)) (Fin 0) (Fin 0) 0 0
    escape_balls [ [PInf; PInf]; [PInf; PInf] ] [ PInf; Fin 1 ]
    (Fin (2 * PI * 10)).

Definition escape_app1 : App.App :=
  App.mkApp (Fin 10) (Fin 1) 2 (Fin 41) (Fin (sqrt 41))
    (Fin (18 / (2 * PI * 10))) (Fin 18) 0 1
    [ Ball.mkBall (Fin 10, Fin 0) (Fin 1, Fin 0) (Fin 1) (Fin 1) (Fin 1) 0 0 ;
      Ball.mkBall (Fin 0, Fin 9) (Fin 0, Fin (- 9)) (Fin 1) (Fin 1) (Fin 9) 0 1 ]
    [ [PInf; PInf]; [PInf; PInf] ] [ PInf; Fin 2 ] (Fin (2 * PI * 10)).

(** The state of the engine when the event loop starts on [tie_balls]:
    the smallest wall time and the smallest pair time are both 1. *)
Definition tie_app : App.App :=
  App.mkApp (Fin 10) (Fin 0) 2 (Fin (5 / 2)) (Fin (sqrt (5 / 2))) (Fin 0)
    (Fin 0) 0 0
    tie_balls [ [PInf; Fin 1]; [PInf; PInf] ] [ Fin 1; Fin 2 ]
    (Fin (2 * PI * 10)).

(** The state handed to [update_state] at the end of that first event:
    the collision is resolved, the clock still reads 0. *)
Definition escape_resolved : App.App :=
  App.mkApp (Fin 10) (Fin 0) 2 (Fin 41) (Fin (sqrt 41)) (Fin 0) (Fin 18) 0 1
    (App.balls escape_app1) (App.b2b_table escape_app1)
    (App.b2w_table escape_app1) (Fin (2 * PI * 10)).

(** A stalled engine: at least one ball, and [+inf] in every cell of both
    tables. *)
Definition stalled (self : App.App) : Prop :=
  exists n,
    App.num_balls self = S n /\ length (App.balls self) = S n /\
    App.b2w_table self = np_full (S n) PInf /\
    App.b2b_table self = np_full2 (S n) (S n) PInf.

(** [b'] is [b] up to its velocity, its odometer and its counters. *)
Definition same_place (b b' : Ball.Ball) : Prop :=
  Ball.position b' = Ball.position b /\ Ball.radius b' = Ball.radius b.

Definition places_kept (bs bs' : list Ball.Ball) : Prop :=
  forall i b, bs !! i = Some b -> exists b', bs' !! i = Some b' /\ same_place b b'.

(** [t] is the minimum entry of an array without [nan]. *)
Definition is_minimum (t : float64) (xs : list float64) : Prop :=
  In t xs /\ Forall (fun x => x <> NaN /\ flt x t = false) xs.

(** A ball with finite position, velocity and radius. *)
Definition finite_ball (b : Ball.Ball) : Prop :=
  exists x y ux uy r,
    Ball.position b = (Fin x, Fin y) /\ Ball.velocity b = (Fin ux, Fin uy) /\
    Ball.radius b = Fin r.

(** The wall-table entry of ball [i], respectively the pairwise cell
    [(i, j)], holds the time predicted from the current state of the
    balls. *)
Definition wall_time_fresh (self : App.App) (i : nat) : Prop :=
  forall b,
    App.balls self !! i = Some b ->
    get_item (App.b2w_table self) i
    = Ball.next_wall_collision b (App.container_radius self).

Definition pair_time_fresh (self : App.App) (i j : nat) : Prop :=
  forall bi bj,
    App.balls self !! i = Some bi -> App.balls self !! j = Some bj ->
    get_item2 (App.b2b_table self) i j = Ball.next_ball_collision bi bj.

(** The counters kept on the balls agree with those of the engine: a wall
    event is counted on one ball, a ball event on two. *)
Definition counters_agree (self : App.App) : Prop :=
  list_sum (map Ball.wall_collisions (App.balls self)) = App.wall_collisions self /\
  list_sum (map Ball.ball_collisions (App.balls self))
  = (2 * App.ball_collisions self)%nat.

(** A ball with finite position and velocity and a positive finite mass. *)
Definition massive_ball (b : Ball.Ball) : Prop :=
  exists x y ux uy m,
    Ball.position b = (Fin x, Fin y) /\ Ball.velocity b = (Fin ux, Fin uy) /\
    Ball.mass b = Fin m /\ (0 < m)%R.

(** The sum that [update_state] stores in [kinetic_energy]. *)
Definition total_kinetic_energy (balls : list Ball.Ball) : float64 :=
  fold_left (fun acc b => fadd acc (Ball.kinetic_energy b)) balls (Fin 0).

(** The kinetic energy of a ball as a real number, when it is finite, and
    the sum over a list of balls. *)
Definition energy (b : Ball.Ball) : R :=
  match Ball.kinetic_energy b with Fin e => e | _ => 0%R end.

Definition energy_sum (l : list Ball.Ball) : R :=
  fold_right (fun b acc => (energy b + acc)%R) 0%R l.

(* ================================================================== *)
(** * InitialState.py *)
(* ================================================================== *)

Module InitialState.

(** A generated ball: the flat list [[x, y, vx, vy, mass, radius]] that
    becomes one row of the CSV file. *)
Record row : Type := mkRow {
  x : float64;
  y : float64;
  vx : float64;
  vy : float64;
  mass : float64;
  radius : float64
}.

(** numpy's random generator as an oracle: the result of the [k]-th call
    of [random.uniform(low, high, 2)], of [random.choice([-1.0, 1.0])]
    ([true] for [1.0]) and of [random.uniform(low, high)].  The bounds
    are finite numbers, and so are the draws. *)
Record Random : Type := mkRandom {
  uniform2 : R -> R -> nat -> R * R;
  choice : nat -> bool;
  uniform : R -> R -> nat -> R
}.

(** The generator object, with the number of calls made so far to the
    random generator. *)
Record InitialState : Type := mkInitialState {
  container_radius : R;
  num_balls : nat;
  default_mass : float64;
  default_radius : R;
  rms_speed : R;
  balls : list row;
  positions_drawn : nat;
  velocities_drawn : nat
}.

Definition with_balls (self : InitialState) (v : list row) : InitialState :=
  mkInitialState (container_radius self) (num_balls self) (default_mass self)
    (default_radius self) (rms_speed self) v
    (positions_drawn self) (velocities_drawn self).

Definition with_positions_drawn (self : InitialState) (v : nat) : InitialState :=
  mkInitialState (container_radius self) (num_balls self) (default_mass self)
    (default_radius self) (rms_speed self) (balls self)
    v (velocities_drawn self).

Definition with_velocities_drawn (self : InitialState) (v : nat) : InitialState :=
  mkInitialState (container_radius self) (num_balls self) (default_mass self)
    (default_radius self) (rms_speed self) (balls self)
    (positions_drawn self) v.

Definition is_colliding (self : InitialState) (position : vec)
  (ball_radius : float64) : bool :=
  existsb (fun b =>
    let b_position := (x b, y b) in
    let dr := vsub b_position position in
    let dr_magnitude := norm dr in
    fle dr_magnitude (fadd (radius b) ball_radius)) (balls self).

Definition is_outside_container (self : InitialState) (position : vec)
  (ball_radius : float64) : bool :=
  let position_magnitude := norm position in
  fle (Fin (container_radius self)) (fadd position_magnitude ball_radius).

(** The number of attempts after which [generate_position] gives up. *)
Definition max_attempts : nat := 500.

(** The [k]-th [position = random.uniform(-bounds, bounds, 2)]. *)
Definition draw_position (rng : Random) (bounds : R) (k : nat) : vec :=
  (Fin (fst (uniform2 rng (- bounds) bounds k)),
   Fin (snd (uniform2 rng (- bounds) bounds k))).

(** The test that breaks the [while True] loop. *)
Definition stops (self : InitialState) (timeout : nat) (position : vec)
  (ball_radius : float64) : bool :=
  (max_attempts <? timeout)%nat
  || (Bool.eqb (is_colliding self position ball_radius) false
      && Bool.eqb (is_outside_container self position ball_radius) false).

(** The loop of [generate_position], entered with the current value of
    [timeout]; it returns [timeout], [position] and the number of draws
    made when it breaks.  It terminates because [timeout] grows up to
    [max_attempts + 1]. *)
Equations position_loop (rng : Random) (self : InitialState) (bounds : R)
  (ball_radius : float64) (timeout drawn : nat) : nat * vec * nat
  by wf (S max_attempts - timeout) lt :=
  position_loop rng self bounds ball_radius timeout drawn
    with inspect (stops self (S timeout) (draw_position rng bounds drawn)
                    ball_radius) := {
    | exist _ true _ => (S timeout, draw_position rng bounds drawn, S drawn)
    | exist _ false H =>
        position_loop rng self bounds ball_radius (S timeout) (S drawn) }.
Next Obligation.
  apply orb_false_elim in H as [H _]. apply Nat.ltb_ge in H. lia.
Qed.

Definition too_many_balls : string :=
  "There are too many balls in the simulation.Consider increasing the size of the containeror reducing the number of balls in Config module.".

Definition generate_position (rng : Random) (self : InitialState)
  (container_radius ball_radius : R) : result (vec * InitialState) :=
  let bounds := (container_radius - ball_radius)%R in
  let '(timeout, position, drawn) :=
    position_loop rng self bounds (Fin ball_radius) 0 (positions_drawn self) in
  let self := with_positions_drawn self drawn in
  if (max_attempts <? timeout)%nat then Raise (Exception too_many_balls)
  else Ok (position, self).

Definition generate_velocity (rng : Random) (self : InitialState)
  : vec * InitialState :=
  let k := velocities_drawn self in
  let speed := rms_speed self in
  let multiplier_y := if choice rng k then Fin 1 else Fin (- 1) in
  let velocity_x := Fin (uniform rng (- speed) speed k) in
  let velocity_y :=
    fmul multiplier_y
      (fsqrt (fsub (fsquare (Fin (rms_speed self))) (fsquare velocity_x))) in
  ((velocity_x, velocity_y), with_velocities_drawn self (S k)).

Definition generate_ball (rng : Random) (self : InitialState)
  : result (row * InitialState) :=
  let mass := default_mass self in
  let ball_radius := default_radius self in
  p <- generate_position rng self (container_radius self) ball_radius ;;
  let position := fst p in
  let v := generate_velocity rng (snd p) in
  let velocity := fst v in
  Ok (mkRow (fst position) (snd position) (fst velocity) (snd velocity)
        mass (Fin ball_radius), snd v).

Definition cannot_create : string :=
  "File cannot be created: ensure file name is offormat `ExampleFile.csv` in Config module.".

(** [InitialState.__init__]: the rows handed to the CSV writer;
    [writable] tells whether the output file can be opened. *)
Definition init (rng : Random) (container_radius : R) (writable : bool)
  (num_balls : nat) (default_mass : float64) (default_radius rms_speed : R)
  : result (list row) :=
  let self :=
    mkInitialState container_radius num_balls default_mass default_radius
      rms_speed [] 0 0 in
  self <- for_each (range 0 num_balls) (fun _ self =>
            b <- generate_ball rng self ;;
            let self := snd b in
            Ok (with_balls self (balls self ++ [fst b]))) self ;;
  if writable then Ok (balls self) else Raise (Exception cannot_create).

End InitialState.




(** A position that [generate_position] accepts for a ball of radius
    [ball_radius]: it collides with no ball generated so far and is not
    outside the container. *)
Definition position_accepted (self : InitialState.InitialState)
  (position : vec) (ball_radius : R) : Prop :=
  InitialState.is_colliding self position (Fin ball_radius) = false /\
  InitialState.is_outside_container self position (Fin ball_radius) = false.

(** A generator that draws the positions [(0, 0)], then [(5, 0)] for
    ever, the sign [+1] and the first velocity component [3]; and the
    generator object for two balls of mass 1 and radius 1 at speed 5 in a
    container of radius 10. *)
Definition sample_rng : InitialState.Random :=
  InitialState.mkRandom
    (fun _ _ k => match k with O => (0, 0)%R | S _ => (5, 0)%R end)
    (fun _ => true)
    (fun _ _ _ => 3%R).

Definition sample_state : InitialState.InitialState :=
  InitialState.mkInitialState 10 2 (Fin 1) 1 5 [] 0 0.


(* ================================================================== *)
(** * ParseState.py *)
(* ================================================================== *)

Module ParseState.

Definition file_not_found : string :=
  "File not found: create an initial state file in InitialState module.".

(** [read_file].  The file is [None] when it cannot be opened.
    Otherwise it is the rows that [csv.reader] yields, each a list of
    strings, and the exception, if any, that the reader raises after them
    while the file is read ([csv.Error], [UnicodeDecodeError]): the loop
    over the reader is outside the [try] block, so that exception is not
    caught. *)
Definition read_file (file : option (list (list string) * option exn))
  : result (list (list string) * option exn) :=
  match file with
  | Some content => Ok content
  | None => Raise (Exception file_not_found)
  end.

(** [ParseState.__init__]; [float] is Python's conversion of a string to
    a float, which raises on a string that is not a number.  The rows are
    converted as the generator yields them; a failure of the reader comes
    after the rows it has yielded. *)
Definition init (float : string -> result float64)
  (file : option (list (list string) * option exn)) : result (list Ball.Ball) :=
  content <- read_file file ;;
  balls <- for_each (fst content) (fun ball balls =>
    s <- get_item ball 0 ;; x <- float s ;;
    s <- get_item ball 1 ;; y <- float s ;;
    let position := [x; y] in
    s <- get_item ball 2 ;; vx <- float s ;;
    s <- get_item ball 3 ;; vy <- float s ;;
    let velocity := [vx; vy] in
    s <- get_item ball 4 ;; mass <- float s ;;
    s <- get_item ball 5 ;; radius <- float s ;;
    b <- Ball.init position velocity mass radius ;;
    Ok (balls ++ [b])) [] ;;
  match snd content with
  | None => Ok balls
  | Some e => Raise e
  end.

Definition get_balls (balls : list Ball.Ball) : list Ball.Ball := balls.

End ParseState.

(** The program: [App.__init__] reads the balls with [ParseState], then
    initialises the engine and runs the event loop. *)
Definition App_init (float : string -> result float64)
  (file : option (list (list string) * option exn)) (container_radius : float64)
  (num_frames : nat) : result App.App :=
  balls <- ParseState.init float file ;;
  App.run container_radius num_frames (ParseState.get_balls balls).

(** A row of the file and the ball that [ParseState] builds from it: the
    first six fields are converted, further fields are ignored. *)
Definition parsed_row (float : string -> result float64)
  (ball : list string) (b : Ball.Ball) : Prop :=
  exists s0 s1 s2 s3 s4 s5 rest x y vx vy m r,
    ball = s0 :: s1 :: s2 :: s3 :: s4 :: s5 :: rest /\
    float s0 = Ok x /\ float s1 = Ok y /\ float s2 = Ok vx /\
    float s3 = Ok vy /\ float s4 = Ok m /\ float s5 = Ok r /\
    b = Ball.mkBall (x, y) (vx, vy) m r (Fin 0) 0 0.

(** A conversion that knows three numerals, and the file of the
    configuration [escape_balls]. *)
Definition sample_float (s : string) : result float64 :=
  if String.eqb s "0" then Ok (Fin 0)
  else if String.eqb s "1" then Ok (Fin 1)
  else if String.eqb s "9" then Ok (Fin 9)
  else Raise ValueError.

Definition escape_file : option (list (list string) * option exn) :=
  Some ([ ["9"; "0"; "1"; "0"; "1"; "1"] ; ["0"; "0"; "0"; "9"; "1"; "1"] ]%string,
        None).

(** A scheduled time is [+inf] or a non-negative number; the tables are
    scheduled when all their entries are. *)
Definition scheduled (x : float64) : Prop :=
  x = PInf \/ exists t, x = Fin t /\ (0 <= t)%R.

Definition tables_scheduled (self : App.App) : Prop :=
  Forall scheduled (App.b2w_table self) /\
  Forall (Forall scheduled) (App.b2b_table self).





(* ================================================================== *)
(* ================================================================== *)
(** * Properties *)
(* ================================================================== *)
(* ================================================================== *)

(* ================================================================== *)
(** * Basic facts about the arithmetic *)
(* ================================================================== *)

Local Open Scope R_scope.

Lemma Rltb_true (x y : R) : x < y -> Rltb x y = true.
Proof. intros H. unfold Rltb. destruct (Rlt_dec x y); [reflexivity | contradiction]. Qed.

Lemma Rltb_false (x y : R) : y <= x -> Rltb x y = false.
Proof. intros H. unfold Rltb. destruct (Rlt_dec x y); [lra | reflexivity]. Qed.

Lemma Reqb_true (x y : R) : x = y -> Reqb x y = true.
Proof. intros H. unfold Reqb. destruct (Req_EM_T x y); [reflexivity | contradiction]. Qed.

Lemma Reqb_false (x y : R) : x <> y -> Reqb x y = false.
Proof. intros H. unfold Reqb. destruct (Req_EM_T x y); [contradiction | reflexivity]. Qed.

Lemma fdiv_fin (x y : R) : y <> 0 -> fdiv (Fin x) (Fin y) = Fin (x / y).
Proof. intros H. simpl. rewrite Reqb_false; auto. Qed.

Lemma time_floor_pos : 0 < Ball.time_floor.
Proof. unfold Ball.time_floor. lra. Qed.

Lemma sum_sqr_zero (x y : R) : x * x + y * y = 0 -> x = 0 /\ y = 0.
Proof. intros H. split; nra. Qed.

Lemma sum_sqr_nonzero (x y : R) : x <> 0 \/ y <> 0 -> x * x + y * y <> 0.
Proof. intros H E. apply sum_sqr_zero in E. tauto. Qed.

(* ================================================================== *)
(** * Collision resolution: energy and momentum *)
(* ================================================================== *)

Section Resolution.

Variables (d d' : float64) (n n' w w' : nat).

Lemma wall_rebound_fin (x y ux uy : R) (m r : float64) :
  x <> 0 \/ y <> 0 ->
  Ball.velocity_after_wall_collision (Ball.finite x y ux uy m r d n w) =
  (Fin (ux - x * (2 * (ux * x + uy * y) / (x * x + y * y))),
   Fin (uy - y * (2 * (ux * x + uy * y) / (x * x + y * y)))).
Proof.
  intros H. apply sum_sqr_nonzero in H.
  unfold Ball.velocity_after_wall_collision, Ball.finite, vsub, vscale, dot, fsub.
  cbn [Ball.position Ball.velocity fst snd fmul fadd].
  rewrite fdiv_fin by assumption. cbn [fmul fneg fadd].
  f_equal; f_equal; lra.
Qed.

Lemma ball_rebound_fin (x1 y1 u1 v1 m1 x2 y2 u2 v2 m2 : R) (r1 r2 : float64) :
  x1 <> x2 \/ y1 <> y2 -> m1 + m2 <> 0 ->
  let dx := x1 - x2 in
  let dy := y1 - y2 in
  let s := 2 * (dx * (u1 - u2) + dy * (v1 - v2)) / ((m1 + m2) * (dx * dx + dy * dy)) in
  Ball.velocity_after_ball_collision
    (Ball.finite x1 y1 u1 v1 (Fin m1) r1 d n w)
    (Ball.finite x2 y2 u2 v2 (Fin m2) r2 d' n' w') =
  ((Fin (u1 - dx * m2 * s), Fin (v1 - dy * m2 * s)),
   (Fin (u2 + dx * m1 * s), Fin (v2 + dy * m1 * s))).
Proof.
  intros H Hm dx dy s.
  assert (Hd : dx * dx + dy * dy <> 0).
  { apply sum_sqr_nonzero. unfold dx, dy. destruct H; [left | right]; lra. }
  unfold Ball.velocity_after_ball_collision, Ball.finite, vsub, vadd, vscale, dot, fsub.
  cbn [Ball.position Ball.velocity Ball.mass fst snd fmul fadd fneg].
  rewrite fdiv_fin.
  2:{ replace (x1 + - x2) with dx by (unfold dx; lra).
      replace (y1 + - y2) with dy by (unfold dy; lra).
      apply Rmult_integral_contrapositive_currified; assumption. }
  cbn [fmul fneg fadd].
  unfold s, dx, dy.
  repeat f_equal; unfold Rminus; reflexivity.
Qed.

End Resolution.

(* ================================================================== *)
(** * The root finder *)
(* ================================================================== *)

Lemma time_roots_nil : Ball.time_roots [] = [].
Proof. reflexivity. Qed.

Lemma time_roots_real (t : R) (rest : list complex) :
  Ball.time_roots ((t, 0) :: rest) =
  if Rltb Ball.time_floor t then t :: Ball.time_roots rest
  else Ball.time_roots rest.
Proof.
  unfold Ball.time_roots. cbn [List.filter map]. unfold isreal. cbn [fst snd].
  rewrite (Reqb_true 0 0) by reflexivity. cbn [andb]. destruct (Rltb Ball.time_floor t); reflexivity.
Qed.

Lemma time_roots_complex (re im : R) (rest : list complex) :
  im <> 0 -> Ball.time_roots ((re, im) :: rest) = Ball.time_roots rest.
Proof.
  intros H. unfold Ball.time_roots. cbn [List.filter map]. unfold isreal.
  cbn [fst snd]. rewrite (Reqb_false im 0) by assumption. reflexivity.
Qed.

Lemma np_roots_quadratic (a b c : R) :
  a <> 0 -> c <> 0 ->
  np_roots (Fin a) (Fin b) (Fin c) = Ok (monic_quadratic_roots (b / a) (c / a)).
Proof.
  intros Ha Hc. unfold np_roots. cbn [fnonzero].
  rewrite (Reqb_false a 0), (Reqb_false c 0) by assumption. cbn [negb].
  rewrite !fdiv_fin by assumption. cbn [fneg]. rewrite !Ropp_involutive.
  destruct (negb (Reqb b 0)); reflexivity.
Qed.

Lemma np_roots_root_at_zero (a b : R) :
  a <> 0 -> b <> 0 ->
  np_roots (Fin a) (Fin b) (Fin 0) = Ok [ (- (b / a), 0) ; (0, 0) ].
Proof.
  intros Ha Hb. unfold np_roots. cbn [fnonzero].
  rewrite (Reqb_false a 0), (Reqb_false b 0), (Reqb_true 0 0) by auto.
  cbn [negb]. rewrite fdiv_fin by assumption. cbn [fneg].
  rewrite Ropp_involutive. reflexivity.
Qed.

Lemma np_roots_two_zeros (a : R) :
  a <> 0 -> np_roots (Fin a) (Fin 0) (Fin 0) = Ok [ (0, 0) ; (0, 0) ].
Proof.
  intros Ha. unfold np_roots. cbn [fnonzero].
  rewrite (Reqb_false a 0), (Reqb_true 0 0) by auto. reflexivity.
Qed.

Lemma np_roots_linear (b c : R) :
  b <> 0 -> c <> 0 ->
  np_roots (Fin 0) (Fin b) (Fin c) = Ok [ (- (c / b), 0) ].
Proof.
  intros Hb Hc. unfold np_roots. cbn [fnonzero].
  rewrite (Reqb_false b 0), (Reqb_false c 0), (Reqb_true 0 0) by auto.
  cbn [negb]. rewrite fdiv_fin by assumption. cbn [fneg].
  rewrite Ropp_involutive. reflexivity.
Qed.

Lemma np_roots_linear_zero (b : R) :
  b <> 0 -> np_roots (Fin 0) (Fin b) (Fin 0) = Ok [ (0, 0) ].
Proof.
  intros Hb. unfold np_roots. cbn [fnonzero].
  rewrite (Reqb_false b 0), (Reqb_true 0 0) by auto. reflexivity.
Qed.

Lemma np_roots_constant (c : R) :
  np_roots (Fin 0) (Fin 0) (Fin c) = Ok [].
Proof.
  unfold np_roots. cbn [fnonzero]. rewrite (Reqb_true 0 0) by auto.
  cbn [negb]. destruct (negb (Reqb c 0)); reflexivity.
Qed.

(** With finite coefficients the root finder never raises. *)
Lemma np_roots_total (a b c : R) :
  exists roots, np_roots (Fin a) (Fin b) (Fin c) = Ok roots.
Proof.
  destruct (Req_dec a 0) as [-> | Ha], (Req_dec b 0) as [-> | Hb],
    (Req_dec c 0) as [-> | Hc]; eexists;
    first [ apply np_roots_constant | apply np_roots_linear_zero; assumption
          | apply np_roots_linear; assumption
          | apply np_roots_two_zeros; assumption
          | apply np_roots_root_at_zero; assumption
          | apply np_roots_quadratic; assumption ].
Qed.

Lemma predict_of_roots (a b c : float64) (roots : list complex) :
  np_roots a b c = Ok roots ->
  Ball.predict_collision_time a b c =
  match Ball.time_roots roots with
  | [] => Ok PInf
  | t :: ts => Ok (Fin (amin t ts))
  end.
Proof. intros H. unfold Ball.predict_collision_time. rewrite H. reflexivity. Qed.

(** The discriminant of the monic polynomial has the sign of [b^2 - 4ac]. *)
Lemma monic_disc (a b c : R) :
  a <> 0 ->
  b / a * (b / a) - 4 * (c / a) = (b * b - 4 * a * c) / (a * a).
Proof. intros Ha. field. assumption. Qed.

Lemma monic_roots_complex (p q : R) :
  p * p - 4 * q < 0 -> Ball.time_roots (monic_quadratic_roots p q) = [].
Proof.
  intros H. unfold monic_quadratic_roots. rewrite Rltb_true by assumption.
  assert (Hs : 0 < sqrt (- (p * p - 4 * q))) by (apply sqrt_lt_R0; lra).
  rewrite !time_roots_complex by lra. reflexivity.
Qed.

Lemma monic_roots_real (p q : R) :
  0 <= p * p - 4 * q ->
  monic_quadratic_roots p q =
  [ ((- p + sqrt (p * p - 4 * q)) / 2, 0) ;
    ((- p - sqrt (p * p - 4 * q)) / 2, 0) ].
Proof.
  intros H. unfold monic_quadratic_roots. rewrite Rltb_false by assumption.
  reflexivity.
Qed.

(** Both values returned for a non-negative discriminant are roots. *)
Lemma monic_roots_are_roots (p q : R) :
  0 <= p * p - 4 * q ->
  let s := sqrt (p * p - 4 * q) in
  let r1 := (- p + s) / 2 in
  let r2 := (- p - s) / 2 in
  r1 * r1 + p * r1 + q = 0 /\ r2 * r2 + p * r2 + q = 0.
Proof.
  intros H s r1 r2.
  assert (Hs : s * s = p * p - 4 * q) by (apply sqrt_sqrt; assumption).
  unfold r1, r2. split; nra.
Qed.

Lemma predict_complex (a b c : R) :
  b * b - 4 * a * c < 0 ->
  Ball.predict_collision_time (Fin a) (Fin b) (Fin c) = Ok PInf.
Proof.
  intros H.
  assert (Ha : a <> 0) by (intros ->; nra).
  assert (Hc : c <> 0) by (intros ->; nra).
  rewrite (predict_of_roots _ _ _ _ (np_roots_quadratic a b c Ha Hc)).
  rewrite monic_roots_complex; [reflexivity |].
  rewrite monic_disc by assumption.
  assert (0 < a * a) by nra.
  apply Rmult_lt_reg_r with (a * a); [assumption |].
  unfold Rdiv. rewrite Rmult_assoc, Rinv_l by lra. lra.
Qed.

Lemma predict_two_roots (a t1 t2 : R) :
  a <> 0 -> Ball.time_floor < t1 -> Ball.time_floor < t2 ->
  Ball.predict_collision_time (Fin a) (Fin (- a * (t1 + t2))) (Fin (a * t1 * t2))
  = Ok (Fin (Rmin t1 t2)).
Proof.
  intros Ha H1 H2. pose proof time_floor_pos as Hf.
  assert (Hc : a * t1 * t2 <> 0).
  { apply Rmult_integral_contrapositive_currified;
      [apply Rmult_integral_contrapositive_currified |]; lra. }
  rewrite (predict_of_roots _ _ _ _ (np_roots_quadratic a _ _ Ha Hc)).
  replace (- a * (t1 + t2) / a) with (- (t1 + t2)) by (field; assumption).
  replace (a * t1 * t2 / a) with (t1 * t2) by (field; assumption).
  assert (Hd : - (t1 + t2) * - (t1 + t2) - 4 * (t1 * t2) = (t1 - t2) * (t1 - t2)) by ring.
  rewrite monic_roots_real by (rewrite Hd; apply Rle_0_sqr).
  rewrite Hd. fold (Rsqr (t1 - t2)). rewrite sqrt_Rsqr_abs.
  rewrite !time_roots_real. cbn [Ball.time_roots List.filter map].
  unfold Rabs, Rmin, amin.
  destruct (Rcase_abs (t1 - t2)); destruct (Rle_dec t1 t2); try lra.
  - rewrite !Rltb_true by lra. cbn [fold_left]. unfold Rmin.
    destruct (Rle_dec _ _); do 2 f_equal; lra.
  - rewrite !Rltb_true by lra. cbn [fold_left]. unfold Rmin.
    destruct (Rle_dec _ _); do 2 f_equal; lra.
  - rewrite !Rltb_true by lra. cbn [fold_left]. unfold Rmin.
    destruct (Rle_dec _ _); do 2 f_equal; lra.
Qed.


(* ================================================================== *)
(** * Properties of [Ball] *)
(* ================================================================== *)

(** C5. Kinetic energy is conserved by both collision resolutions, in
    exact arithmetic.  Wall: for a ball at a position other than the
    centre, the rebound velocity has the norm of the incoming velocity, so
    the ball's kinetic energy is unchanged.  Balls: for two balls at
    distinct positions and with positive masses, the sum of the two
    kinetic energies after [velocity_after_ball_collision] equals the sum
    before. *)
Theorem C5_kinetic_energy_conserved :
  (forall (x y ux uy : R) (m r d : float64) (n w : nat),
      x <> 0 \/ y <> 0 ->
      let b := Ball.finite x y ux uy m r d n w in
      let v := Ball.velocity_after_wall_collision b in
      norm v = norm (Ball.velocity b) /\
      Ball.kinetic_energy (Ball.update_velocity b v) = Ball.kinetic_energy b) /\
  (forall (x1 y1 u1 v1 m1 x2 y2 u2 v2 m2 : R) (r1 r2 d1 d2 : float64)
          (n1 w1 n2 w2 : nat),
      x1 <> x2 \/ y1 <> y2 -> 0 < m1 -> 0 < m2 ->
      let b1 := Ball.finite x1 y1 u1 v1 (Fin m1) r1 d1 n1 w1 in
      let b2 := Ball.finite x2 y2 u2 v2 (Fin m2) r2 d2 n2 w2 in
      let vs := Ball.velocity_after_ball_collision b1 b2 in
      fadd (Ball.kinetic_energy (Ball.update_velocity b1 (fst vs)))
           (Ball.kinetic_energy (Ball.update_velocity b2 (snd vs)))
      = fadd (Ball.kinetic_energy b1) (Ball.kinetic_energy b2)).
Proof.
  split.
  - intros x y ux uy m r d n w H b v.
    assert (Hd : x * x + y * y <> 0) by (apply sum_sqr_nonzero; assumption).
    assert (E : dot v v = dot (Ball.velocity b) (Ball.velocity b)).
    { unfold v, b. rewrite wall_rebound_fin by assumption.
      unfold dot. cbn [Ball.velocity Ball.finite fst snd fmul fadd].
      f_equal. field. assumption. }
    split.
    + unfold norm. rewrite E. reflexivity.
    + unfold Ball.kinetic_energy. cbn [Ball.velocity Ball.update_velocity Ball.mass].
      rewrite E. reflexivity.
  - intros x1 y1 u1 v1 m1 x2 y2 u2 v2 m2 r1 r2 d1 d2 n1 w1 n2 w2 H Hm1 Hm2 b1 b2 vs.
    assert (Hm : m1 + m2 <> 0) by lra.
    assert (Hd : (x1 - x2) * (x1 - x2) + (y1 - y2) * (y1 - y2) <> 0).
    { apply sum_sqr_nonzero. destruct H; [left | right]; lra. }
    unfold vs, b1, b2. rewrite ball_rebound_fin by assumption.
    unfold Ball.kinetic_energy, dot.
    cbn [Ball.velocity Ball.update_velocity Ball.mass Ball.finite fst snd fmul fadd].
    f_equal. field. split; assumption.
Qed.

Lemma C5_witness :
  norm (Ball.velocity_after_wall_collision
          (Ball.finite 9 0 1 0 (Fin 1) (Fin 1) (Fin 0) 0 0))
  = norm (Fin 1, Fin 0) /\
  (let b1 := Ball.finite 0 0 1 0 (Fin 1) (Fin 1) (Fin 0) 0 0 in
   let b2 := Ball.finite 2 0 (-1) 0 (Fin 3) (Fin 1) (Fin 0) 0 0 in
   let vs := Ball.velocity_after_ball_collision b1 b2 in
   fadd (Ball.kinetic_energy (Ball.update_velocity b1 (fst vs)))
        (Ball.kinetic_energy (Ball.update_velocity b2 (snd vs)))
   = fadd (Ball.kinetic_energy b1) (Ball.kinetic_energy b2)).
Proof.
  destruct C5_kinetic_energy_conserved as [Hwall Hballs]. split.
  - apply (Hwall 9 0 1 0 (Fin 1) (Fin 1) (Fin 0) 0%nat 0%nat). left. lra.
  - apply (Hballs 0 0 1 0 1 2 0 (-1) 0 3); [left |  | ]; lra.
Defined.

(** C6. Momentum is conserved by every ball-ball collision, in exact
    arithmetic: for two balls at distinct positions and with positive
    masses, [m1 v1 + m2 v2 = m1 u1 + m2 u2] for the velocities returned by
    [velocity_after_ball_collision]. *)
Theorem C6_momentum_conserved
  (x1 y1 u1 v1 m1 x2 y2 u2 v2 m2 : R) (r1 r2 d1 d2 : float64)
  (n1 w1 n2 w2 : nat) :
  x1 <> x2 \/ y1 <> y2 -> 0 < m1 -> 0 < m2 ->
  let b1 := Ball.finite x1 y1 u1 v1 (Fin m1) r1 d1 n1 w1 in
  let b2 := Ball.finite x2 y2 u2 v2 (Fin m2) r2 d2 n2 w2 in
  let vs := Ball.velocity_after_ball_collision b1 b2 in
  vadd (Ball.momentum (Ball.update_velocity b1 (fst vs)))
       (Ball.momentum (Ball.update_velocity b2 (snd vs)))
  = vadd (Ball.momentum b1) (Ball.momentum b2).
Proof.
  intros H Hm1 Hm2 b1 b2 vs.
  assert (Hm : m1 + m2 <> 0) by lra.
  assert (Hd : (x1 - x2) * (x1 - x2) + (y1 - y2) * (y1 - y2) <> 0).
  { apply sum_sqr_nonzero. destruct H; [left | right]; lra. }
  unfold vs, b1, b2. rewrite ball_rebound_fin by assumption.
  unfold Ball.momentum, vadd, vscale.
  cbn [Ball.velocity Ball.update_velocity Ball.mass Ball.finite fst snd fmul fadd].
  f_equal; f_equal; field; split; assumption.
Qed.

Lemma C6_witness :
  let b1 := Ball.finite 0 0 1 0 (Fin 1) (Fin 1) (Fin 0) 0 0 in
  let b2 := Ball.finite 2 0 (-1) 0 (Fin 3) (Fin 1) (Fin 0) 0 0 in
  let vs := Ball.velocity_after_ball_collision b1 b2 in
  vadd (Ball.momentum (Ball.update_velocity b1 (fst vs)))
       (Ball.momentum (Ball.update_velocity b2 (snd vs)))
  = vadd (Ball.momentum b1) (Ball.momentum b2).
Proof.
  apply (C6_momentum_conserved 0 0 1 0 1 2 0 (-1) 0 3); [left | | ]; lra.
Defined.








(** C7, as the code has it.  [Ball.__init__] validates only the shape of
    [position] and [velocity]: with both of length 2 it returns a ball
    carrying the given mass and radius, whatever their values; otherwise
    it raises. *)
Theorem C7_init_checks_lengths_only
  (position velocity : list float64) (mass radius : float64) :
  (length position = 2%nat /\ length velocity = 2%nat ->
   exists b, Ball.init position velocity mass radius = Ok b /\
             Ball.mass b = mass /\ Ball.radius b = radius) /\
  (length position <> 2%nat \/ length velocity <> 2%nat ->
   exists msg, Ball.init position velocity mass radius = Raise (Exception msg)).
Proof.
  split.
  - intros [Hp Hv].
    destruct position as [| x1 [| x2 [| ? ?]]]; try discriminate.
    destruct velocity as [| v1 [| v2 [| ? ?]]]; try discriminate.
    eexists. cbn. repeat split.
  - intros H.
    destruct position as [| x1 [| x2 [| ? ?]]];
      try (eexists; reflexivity);
      destruct velocity as [| v1 [| v2 [| ? ?]]];
      try (eexists; reflexivity).
    destruct H as [H | H]; contradiction.
Qed.

Lemma C7_witness :
  (exists b, Ball.init [Fin 0; Fin 0] [Fin 1; Fin 0] NaN (Fin (- 1)) = Ok b /\
             Ball.mass b = NaN /\ Ball.radius b = Fin (- 1)) /\
  (exists msg, Ball.init [Fin 0] [Fin 1; Fin 0] (Fin 1) (Fin 1)
               = Raise (Exception msg)).
Proof.
  split.
  - apply (C7_init_checks_lengths_only [Fin 0; Fin 0] [Fin 1; Fin 0]).
    split; reflexivity.
  - apply (C7_init_checks_lengths_only [Fin 0] [Fin 1; Fin 0]).
    left. discriminate.
Defined.

(** C7, as stated, fails: a ball of mass [-1] and radius [0], and a ball of
    mass [nan] and radius [+inf], are both constructed without error. *)
Lemma C7_counterexample :
  Ball.init [Fin 0; Fin 0] [Fin 0; Fin 0] (Fin (- 1)) (Fin 0)
  = Ok (Ball.mkBall (Fin 0, Fin 0) (Fin 0, Fin 0) (Fin (- 1)) (Fin 0) (Fin 0) 0 0) /\
  Ball.init [Fin 0; Fin 0] [Fin 0; Fin 0] NaN PInf
  = Ok (Ball.mkBall (Fin 0, Fin 0) (Fin 0, Fin 0) NaN PInf (Fin 0) 0 0).
Proof. split; reflexivity. Qed.

(* ================================================================== *)
(** * Loops and subscripts *)
(* ================================================================== *)

Lemma bind_ok {A B} (m : result A) (k : A -> result B) (b : B) :
  bind m k = Ok b -> exists a, m = Ok a /\ k a = Ok b.
Proof. destruct m as [a | e]; cbn; intros H; [eauto | discriminate]. Qed.

(** A property preserved by every iteration that returns holds after the
    loop. *)
Lemma for_each_inv {A S} (P : S -> Prop) (xs : list A)
  (body : A -> S -> result S) :
  (forall x s s', In x xs -> P s -> body x s = Ok s' -> P s') ->
  forall s s', P s -> for_each xs body s = Ok s' -> P s'.
Proof.
  induction xs as [| x xs IH]; intros Hbody s s' Hs Hrun; cbn in Hrun.
  - congruence.
  - apply bind_ok in Hrun as (s1 & H1 & H2).
    apply (IH (fun y t t' Hy => Hbody y t t' (or_intror Hy)) s1 s'); [| exact H2].
    apply (Hbody x s s1); [left; reflexivity | assumption | assumption].
Qed.

(** A loop whose iterations all return, under an invariant, returns. *)
Lemma for_each_total {A S} (P : S -> Prop) (xs : list A)
  (body : A -> S -> result S) :
  (forall x s, In x xs -> P s -> exists s', body x s = Ok s' /\ P s') ->
  forall s, P s -> exists s', for_each xs body s = Ok s' /\ P s'.
Proof.
  induction xs as [| x xs IH]; intros Hbody s Hs; cbn.
  - eauto.
  - destruct (Hbody x s (or_introl eq_refl) Hs) as (s1 & H1 & HP1).
    rewrite H1. cbn.
    apply IH; [| assumption].
    intros y t Hy. apply Hbody. right. assumption.
Qed.

Lemma in_range (lo hi i : nat) : In i (range lo hi) <-> (lo <= i < hi)%nat.
Proof. unfold range. rewrite in_seq. lia. Qed.

Lemma get_item_ok {A} (l : list A) (i : nat) (x : A) :
  get_item l i = Ok x <-> l !! i = Some x.
Proof.
  unfold get_item. destruct (l !! i); split; intros H; congruence.
Qed.

Lemma get_item_lt {A} (l : list A) (i : nat) :
  (i < length l)%nat -> exists x, get_item l i = Ok x.
Proof.
  intros H. apply lookup_lt_is_Some_2 in H as [x Hx].
  exists x. apply get_item_ok. assumption.
Qed.

Lemma set_item_ok {A} (l l' : list A) (i : nat) (v : A) :
  set_item l i v = Ok l' <-> (i < length l)%nat /\ l' = <[i:=v]> l.
Proof.
  unfold set_item. destruct (decide (i < length l)%nat); split.
  - intros [= <-]. auto.
  - intros [_ ->]. reflexivity.
  - discriminate.
  - intros [H _]. contradiction.
Qed.

Lemma set_item2_ok (t t' : list (list float64)) (i j : nat) (v : float64) :
  set_item2 t i j v = Ok t' <->
  exists row, t !! i = Some row /\ (j < length row)%nat /\
              t' = <[i := <[j := v]> row]> t.
Proof.
  unfold set_item2. split.
  - intros H. apply bind_ok in H as (row & Hrow & H).
    apply bind_ok in H as (row' & Hrow' & H).
    apply get_item_ok in Hrow. apply set_item_ok in Hrow' as [Hj ->].
    apply set_item_ok in H as [_ ->]. eauto.
  - intros (row & Hrow & Hj & ->).
    apply get_item_ok in Hrow as Hg. rewrite Hg. cbn.
    unfold set_item at 1. rewrite decide_True by assumption. cbn.
    unfold set_item. rewrite decide_True; [reflexivity |].
    eapply lookup_lt_Some. eassumption.
Qed.

(* ================================================================== *)
(** * The pairwise table stays upper-triangular *)
(* ================================================================== *)

Lemma upper_triangular_full (n m : nat) : upper_triangular (np_full2 n m PInf).
Proof.
  intros i j row v Hrow Hv _. unfold np_full2, np_full in *.
  apply lookup_replicate in Hrow as [-> _].
  apply lookup_replicate in Hv as [-> _]. reflexivity.
Qed.

(** Writing a cell strictly above the diagonal keeps the shape. *)
Lemma upper_triangular_set (t t' : list (list float64)) (x y : nat) (v : float64) :
  (x < y)%nat -> upper_triangular t -> set_item2 t x y v = Ok t' ->
  upper_triangular t'.
Proof.
  intros Hxy Ht Hset. apply set_item2_ok in Hset as (row0 & Hrow0 & Hy & ->).
  intros i j row w Hrow Hw Hji.
  destruct (decide (i = x)) as [-> | Hne].
  - rewrite list_lookup_insert_eq in Hrow by (eapply lookup_lt_Some; eassumption).
    injection Hrow as <-.
    rewrite list_lookup_insert_ne in Hw by lia.
    eapply Ht; eassumption.
  - rewrite list_lookup_insert_ne in Hrow by congruence.
    eapply Ht; eassumption.
Qed.

Lemma init_table_upper (self self' : App.App) :
  upper_triangular (App.b2b_table self) ->
  App.init_table self = Ok self' ->
  upper_triangular (App.b2b_table self').
Proof.
  unfold App.init_table. intros Hinv.
  apply (for_each_inv (fun s => upper_triangular (App.b2b_table s))); [| exact Hinv].
  intros i s s' _ Hs Hbody.
  apply bind_ok in Hbody as (bi & _ & Hbody).
  apply bind_ok in Hbody as (t & _ & Hbody).
  apply bind_ok in Hbody as (b2w & _ & Hbody).
  revert Hbody.
  apply (for_each_inv (fun s => upper_triangular (App.b2b_table s))); [| exact Hs].
  intros j s1 s1' Hj Hs1 Hin.
  apply in_range in Hj.
  apply bind_ok in Hin as (? & _ & Hin).
  apply bind_ok in Hin as (? & _ & Hin).
  apply bind_ok in Hin as (? & _ & Hin).
  apply bind_ok in Hin as (b2b & Hset & [= <-]).
  cbn. eapply upper_triangular_set; [| exact Hs1 | exact Hset]. lia.
Qed.

Lemma update_table_upper (self self' : App.App) (dt : float64) :
  upper_triangular (App.b2b_table self) ->
  App.update_table self dt = Ok self' ->
  upper_triangular (App.b2b_table self').
Proof.
  unfold App.update_table. intros Hinv.
  apply (for_each_inv (fun s => upper_triangular (App.b2b_table s))); [| exact Hinv].
  intros i s s' _ Hs.
  apply (for_each_inv (fun s => upper_triangular (App.b2b_table s))); [| exact Hs].
  intros j s1 s1' Hj Hs1 Hin.
  apply in_range in Hj.
  apply bind_ok in Hin as (? & _ & Hin).
  apply bind_ok in Hin as (b2b & Hset & [= <-]).
  cbn. eapply upper_triangular_set; [| exact Hs1 | exact Hset]. lia.
Qed.

Lemma recalculate_collision_upper (self self' : App.App) (ball_ids : list nat) :
  upper_triangular (App.b2b_table self) ->
  App.recalculate_collision self ball_ids = Ok self' ->
  upper_triangular (App.b2b_table self').
Proof.
  unfold App.recalculate_collision. intros Hinv.
  apply (for_each_inv (fun s => upper_triangular (App.b2b_table s))); [| exact Hinv].
  intros i s s' _ Hs Hbody.
  apply bind_ok in Hbody as (bi & _ & Hbody).
  apply bind_ok in Hbody as (t & _ & Hbody).
  apply bind_ok in Hbody as (b2w & _ & Hbody).
  revert Hbody.
  apply (for_each_inv (fun s => upper_triangular (App.b2b_table s))); [| exact Hs].
  intros j s1 s1' _ Hs1 Hin.
  destruct (decide (i <> j)) as [Hne | _].
  - apply bind_ok in Hin as (? & _ & Hin).
    apply bind_ok in Hin as (? & _ & Hin).
    apply bind_ok in Hin as (? & _ & Hin).
    apply bind_ok in Hin as (b2b & Hset & [= <-]).
    cbn. eapply upper_triangular_set; [| exact Hs1 | exact Hset]. lia.
  - injection Hin as <-. exact Hs1.
Qed.

(* ================================================================== *)
(** * The argmin scan *)
(* ================================================================== *)

(** [+inf] never replaces the running minimum. *)
Lemma argmin_takes_pinf (best : float64) : argmin_takes PInf best = false.
Proof. destruct best; reflexivity. Qed.

(** Anything but [+inf] replaces a running minimum [+inf]. *)
Lemma argmin_not_taken_pinf (x : float64) :
  argmin_takes x PInf = false -> x = PInf.
Proof. destruct x; cbn; intros H; try discriminate; reflexivity. Qed.

(** The scan returns either the index it started with, and then a
    starting value [+inf] means that everything scanned is [+inf], or the
    index of a scanned element other than [+inf]. *)
Lemma argmin_scan_spec (xs : list float64) :
  forall (best_i : nat) (best : float64) (i : nat),
    (best_i < i)%nat ->
    let r := argmin_scan best_i best i xs in
    (r = best_i /\ (best = PInf -> Forall (eq PInf) xs)) \/
    ((i <= r)%nat /\ exists v, xs !! (r - i)%nat = Some v /\ v <> PInf).
Proof.
  induction xs as [| x xs IH]; intros best_i best i Hlt; cbn.
  - left. split; [reflexivity | constructor].
  - destruct (argmin_takes x best) eqn:Htake.
    + assert (Hx : x <> PInf).
      { intros ->. rewrite argmin_takes_pinf in Htake. discriminate. }
      right. destruct (IH i x (S i) (Nat.lt_succ_diag_r i)) as [[-> _] | [Hle (v & Hv & Hne)]].
      * split; [lia |]. exists x. rewrite Nat.sub_diag. auto.
      * split; [lia |]. exists v. split; [| assumption].
        replace (argmin_scan i x (S i) xs - i)%nat
          with (S (argmin_scan i x (S i) xs - S i)) by lia.
        exact Hv.
    + destruct (IH best_i best (S i) (Nat.lt_lt_succ_r _ _ Hlt))
        as [[-> Hall] | [Hle (v & Hv & Hne)]].
      * left. split; [reflexivity |]. intros ->. constructor.
        -- symmetry. apply argmin_not_taken_pinf. assumption.
        -- auto.
      * right. split; [lia |]. exists v. split; [| assumption].
        replace (argmin_scan best_i best (S i) xs - i)%nat
          with (S (argmin_scan best_i best (S i) xs - S i)) by lia.
        exact Hv.
Qed.

(** [np.argmin] returns a valid index, and the element there is [+inf]
    only if the whole array is [+inf]. *)
Lemma np_argmin_spec (xs : list float64) (k : nat) :
  np_argmin xs = Ok k ->
  exists v, xs !! k = Some v /\ (v = PInf -> Forall (eq PInf) xs).
Proof.
  destruct xs as [| x xs]; cbn; [discriminate |]. intros [= <-].
  destruct (argmin_scan_spec xs 0 x 1 Nat.lt_0_1) as [[-> Hall] | [Hle (v & Hv & Hne)]].
  - exists x. split; [reflexivity |]. intros ->. constructor; auto.
  - exists v. split.
    + destruct (argmin_scan 0 x 1 xs) as [| r]; [lia |].
      cbn. replace (S r - 1)%nat with r in Hv by lia. exact Hv.
    + intros ->. contradiction.
Qed.

Lemma np_argmin_total (xs : list float64) :
  xs <> [] -> exists k, np_argmin xs = Ok k.
Proof. destruct xs; [contradiction | eexists; reflexivity]. Qed.

Lemma concat_empty_rows (t : list (list float64)) :
  Forall (fun row => length row = 0%nat) t -> concat t = [].
Proof.
  induction 1 as [| row t Hrow _ IH]; [reflexivity |].
  destruct row; [exact IH | discriminate].
Qed.

(** Row-major flattening of an array whose rows all have length [n]. *)
Lemma lookup_concat_square (n : nat) (t : list (list float64)) (k : nat) (v : float64) :
  Forall (fun row => length row = n) t ->
  concat t !! k = Some v ->
  exists row, t !! (k / n)%nat = Some row /\ row !! (k mod n)%nat = Some v.
Proof.
  intros Hrows.
  destruct (Nat.eq_dec n 0%nat) as [-> | Hn].
  { intros Hk. rewrite (concat_empty_rows t Hrows), lookup_nil in Hk. discriminate. }
  revert k. induction Hrows as [| row t Hrow _ IH]; intros k Hk.
  - cbn in Hk. rewrite lookup_nil in Hk. discriminate.
  - cbn [concat] in Hk.
    destruct (decide (k < n)%nat) as [Hlt | Hge].
    + rewrite lookup_app_l in Hk by lia.
      exists row. rewrite Nat.div_small, Nat.mod_small by assumption. auto.
    + rewrite lookup_app_r in Hk by lia. rewrite Hrow in Hk.
      apply IH in Hk as (r & Hr1 & Hr2).
      exists r.
      replace k with ((k - n) + 1 * n)%nat at 1 2 by lia.
      rewrite Nat.div_add, Nat.Div0.mod_add by assumption.
      replace ((k - n) / n + 1)%nat with (S ((k - n) / n)) by lia.
      auto.
Qed.

(* ================================================================== *)
(** * The root finder on a factored polynomial, and its soundness *)
(* ================================================================== *)

(** On [a (t - t1) (t - t2)] with [t1 <= t2], the result is the first of
    [t1], [t2] above the floor. *)
Lemma predict_factored (a b c t1 t2 : R) :
  a <> 0 -> b = - a * (t1 + t2) -> c = a * t1 * t2 -> t1 <= t2 ->
  Ball.predict_collision_time (Fin a) (Fin b) (Fin c) =
  Ok (if Rltb Ball.time_floor t1 then Fin t1
      else if Rltb Ball.time_floor t2 then Fin t2 else PInf).
Proof.
  intros Ha Hb Hc Hle. pose proof time_floor_pos as Hf.
  destruct (Req_dec c 0) as [Hc0 | Hc0].
  - rewrite Hc0.
    assert (Ht : t1 = 0 \/ t2 = 0).
    { rewrite Hc in Hc0. apply Rmult_integral in Hc0 as [Hc0 | ?]; [| auto].
      apply Rmult_integral in Hc0 as [? | ?]; [contradiction | auto]. }
    destruct (Req_dec b 0) as [Hb0 | Hb0].
    + rewrite Hb0. rewrite (predict_of_roots _ _ _ _ (np_roots_two_zeros a Ha)).
      assert (t1 + t2 = 0).
      { rewrite Hb in Hb0. apply Rmult_integral in Hb0 as [? | ?]; [lra | assumption]. }
      rewrite !time_roots_real, !(Rltb_false _ 0) by lra.
      rewrite !Rltb_false by lra. reflexivity.
    + rewrite (predict_of_roots _ _ _ _ (np_roots_root_at_zero a b Ha Hb0)).
      replace (- (b / a)) with (t1 + t2) by (rewrite Hb; field; assumption).
      rewrite !time_roots_real, (Rltb_false _ 0) by lra.
      destruct Ht as [-> | ->].
      * rewrite Rplus_0_l, (Rltb_false _ 0) by lra.
        destruct (Rltb Ball.time_floor t2); reflexivity.
      * rewrite Rplus_0_r, (Rltb_false _ 0), (Rltb_false _ t1) by lra. reflexivity.
  - rewrite (predict_of_roots _ _ _ _ (np_roots_quadratic a b c Ha Hc0)).
    replace (b / a) with (- (t1 + t2)) by (rewrite Hb; field; assumption).
    replace (c / a) with (t1 * t2) by (rewrite Hc; field; assumption).
    assert (Hd : - (t1 + t2) * - (t1 + t2) - 4 * (t1 * t2) = (t2 - t1) * (t2 - t1)) by ring.
    rewrite monic_roots_real by (rewrite Hd; apply Rle_0_sqr).
    rewrite Hd, sqrt_square by lra.
    replace ((- - (t1 + t2) + (t2 - t1)) / 2) with t2 by lra.
    replace ((- - (t1 + t2) - (t2 - t1)) / 2) with t1 by lra.
    rewrite !time_roots_real.
    unfold Rltb.
    destruct (Rlt_dec Ball.time_floor t2), (Rlt_dec Ball.time_floor t1);
      try lra; try reflexivity.
    cbn. unfold Rmin. destruct (Rle_dec t2 t1); do 2 f_equal; lra.
Qed.

Lemma amin_in (t : R) (ts : list R) : In (amin t ts) (t :: ts).
Proof.
  unfold amin. revert t. induction ts as [| u ts IH]; intros t; cbn.
  - left. reflexivity.
  - destruct (IH (Rmin t u)) as [E | Hin].
    + unfold Rmin in E at 1. destruct (Rle_dec t u); [left | right; left]; exact E.
    + right. right. exact Hin.
Qed.

Lemma time_roots_in (roots : list complex) (t : R) :
  In t (Ball.time_roots roots) <-> In (t, 0) roots /\ Ball.time_floor < t.
Proof.
  unfold Ball.time_roots. rewrite in_map_iff. split.
  - intros ([re im] & <- & Hin). apply filter_In in Hin as [Hin Hb].
    apply andb_prop in Hb as [Hre Hfl]. unfold isreal, Reqb, Rltb in *. cbn in *.
    destruct (Req_EM_T im 0); [subst im | discriminate].
    destruct (Rlt_dec Ball.time_floor re); [auto | discriminate].
  - intros [Hin Hlt]. exists (t, 0). split; [reflexivity |].
    apply filter_In. split; [assumption |].
    unfold isreal. cbn. rewrite Reqb_true, Rltb_true by auto. reflexivity.
Qed.

(** Every real value returned by [np.roots] is a root. *)
Lemma np_roots_sound (a b c : R) (roots : list complex) (t : R) :
  np_roots (Fin a) (Fin b) (Fin c) = Ok roots -> In (t, 0) roots ->
  a * t * t + b * t + c = 0.
Proof.
  intros Hroots Hin.
  destruct (Req_dec a 0) as [-> | Ha].
  - destruct (Req_dec b 0) as [-> | Hb].
    + rewrite np_roots_constant in Hroots. injection Hroots as <-. destruct Hin.
    + destruct (Req_dec c 0) as [-> | Hc].
      * rewrite np_roots_linear_zero in Hroots by assumption.
        injection Hroots as <-. destruct Hin as [[= <-] | []]. ring.
      * rewrite np_roots_linear in Hroots by assumption.
        injection Hroots as <-. destruct Hin as [[= <-] | []]. field. assumption.
  - destruct (Req_dec c 0) as [-> | Hc].
    + destruct (Req_dec b 0) as [-> | Hb].
      * rewrite np_roots_two_zeros in Hroots by assumption.
        injection Hroots as <-. destruct Hin as [[= <-] | [[= <-] | []]]; ring.
      * rewrite np_roots_root_at_zero in Hroots by assumption.
        injection Hroots as <-. destruct Hin as [[= <-] | [[= <-] | []]];
          [field; assumption | ring].
    + rewrite np_roots_quadratic in Hroots by assumption.
      injection Hroots as <-.
      destruct (Rlt_dec (b / a * (b / a) - 4 * (c / a)) 0) as [Hneg | Hpos].
      * unfold monic_quadratic_roots in Hin. rewrite Rltb_true in Hin by assumption.
        assert (Hs : 0 < sqrt (- (b / a * (b / a) - 4 * (c / a))))
          by (apply sqrt_lt_R0; lra).
        destruct Hin as [[= _ E] | [[= _ E] | []]]; lra.
      * apply Rnot_lt_le in Hpos.
        rewrite monic_roots_real in Hin by assumption.
        destruct (monic_roots_are_roots _ _ Hpos) as [E1 E2]. cbv zeta in E1, E2.
        replace (a * t * t + b * t + c)
          with (a * (t * t + b / a * t + c / a)) by (field; assumption).
        destruct Hin as [[= <-] | [[= <-] | []]]; [rewrite E1 | rewrite E2]; ring.
Qed.

(** A finite predicted time is a root of the polynomial, above the floor. *)
Lemma predict_sound (a b c t : R) :
  Ball.predict_collision_time (Fin a) (Fin b) (Fin c) = Ok (Fin t) ->
  a * t * t + b * t + c = 0 /\ Ball.time_floor < t.
Proof.
  intros H. destruct (np_roots_total a b c) as [roots Hroots].
  rewrite (predict_of_roots _ _ _ _ Hroots) in H.
  destruct (Ball.time_roots roots) as [| u us] eqn:E; [discriminate |].
  injection H as <-.
  pose proof (amin_in u us) as Hin. rewrite <- E in Hin.
  apply time_roots_in in Hin as [Hin Hlt].
  split; [| assumption]. eapply np_roots_sound; eassumption.
Qed.

(* ================================================================== *)
(** * Running the engine on concrete configurations *)
(* ================================================================== *)

Lemma next_wall_coefficients (x y ux uy r R : R) (m d : float64) (n w : nat) :
  Ball.next_wall_collision
    (Ball.mkBall (Fin x, Fin y) (Fin ux, Fin uy) m (Fin r) d n w) (Fin R) =
  Ball.predict_collision_time
    (Fin (ux * ux + uy * uy)) (Fin (2 * (x * ux + y * uy)))
    (Fin (x * x + y * y + - ((R + - r) * (R + - r)))).
Proof. reflexivity. Qed.

Lemma next_ball_coefficients (x1 y1 u1 v1 r1 x2 y2 u2 v2 r2 : R)
  (m1 d1 m2 d2 : float64) (n1 w1 n2 w2 : nat) :
  Ball.next_ball_collision
    (Ball.mkBall (Fin x1, Fin y1) (Fin u1, Fin v1) m1 (Fin r1) d1 n1 w1)
    (Ball.mkBall (Fin x2, Fin y2) (Fin u2, Fin v2) m2 (Fin r2) d2 n2 w2) =
  Ball.predict_collision_time
    (Fin ((u1 + - u2) * (u1 + - u2) + (v1 + - v2) * (v1 + - v2)))
    (Fin (2 * ((x1 + - x2) * (u1 + - u2) + (y1 + - y2) * (v1 + - v2))))
    (Fin ((x1 + - x2) * (x1 + - x2) + (y1 + - y2) * (y1 + - y2)
          + - ((r1 + r2) * (r1 + r2)))).
Proof. reflexivity. Qed.

Lemma sqrt_of_square (x y : R) : 0 <= y -> x = y * y -> sqrt x = y.
Proof. intros Hy ->. apply sqrt_square. assumption. Qed.

(** Replace every [sqrt e] whose argument is the square of [v]. *)
Ltac sqrt_is v :=
  repeat match goal with
  | |- context [sqrt ?e] => rewrite (sqrt_of_square e v) by lra
  end.

(** Settle the comparisons with the floor. *)
Ltac floor_cases :=
  repeat first
    [ rewrite (Rltb_true Ball.time_floor) by (unfold Ball.time_floor; lra)
    | rewrite (Rltb_false Ball.time_floor) by (unfold Ball.time_floor; lra) ].

(** Settle the comparisons between concrete reals. *)
Ltac real_cases :=
  repeat match goal with
  | |- context [Rltb ?x ?y] =>
      first [ rewrite (Rltb_true x y) by lra | rewrite (Rltb_false x y) by lra ]
  | |- context [Reqb ?x ?y] =>
      first [ rewrite (Reqb_true x y) by lra | rewrite (Reqb_false x y) by lra ]
  end.

(** Settle the comparisons between concrete indices. *)
Ltac decisions :=
  repeat first [ rewrite decide_True by (cbn; lia)
               | rewrite decide_False by (cbn; lia) ].

Ltac unfold_engine :=
  unfold set_item, set_item2, get_item2, App.modify_ball,
    App.with_b2w, App.with_b2b, App.with_balls, App.with_delta_p,
    App.with_ball_collisions, App.with_wall_collisions,
    App.incr_wall, App.incr_ball,
    Ball.update_position, Ball.update_velocity,
    Ball.velocity_after_wall_collision, Ball.velocity_after_ball_collision,
    Ball.kinetic_energy, Ball.speed_squared, Ball.momentum,
    norm, vadd, vsub, vscale, smul, dot, fsub, fsquare, inf_times.

Ltac engine :=
  cbn [length App.num_balls App.balls App.container_radius App.b2b_table
       App.b2w_table App.time App.delta_p App.container_circumference
       App.kinetic_energy App.rms_speed App.pressure App.ball_collisions
       App.wall_collisions
       range Nat.sub Nat.add seq for_each bind
       get_item lookup list_lookup
       insert list_insert np_full np_full2 replicate map concat app fst snd
       Nat.min Nat.max].

Ltac floats :=
  repeat (progress
    (cbn [fadd fmul fneg fdiv fsqrt flt fle fst snd INR fold_left
          Ball.position Ball.velocity Ball.mass Ball.radius
          Ball.distance_travelled Ball.ball_collisions Ball.wall_collisions];
     real_cases)).

(** One pass of symbolic execution; [facts] rewrites the collision times
    that come up. *)
Ltac eval_with facts :=
  repeat (progress (unfold_engine; engine; floats; decisions; try facts)).

(** Equality of two states, field by field. *)
Ltac fin_eq :=
  first [ reflexivity
        | apply (f_equal Fin);
          first [ lra | field; lra | apply (f_equal sqrt); lra ] ].

Ltac state_eq :=
  repeat match goal with
  | |- @eq (result _) (Ok _) (Ok _) => apply f_equal
  | |- @eq App.App _ _ => f_equal
  | |- @eq Ball.Ball _ _ => f_equal
  | |- @eq (list _) (_ :: _) (_ :: _) => f_equal
  | |- (_, _) = (_, _) => f_equal
  | |- Fin _ = Fin _ => fin_eq
  | |- _ => reflexivity
  end.

Ltac escape_facts :=
  rewrite ?next_wall_coefficients, ?next_ball_coefficients;
  first [ rewrite (predict_factored _ _ _ (- 18) 0) by lra
        | rewrite (predict_factored _ _ _ (- 1) 1) by lra
        | rewrite (predict_factored _ _ _ 0 2) by lra
        | rewrite predict_complex by lra ];
  floor_cases.

Lemma escape_init : App.init (Fin 10) escape_balls = Ok escape_app.
Proof.
  unfold App.init, App.init_table, escape_balls, unit_ball, Ball.finite.
  eval_with escape_facts.
  unfold App.update_state. eval_with idtac.
  unfold escape_app, escape_balls, unit_ball, Ball.finite. state_eq.
Qed.

Lemma escape_next : App.next_collision escape_app = Ok ([1%nat], Fin 1).
Proof.
  unfold App.next_collision, escape_app, np_argmin, unravel_index, ncols.
  eval_with idtac. cbn [argmin_scan argmin_takes flt]. eval_with idtac.
  cbn [Nat.div Nat.modulo Nat.divmod fst snd]. eval_with idtac. reflexivity.
Qed.

Lemma escape_resolve :
  (self <- App.advance escape_app (Fin 1) ;; App.collide_wall self 1)
  = Ok escape_resolved.
Proof.
  unfold App.advance, App.update_table, App.collide_wall,
    App.recalculate_collision, escape_app, escape_balls, unit_ball, Ball.finite.
  eval_with escape_facts.
  sqrt_is 18. sqrt_is 1. sqrt_is 9.
  unfold escape_resolved, escape_app1. cbn [App.balls App.b2b_table App.b2w_table].
  state_eq.
Qed.

Lemma escape_update_state :
  App.update_state escape_resolved (Fin 1) = Ok escape_app1.
Proof.
  pose proof PI_RGT_0 as Hpi.
  unfold App.update_state, escape_resolved, escape_app1.
  eval_with idtac. state_eq.
Qed.

Lemma escape_collide : App.collide escape_app ([1%nat], Fin 1) = Ok escape_app1.
Proof.
  unfold App.collide. cbn [fst snd].
  pose proof escape_resolve as H.
  destruct (App.advance escape_app (Fin 1)) as [self |]; [| discriminate].
  cbn [bind] in *. rewrite H. cbn [bind]. apply escape_update_state.
Qed.

Lemma escape_run : App.run (Fin 10) 1 escape_balls = Ok escape_app1.
Proof.
  unfold App.run. rewrite escape_init. cbn [bind App.render].
  rewrite escape_next. cbn [bind]. rewrite escape_collide. reflexivity.
Qed.

Lemma predict_constant (a b c : R) :
  a = 0 -> b = 0 ->
  Ball.predict_collision_time (Fin a) (Fin b) (Fin c) = Ok PInf.
Proof.
  intros -> ->. rewrite (predict_of_roots _ _ _ _ (np_roots_constant c)).
  reflexivity.
Qed.

Ltac tie_facts :=
  rewrite ?next_wall_coefficients, ?next_ball_coefficients;
  first [ rewrite (predict_factored _ _ _ (- 17) 1) by lra
        | rewrite (predict_factored _ _ _ (- 7) 2) by lra
        | rewrite (predict_factored _ _ _ 1 5) by lra ];
  floor_cases.

Lemma tie_init : App.init (Fin 10) tie_balls = Ok tie_app.
Proof.
  unfold App.init, App.init_table, tie_balls, unit_ball, Ball.finite.
  eval_with tie_facts.
  unfold App.update_state. eval_with idtac.
  unfold tie_app, tie_balls, unit_ball, Ball.finite. state_eq.
Qed.

Lemma tie_next : App.next_collision tie_app = Ok ([0%nat; 1%nat], Fin 1).
Proof.
  unfold App.next_collision, tie_app, np_argmin, unravel_index, ncols.
  eval_with idtac. cbn [argmin_scan argmin_takes flt]. eval_with idtac.
  cbn [argmin_scan argmin_takes flt]. eval_with idtac.
  cbn [Nat.div Nat.modulo Nat.divmod fst snd]. eval_with idtac. reflexivity.
Qed.

Ltac stalled_facts :=
  rewrite ?next_wall_coefficients, ?next_ball_coefficients;
  rewrite predict_constant by lra.

Lemma stalled_init : App.init (Fin 10) stalled_balls = Ok stalled_app.
Proof.
  unfold App.init, App.init_table, stalled_balls, unit_ball, Ball.finite.
  eval_with stalled_facts.
  unfold App.update_state. eval_with idtac. sqrt_is 0.
  unfold stalled_app, stalled_balls, unit_ball, Ball.finite. state_eq.
Qed.

Lemma stalled_next : App.next_collision stalled_app = Ok ([0%nat; 0%nat], PInf).
Proof. reflexivity. Qed.

(* ================================================================== *)
(** * Special values *)
(* ================================================================== *)

Lemma fadd_nan_r (x : float64) : fadd x NaN = NaN.
Proof. destruct x; reflexivity. Qed.

Lemma fadd_nan_l (x : float64) : fadd NaN x = NaN.
Proof. destruct x; reflexivity. Qed.

Lemma fmul_nan_r (x : float64) : fmul x NaN = NaN.
Proof. destruct x; reflexivity. Qed.

Lemma fmul_nan_l (x : float64) : fmul NaN x = NaN.
Proof. destruct x; reflexivity. Qed.

Lemma fdiv_nan_r (x : float64) : fdiv x NaN = NaN.
Proof. destruct x; reflexivity. Qed.

Lemma fdiv_nan_l (x : float64) : fdiv NaN x = NaN.
Proof. destruct x; reflexivity. Qed.

(** Anything times an infinity is not finite. *)
Lemma fmul_pinf_not_finite (x : float64) : is_finite (fmul x PInf) = false.
Proof.
  destruct x; try reflexivity. cbn. unfold inf_times.
  destruct (Reqb r 0); [reflexivity |]. destruct (Rltb 0 r); reflexivity.
Qed.

Lemma fadd_not_finite_r (x y : float64) :
  is_finite y = false -> is_finite (fadd x y) = false.
Proof. destruct x, y; cbn; intros H; try discriminate; reflexivity. Qed.

(** [x - x] is [nan] for a value that is not finite. *)
Lemma fsub_self_not_finite (x : float64) :
  is_finite x = false -> fsub x x = NaN.
Proof. destruct x; cbn; intros H; try discriminate; reflexivity. Qed.

(** [np.roots] raises as soon as the two leading coefficients are [nan]. *)
Lemma predict_nan (c : float64) :
  Ball.predict_collision_time NaN NaN c = Raise LinAlgError.
Proof.
  unfold Ball.predict_collision_time, np_roots. cbn [fnonzero].
  destruct (fnonzero c); reflexivity.
Qed.

Lemma next_wall_collision_nan (b : Ball.Ball) (container_radius : float64) :
  Ball.velocity b = (NaN, NaN) ->
  Ball.next_wall_collision b container_radius = Raise LinAlgError.
Proof.
  intros Hv. unfold Ball.next_wall_collision, dot. rewrite Hv. cbn [fst snd].
  rewrite ?fmul_nan_r, ?fmul_nan_l, ?fadd_nan_l, ?fadd_nan_r. cbn [fmul].
  apply predict_nan.
Qed.

Lemma stalled_collide :
  App.collide stalled_app ([0%nat; 0%nat], PInf) = Raise LinAlgError.
Proof.
  unfold App.collide, App.advance, App.update_table, App.collide_balls,
    App.recalculate_collision, stalled_app, stalled_balls, unit_ball, Ball.finite.
  eval_with ltac:(rewrite next_wall_collision_nan by reflexivity).
  reflexivity.
Qed.

Lemma stalled_run : App.run (Fin 10) 1 stalled_balls = Raise LinAlgError.
Proof.
  unfold App.run. rewrite stalled_init. cbn [bind App.render].
  rewrite stalled_next. cbn [bind]. rewrite stalled_collide. reflexivity.
Qed.

(* ================================================================== *)
(** * What the table operations leave alone *)
(* ================================================================== *)

Lemma update_table_frame (self self' : App.App) (dt : float64) :
  App.update_table self dt = Ok self' ->
  App.balls self' = App.balls self /\
  App.num_balls self' = App.num_balls self /\
  App.container_radius self' = App.container_radius self /\
  App.b2w_table self' = map (fun t => fsub t dt) (App.b2w_table self).
Proof.
  unfold App.update_table.
  set (s0 := App.with_b2w self _).
  change (App.balls self) with (App.balls s0).
  change (App.num_balls self) with (App.num_balls s0).
  change (App.container_radius self) with (App.container_radius s0).
  change (map (fun t => fsub t dt) (App.b2w_table self)) with (App.b2w_table s0).
  generalize s0. clear s0. intros s0.
  apply (for_each_inv (fun s =>
    App.balls s = App.balls s0 /\ App.num_balls s = App.num_balls s0 /\
    App.container_radius s = App.container_radius s0 /\
    App.b2w_table s = App.b2w_table s0)); [| auto].
  intros i s s1 _ Hs.
  apply (for_each_inv (fun s =>
    App.balls s = App.balls s0 /\ App.num_balls s = App.num_balls s0 /\
    App.container_radius s = App.container_radius s0 /\
    App.b2w_table s = App.b2w_table s0)); [| exact Hs].
  intros j s2 s3 _ Hs2 Hin.
  apply bind_ok in Hin as (? & _ & Hin).
  apply bind_ok in Hin as (b2b & _ & [= <-]).
  exact Hs2.
Qed.

Lemma recalculate_collision_frame (self self' : App.App) (ball_ids : list nat) :
  App.recalculate_collision self ball_ids = Ok self' ->
  App.balls self' = App.balls self /\
  App.num_balls self' = App.num_balls self /\
  App.container_radius self' = App.container_radius self.
Proof.
  unfold App.recalculate_collision.
  apply (for_each_inv (fun s =>
    App.balls s = App.balls self /\ App.num_balls s = App.num_balls self /\
    App.container_radius s = App.container_radius self)); [| auto].
  intros i s s1 _ Hs Hbody.
  apply bind_ok in Hbody as (? & _ & Hbody).
  apply bind_ok in Hbody as (? & _ & Hbody).
  apply bind_ok in Hbody as (b2w & _ & Hbody).
  revert Hbody.
  apply (for_each_inv (fun s =>
    App.balls s = App.balls self /\ App.num_balls s = App.num_balls self /\
    App.container_radius s = App.container_radius self)); [| exact Hs].
  intros j s2 s3 _ Hs2 Hin.
  destruct (decide (i <> j)).
  - apply bind_ok in Hin as (? & _ & Hin).
    apply bind_ok in Hin as (? & _ & Hin).
    apply bind_ok in Hin as (? & _ & Hin).
    apply bind_ok in Hin as (b2b & _ & [= <-]).
    exact Hs2.
  - injection Hin as <-. exact Hs2.
Qed.

Lemma square_insert (n : nat) (t : list (list float64)) (i j : nat)
  (row : list float64) (v : float64) :
  square n t -> t !! i = Some row -> square n (<[i := <[j := v]> row]> t).
Proof.
  intros [Hlen Hrows] Hrow. split.
  - rewrite length_insert. assumption.
  - apply Forall_insert; [assumption |].
    rewrite length_insert. eapply Forall_lookup_1 in Hrows; eauto.
Qed.

(** On a square table, [update_table] returns. *)
Lemma update_table_total (self : App.App) (dt : float64) :
  square (length (App.b2b_table self)) (App.b2b_table self) ->
  exists self', App.update_table self dt = Ok self'.
Proof.
  intros Hsq. unfold App.update_table.
  set (n := length (App.b2b_table self)) in *.
  set (s0 := App.with_b2w self _).
  assert (H0 : square n (App.b2b_table s0)) by exact Hsq.
  clearbody s0.
  destruct (for_each_total (fun s => square n (App.b2b_table s)) (range 0 n)
    (fun i self0 => for_each (range (i + 1) n) (fun j self1 =>
       t <- get_item2 (App.b2b_table self1) i j ;;
       b2b <- set_item2 (App.b2b_table self1) i j (fsub t dt) ;;
       Ok (App.with_b2b self1 b2b)) self0)) with s0 as (s' & Hs' & _);
    [| exact H0 | eauto].
  intros i s Hi Hs. apply in_range in Hi.
  apply for_each_total; [| exact Hs].
  intros j s1 Hj Hs1. apply in_range in Hj.
  destruct Hs1 as [Hlen Hrows].
  destruct (lookup_lt_is_Some_2 (App.b2b_table s1) i) as [row Hrow]; [lia |].
  assert (Hrl : length row = n) by (eapply Forall_lookup_1 in Hrows; eauto).
  destruct (lookup_lt_is_Some_2 row j) as [v Hv]; [lia |].
  unfold get_item2, get_item. rewrite Hrow. cbn [bind]. rewrite Hv. cbn [bind].
  assert (Hjl : (j < length row)%nat) by lia.
  rewrite (proj2 (set_item2_ok (App.b2b_table s1) _ i j (fsub v dt))
             (ex_intro _ row (conj Hrow (conj Hjl eq_refl)))).
  cbn [bind]. eexists. split; [reflexivity |].
  cbn. apply square_insert; [split; assumption | assumption].
Qed.

(* ================================================================== *)
(** * A stalled engine *)
(* ================================================================== *)

Lemma argmin_scan_all_pinf (xs : list float64) (best_i : nat) (best : float64) (i : nat) :
  Forall (eq PInf) xs -> argmin_scan best_i best i xs = best_i.
Proof.
  intros H. revert i. induction H as [| x xs <- _ IH]; intros i; cbn.
  - reflexivity.
  - rewrite argmin_takes_pinf. apply IH.
Qed.

Lemma Forall_pinf_full (n : nat) : Forall (eq PInf) (np_full n PInf).
Proof. unfold np_full. apply Forall_replicate. reflexivity. Qed.

Lemma Forall_pinf_concat_full (n m : nat) :
  Forall (eq PInf) (concat (np_full2 n m PInf)).
Proof.
  unfold np_full2. induction n as [| n IH]; cbn.
  - constructor.
  - apply Forall_app. split; [apply Forall_pinf_full | exact IH].
Qed.

Lemma square_full (n : nat) (v : float64) : square n (np_full2 n n v).
Proof.
  unfold square, np_full2, np_full. split.
  - apply length_replicate.
  - apply Forall_replicate. apply length_replicate.
Qed.

(** On a stalled engine [next_collision] selects the cell [(0, 0)] of the
    pairwise table, with time [+inf]. *)
Lemma next_collision_stalled (self : App.App) :
  stalled self -> App.next_collision self = Ok ([0%nat; 0%nat], PInf).
Proof.
  intros (n & _ & _ & Hw & Hb). unfold App.next_collision.
  rewrite Hw, Hb.
  assert (E1 : np_argmin (np_full (S n) PInf) = Ok 0%nat).
  { cbn. f_equal. apply argmin_scan_all_pinf. apply (Forall_pinf_full n). }
  assert (E2 : np_argmin (concat (np_full2 (S n) (S n) PInf)) = Ok 0%nat).
  { pose proof (Forall_pinf_concat_full (S n) (S n)) as Hall.
    cbn in Hall |- *. inversion Hall; subst.
    f_equal. apply argmin_scan_all_pinf. assumption. }
  rewrite E1, E2. cbn [bind].
  unfold unravel_index. cbn [ncols np_full2 np_full replicate length].
  rewrite length_replicate.
  replace (0 / S n)%nat with 0%nat by (symmetry; apply Nat.Div0.div_0_l).
  replace (0 mod S n)%nat with 0%nat by (symmetry; apply Nat.Div0.mod_0_l).
  reflexivity.
Qed.

(** A ball moved for an infinite time and collided with itself gets the
    velocity [(nan, nan)]. *)
Lemma self_collision_nan (b : Ball.Ball) :
  let p := Ball.update_position b PInf in
  Ball.velocity_after_ball_collision p p = ((NaN, NaN), (NaN, NaN)).
Proof.
  intros p. unfold Ball.velocity_after_ball_collision.
  assert (Hdx : vsub (Ball.position p) (Ball.position p) = (NaN, NaN)).
  { unfold p, Ball.update_position, vsub, vadd, vscale. cbn [Ball.position fst snd].
    rewrite !fsub_self_not_finite;
      [reflexivity | | ]; apply fadd_not_finite_r, fmul_pinf_not_finite. }
  rewrite Hdx. unfold vsub, vadd, vscale, dot, fsub. cbn [fst snd].
  rewrite ?fmul_nan_l, ?fadd_nan_l, ?fadd_nan_r, ?fmul_nan_r, ?fdiv_nan_r.
  rewrite ?fmul_nan_r. cbn [fneg]. rewrite ?fadd_nan_r. reflexivity.
Qed.

(** The frame of a stalled engine ends in numpy's LinAlgError, raised by
    [np.roots] while the collision of ball 0 with itself is repaired. *)
Lemma collide_stalled (self : App.App) :
  stalled self -> App.collide self ([0%nat; 0%nat], PInf) = Raise LinAlgError.
Proof.
  intros (n & Hn & Hlen & Hw & Hb).
  destruct (update_table_total self PInf) as [s1 Hs1].
  { rewrite Hb. unfold np_full2 at 1. rewrite length_replicate. apply square_full. }
  destruct (update_table_frame _ _ _ Hs1) as (Hballs & _).
  destruct (App.balls self) as [| b0 bs] eqn:E; [discriminate |].
  unfold App.collide, App.advance. cbn [fst snd]. rewrite Hs1. cbn [bind].
  unfold App.collide_balls, App.modify_ball, set_item.
  cbn [App.balls App.with_balls]. rewrite Hballs.
  cbn [map get_item lookup list_lookup bind length].
  rewrite decide_True by lia.
  cbn [bind App.balls App.with_balls insert list_insert get_item lookup
       list_lookup length].
  rewrite decide_True by lia.
  cbn [bind App.balls App.with_balls insert list_insert].
  unfold App.recalculate_collision.
  cbn [for_each App.balls App.with_balls get_item lookup list_lookup bind].
  rewrite next_wall_collision_nan; [reflexivity |].
  rewrite self_collision_nan. reflexivity.
Qed.

(* ================================================================== *)
(** * Properties of the scheduler *)
(* ================================================================== *)

(** C1, as the code has it.  The event loop has no finiteness test and no
    stall error.  On a stalled engine (at least one ball, every table
    entry [+inf]) [next_collision] returns the two-ball event
    [[[0, 0], +inf]]; [collide] is entered with it and first advances the
    tables by [+inf], which turns every wall-table entry into [nan]; the
    frame then ends in numpy's LinAlgError, raised by [np.roots] on [nan]
    coefficients inside [recalculate_collision]. *)
Theorem C1_stall_is_not_detected (self : App.App) (num_frames : nat) :
  stalled self ->
  App.next_collision self = Ok ([0%nat; 0%nat], PInf) /\
  (exists self1, App.advance self PInf = Ok self1 /\
                 App.b2w_table self1 = np_full (App.num_balls self) NaN /\
                 App.balls self1
                 = map (fun b => Ball.update_position b PInf) (App.balls self)) /\
  App.render (S num_frames) self = Raise LinAlgError.
Proof.
  intros Hst. pose proof (next_collision_stalled self Hst) as Hnext.
  pose proof (collide_stalled self Hst) as Hcol.
  split; [exact Hnext | split].
  - destruct Hst as (n & Hn & Hlen & Hw & Hb).
    destruct (update_table_total self PInf) as [s1 Hs1].
    { rewrite Hb. unfold np_full2 at 1. rewrite length_replicate. apply square_full. }
    destruct (update_table_frame _ _ _ Hs1) as (Hb1 & _ & _ & Hw1).
    unfold App.advance. rewrite Hs1. cbn [bind]. eexists. split; [reflexivity |].
    cbn [App.b2w_table App.balls App.with_balls]. rewrite Hb1. split; [| reflexivity].
    rewrite Hw1, Hw, Hn.
    unfold np_full. clear. induction (S n) as [| k IH]; [reflexivity |].
    cbn. f_equal. exact IH.
  - cbn [App.render]. rewrite Hnext. cbn [bind]. rewrite Hcol. reflexivity.
Qed.

Lemma stalled_app_stalled : stalled stalled_app.
Proof. exists 0%nat. repeat split. Qed.

Lemma C1_witness :
  App.next_collision stalled_app = Ok ([0%nat; 0%nat], PInf) /\
  (exists self1, App.advance stalled_app PInf = Ok self1 /\
                 App.b2w_table self1 = [NaN] /\
                 App.balls self1
                 = [Ball.update_position (unit_ball 0 0 0 0) PInf]) /\
  App.render 1 stalled_app = Raise LinAlgError.
Proof.
  exact (C1_stall_is_not_detected stalled_app 0 stalled_app_stalled).
Defined.

(** C1, as stated, fails.  One ball at rest in a container of radius 10:
    initialisation succeeds with both tables at [+inf]; [next_collision]
    yields the time [+inf]; the run of one frame does not report a stall
    but continues into [collide] and ends in LinAlgError, which is not an
    error raised by the engine. *)
Lemma C1_counterexample :
  App.init (Fin 10) stalled_balls = Ok stalled_app /\
  App.next_collision stalled_app = Ok ([0%nat; 0%nat], PInf) /\
  App.run (Fin 10) 1 stalled_balls = Raise LinAlgError /\
  (forall msg, App.run (Fin 10) 1 stalled_balls <> Raise (Exception msg)).
Proof.
  split; [exact stalled_init | split; [exact stalled_next | split]].
  - exact stalled_run.
  - intros msg. rewrite stalled_run. discriminate.
Qed.

Lemma flt_irrefl (t : float64) : flt t t = false.
Proof. destruct t; cbn; try reflexivity. apply Rltb_false. lra. Qed.

(** The order on [float64] values other than [nan]. *)
Lemma flt_below (x b v : float64) :
  flt x b = true -> flt x v = false -> flt b v = false.
Proof.
  destruct x, b, v; cbn; unfold Rltb; intros H1 H2;
    repeat match goal with
    | H : context [Rlt_dec ?p ?q] |- _ => destruct (Rlt_dec p q)
    | |- context [Rlt_dec ?p ?q] => destruct (Rlt_dec p q)
    end; try discriminate; try reflexivity; lra.
Qed.

Lemma flt_above (x b v : float64) :
  b <> NaN -> flt x b = false -> flt b v = false -> flt x v = false.
Proof.
  destruct x, b, v; cbn; unfold Rltb; intros Hb H1 H2;
    repeat match goal with
    | H : context [Rlt_dec ?p ?q] |- _ => destruct (Rlt_dec p q)
    | |- context [Rlt_dec ?p ?q] => destruct (Rlt_dec p q)
    end; try discriminate; try reflexivity; try congruence; lra.
Qed.

Lemma flt_antisym (x y : float64) :
  x <> NaN -> y <> NaN -> flt x y = false -> flt y x = false -> x = y.
Proof.
  destruct x, y; cbn; unfold Rltb; intros Hx Hy H1 H2;
    repeat match goal with
    | H : context [Rlt_dec ?p ?q] |- _ => destruct (Rlt_dec p q)
    end; try discriminate; try congruence.
  f_equal. lra.
Qed.

Lemma argmin_takes_lt (x best : float64) :
  x <> NaN -> best <> NaN -> argmin_takes x best = flt x best.
Proof. destruct x, best; cbn; intros; congruence. Qed.

(** Without [nan], the scan ends on a smallest value. *)
Lemma argmin_scan_min (xs : list float64) :
  forall (best_i : nat) (best : float64) (i : nat),
    (best_i < i)%nat -> best <> NaN -> Forall (fun x => x <> NaN) xs ->
    let r := argmin_scan best_i best i xs in
    exists v,
      ((r = best_i /\ v = best) \/ ((i <= r)%nat /\ xs !! (r - i)%nat = Some v)) /\
      v <> NaN /\ flt best v = false /\ Forall (fun x => flt x v = false) xs.
Proof.
  induction xs as [| x xs IH]; intros best_i best i Hlt Hbest Hall; cbn.
  - exists best. repeat split; auto using flt_irrefl.
  - inversion Hall as [| ? ? Hx Hxs]; subst.
    rewrite argmin_takes_lt by assumption.
    destruct (flt x best) eqn:Hcmp.
    + destruct (IH i x (S i) (Nat.lt_succ_diag_r i) Hx Hxs)
        as (v & Hsel & Hv & Hxv & Hrest).
      exists v. split; [| split; [assumption | split]].
      * right. destruct Hsel as [[-> ->] | [Hle Hlook]].
        -- split; [lia |]. rewrite Nat.sub_diag. reflexivity.
        -- split; [lia |].
           replace (argmin_scan i x (S i) xs - i)%nat
             with (S (argmin_scan i x (S i) xs - S i)) by lia.
           exact Hlook.
      * apply (flt_below x best v); assumption.
      * constructor; assumption.
    + destruct (IH best_i best (S i) (Nat.lt_lt_succ_r _ _ Hlt) Hbest Hxs)
        as (v & Hsel & Hv & Hbv & Hrest).
      exists v. split; [| split; [assumption | split; [assumption |]]].
      * destruct Hsel as [[-> ->] | [Hle Hlook]]; [left; auto | right].
        split; [lia |].
        replace (argmin_scan best_i best (S i) xs - i)%nat
          with (S (argmin_scan best_i best (S i) xs - S i)) by lia.
        exact Hlook.
      * constructor; [| assumption]. apply (flt_above x best v); assumption.
Qed.

(** [np.argmin] of an array without [nan] returns the index of its
    minimum entry. *)
Lemma np_argmin_minimum (xs : list float64) (t : float64) :
  is_minimum t xs -> exists k, np_argmin xs = Ok k /\ xs !! k = Some t.
Proof.
  intros [Hin Hmin]. destruct xs as [| x xs]; [destruct Hin |].
  cbn [np_argmin]. eexists. split; [reflexivity |].
  assert (Hnan : Forall (fun y => y <> NaN) (x :: xs)).
  { eapply Forall_impl; [exact Hmin |]. intros y [Hy _]. exact Hy. }
  inversion Hnan as [| ? ? Hx Hxs]; subst.
  destruct (argmin_scan_min xs 0 x 1 Nat.lt_0_1 Hx Hxs)
    as (v & Hsel & Hv & Hxv & Hrest).
  assert (Hlook : (x :: xs) !! argmin_scan 0 x 1 xs = Some v).
  { destruct Hsel as [[-> ->] | [Hle Hlook]]; [reflexivity |].
    destruct (argmin_scan 0 x 1 xs) as [| r]; [lia |].
    cbn. replace (S r - 1)%nat with r in Hlook by lia. exact Hlook. }
  rewrite Hlook. f_equal.
  assert (Htv : flt t v = false).
  { rewrite Forall_forall in Hrest.
    destruct Hin as [<- | Hin]; [exact Hxv | apply Hrest, list_elem_of_In; exact Hin]. }
  assert (Hvt : flt v t = false).
  { rewrite Forall_forall in Hmin.
    apply (Hmin v). eapply list_elem_of_lookup_2. exact Hlook. }
  assert (Ht : t <> NaN).
  { rewrite Forall_forall in Hmin. apply (Hmin t), list_elem_of_In; exact Hin. }
  apply flt_antisym; assumption.
Qed.

(** C2, as the code has it.  Let [tw] be the minimum entry of the wall
    table and [tb] the minimum entry of the pairwise table.  When they
    are equal, [next_collision] returns the ball event: the two indices
    of a pairwise cell holding that time, with that time.  More
    generally it returns the wall event, one index of a wall entry
    holding [tw], exactly when [tw < tb], and the ball event otherwise;
    so a wall event is returned only when its time is strictly
    smaller. *)
Theorem C2_tie_resolves_to_ball_event
  (self : App.App) (n : nat) (tw tb : float64) :
  square n (App.b2b_table self) ->
  is_minimum tw (App.b2w_table self) ->
  is_minimum tb (concat (App.b2b_table self)) ->
  (tw = tb ->
   exists i j,
     App.next_collision self = Ok ([i; j], tb) /\
     get_item2 (App.b2b_table self) i j = Ok tb) /\
  (flt tw tb = true ->
   exists w,
     App.next_collision self = Ok ([w], tw) /\
     get_item (App.b2w_table self) w = Ok tw) /\
  (flt tw tb = false ->
   exists i j,
     App.next_collision self = Ok ([i; j], tb) /\
     get_item2 (App.b2b_table self) i j = Ok tb) /\
  (forall w t,
     App.next_collision self = Ok ([w], t) -> t = tw /\ flt tw tb = true).
Proof.
  intros [Hlen Hrows] Hw Hb.
  destruct (np_argmin_minimum _ _ Hw) as (w & Hargw & Hlookw).
  destruct (np_argmin_minimum _ _ Hb) as (k & Hargk & Hlookk).
  destruct (lookup_concat_square n _ k tb Hrows Hlookk) as (row & Hrow & Hcell).
  assert (Hcols : ncols (App.b2b_table self) = n).
  { destruct (App.b2b_table self) as [| r0 t'];
      [rewrite lookup_nil in Hrow; discriminate |].
    cbn. inversion Hrows; assumption. }
  assert (Hget : get_item2 (App.b2b_table self)
                   (fst (unravel_index k (App.b2b_table self)))
                   (snd (unravel_index k (App.b2b_table self))) = Ok tb).
  { unfold unravel_index, get_item2, get_item. rewrite Hcols. cbn [fst snd].
    rewrite Hrow. cbn [bind]. rewrite Hcell. reflexivity. }
  assert (Hgetw : get_item (App.b2w_table self) w = Ok tw)
    by (apply get_item_ok; exact Hlookw).
  assert (Hnext : App.next_collision self
                  = if flt tw tb then Ok ([w], tw)
                    else Ok ([fst (unravel_index k (App.b2b_table self));
                              snd (unravel_index k (App.b2b_table self))], tb)).
  { unfold App.next_collision.
    rewrite Hargw. cbn [bind]. rewrite Hgetw. cbn [bind].
    rewrite Hargk. cbn [bind]. rewrite Hget. cbn [bind]. reflexivity. }
  assert (Hball : flt tw tb = false ->
            exists i j,
              App.next_collision self = Ok ([i; j], tb) /\
              get_item2 (App.b2b_table self) i j = Ok tb).
  { intros E. rewrite E in Hnext. eexists _, _. split; [exact Hnext | exact Hget]. }
  split; [| split; [| split]].
  - intros ->. apply Hball. apply flt_irrefl.
  - intros E. rewrite E in Hnext. exists w. split; [exact Hnext | exact Hgetw].
  - exact Hball.
  - intros w' t H. rewrite Hnext in H.
    destruct (flt tw tb); [| discriminate].
    injection H as _ <-. split; reflexivity.
Qed.

Lemma C2_witness :
  exists i j,
    App.next_collision tie_app = Ok ([i; j], Fin 1) /\
    get_item2 (App.b2b_table tie_app) i j = Ok (Fin 1).
Proof.
  destruct (C2_tie_resolves_to_ball_event tie_app 2 (Fin 1) (Fin 1)) as [H _].
  - apply (square_insert 2 (np_full2 2 2 PInf) 0 1 [PInf; PInf] (Fin 1)).
    + apply square_full.
    + reflexivity.
  - split; [left; reflexivity |].
    repeat constructor; try discriminate; cbn; apply Rltb_false; lra.
  - split; [right; left; reflexivity |].
    repeat constructor; try discriminate; cbn; apply Rltb_false; lra.
  - apply H. reflexivity.
Defined.

(** C2, as stated, fails.  Two balls in a container of radius 10, the
    first reaching the wall at time 1 exactly when the second catches up
    with it: the smallest wall time and the smallest pair time are both 1,
    and [next_collision] returns the ball event [[0, 1]], not the wall
    event [[0]]. *)
Lemma C2_counterexample :
  App.init (Fin 10) tie_balls = Ok tie_app /\
  App.b2w_table tie_app = [Fin 1; Fin 2] /\
  App.b2b_table tie_app = [[PInf; Fin 1]; [PInf; PInf]] /\
  App.next_collision tie_app = Ok ([0%nat; 1%nat], Fin 1).
Proof.
  split; [exact tie_init | split; [reflexivity | split; [reflexivity |]]].
  exact tie_next.
Qed.




(* ================================================================== *)
(** * The pairwise table through the event loop *)
(* ================================================================== *)

Lemma modify_ball_tables (self self' : App.App) (i : nat)
  (f : Ball.Ball -> Ball.Ball) :
  App.modify_ball self i f = Ok self' ->
  App.b2b_table self' = App.b2b_table self /\
  App.container_radius self' = App.container_radius self /\
  exists b, App.balls self !! i = Some b /\
            App.balls self' = <[i := f b]> (App.balls self).
Proof.
  unfold App.modify_ball. intros H.
  apply bind_ok in H as (b & Hb & H).
  apply bind_ok in H as (bs & Hbs & [= <-]).
  apply get_item_ok in Hb. apply set_item_ok in Hbs as [_ ->].
  cbn. eauto.
Qed.

Lemma update_state_tables (self self' : App.App) (dt : float64) :
  App.update_state self dt = Ok self' ->
  App.b2b_table self' = App.b2b_table self /\
  App.balls self' = App.balls self.
Proof.
  unfold App.update_state. intros H.
  apply bind_ok in H as (mean & _ & [= <-]). cbn. auto.
Qed.

Lemma collide_wall_upper (self self' : App.App) (b2w : nat) :
  upper_triangular (App.b2b_table self) ->
  App.collide_wall self b2w = Ok self' ->
  upper_triangular (App.b2b_table self').
Proof.
  unfold App.collide_wall. intros Hinv H.
  apply bind_ok in H as (ball & _ & H).
  apply bind_ok in H as (s1 & H1 & H).
  apply bind_ok in H as (s2 & H2 & H).
  apply bind_ok in H as (s3 & H3 & [= <-]).
  apply modify_ball_tables in H1 as (E1 & _), H3 as (E3 & _).
  cbn. rewrite E3.
  eapply recalculate_collision_upper; [| exact H2]. cbn. rewrite E1. exact Hinv.
Qed.

Lemma collide_balls_upper (self self' : App.App) (b_i b_j : nat) :
  upper_triangular (App.b2b_table self) ->
  App.collide_balls self b_i b_j = Ok self' ->
  upper_triangular (App.b2b_table self').
Proof.
  unfold App.collide_balls. intros Hinv H.
  apply bind_ok in H as (b1 & _ & H).
  apply bind_ok in H as (b2 & _ & H).
  apply bind_ok in H as (s1 & H1 & H).
  apply bind_ok in H as (s2 & H2 & H).
  apply bind_ok in H as (s3 & H3 & H).
  apply bind_ok in H as (s4 & H4 & H).
  apply bind_ok in H as (s5 & H5 & [= <-]).
  apply modify_ball_tables in H1 as (E1 & _), H2 as (E2 & _),
    H4 as (E4 & _), H5 as (E5 & _).
  cbn. rewrite E5, E4.
  eapply recalculate_collision_upper; [| exact H3]. rewrite E2, E1. exact Hinv.
Qed.

Lemma collide_upper (self self' : App.App) (c : App.collision) :
  upper_triangular (App.b2b_table self) ->
  App.collide self c = Ok self' ->
  upper_triangular (App.b2b_table self').
Proof.
  unfold App.collide, App.advance. intros Hinv H.
  apply bind_ok in H as (s2 & H2 & H).
  apply bind_ok in H2 as (s1 & H1 & [= <-]).
  apply bind_ok in H as (s3 & H3 & H).
  apply update_state_tables in H as [-> _].
  assert (Hs2 : upper_triangular (App.b2b_table
            (App.with_balls s1 (map (fun b => Ball.update_position b (snd c))
                                    (App.balls s1))))).
  { cbn. eapply update_table_upper; eassumption. }
  destruct (fst c) as [| i [| j [| ? ?]]]; try discriminate.
  - eapply collide_wall_upper; eassumption.
  - eapply collide_balls_upper; eassumption.
Qed.

Lemma render_upper (num_frames : nat) :
  forall self self',
    upper_triangular (App.b2b_table self) ->
    App.render num_frames self = Ok self' ->
    upper_triangular (App.b2b_table self').
Proof.
  induction num_frames as [| n IH]; intros self self' Hinv H; cbn in H.
  - injection H as <-. exact Hinv.
  - apply bind_ok in H as (next & _ & H).
    apply bind_ok in H as (s1 & H1 & H).
    eapply IH; [| exact H]. eapply collide_upper; eassumption.
Qed.

Lemma init_upper (container_radius : float64) (balls : list Ball.Ball)
  (self : App.App) :
  App.init container_radius balls = Ok self ->
  upper_triangular (App.b2b_table self).
Proof.
  unfold App.init. intros H.
  apply bind_ok in H as (s1 & H1 & H).
  apply update_state_tables in H as [-> _].
  eapply init_table_upper; [| exact H1]. cbn. apply upper_triangular_full.
Qed.

(** A cell selected by the argmin of a square upper-triangular table that
    is not entirely [+inf] lies strictly above the diagonal. *)
Lemma argmin_above_diagonal (n : nat) (t : list (list float64)) (k : nat) :
  upper_triangular t -> square n t ->
  np_argmin (concat t) = Ok k ->
  ~ Forall (eq PInf) (concat t) ->
  (fst (unravel_index k t) < snd (unravel_index k t))%nat.
Proof.
  intros Hup [Hlen Hrows] Hk Hnot.
  apply np_argmin_spec in Hk as (v & Hv & Hall).
  assert (Hne : v <> PInf) by (intros ->; auto).
  destruct (lookup_concat_square n t k v Hrows Hv) as (row & Hrow & Hcell).
  assert (Hcols : ncols t = n).
  { destruct t as [| r0 t']; [rewrite lookup_nil in Hrow; discriminate |].
    cbn. inversion Hrows; assumption. }
  unfold unravel_index. rewrite Hcols. cbn [fst snd].
  destruct (le_lt_dec (k mod n) (k / n)) as [Hle | Hlt]; [| exact Hlt].
  exfalso. apply Hne. eapply Hup; eassumption.
Qed.

(** C10. The pairwise table stays logically upper-triangular: every cell
    [b2b_table[i][j]] with [i >= j] holds [+inf] after construction and
    after every [init_table], [update_table] and [recalculate_collision]
    call, hence after initialisation and after any number of frames of the
    event loop; consequently the whole-matrix argmin of [next_collision]
    selects a cell with [i < j] unless every entry is [+inf]. *)
Theorem C10_pairwise_table_upper_triangular :
  (forall n, upper_triangular (np_full2 n n PInf)) /\
  (forall self self',
      upper_triangular (App.b2b_table self) ->
      App.init_table self = Ok self' ->
      upper_triangular (App.b2b_table self')) /\
  (forall self dt self',
      upper_triangular (App.b2b_table self) ->
      App.update_table self dt = Ok self' ->
      upper_triangular (App.b2b_table self')) /\
  (forall self ball_ids self',
      upper_triangular (App.b2b_table self) ->
      App.recalculate_collision self ball_ids = Ok self' ->
      upper_triangular (App.b2b_table self')) /\
  (forall container_radius num_frames balls self,
      App.run container_radius num_frames balls = Ok self ->
      upper_triangular (App.b2b_table self)) /\
  (forall self k,
      upper_triangular (App.b2b_table self) ->
      square (App.num_balls self) (App.b2b_table self) ->
      np_argmin (concat (App.b2b_table self)) = Ok k ->
      ~ Forall (eq PInf) (concat (App.b2b_table self)) ->
      (fst (unravel_index k (App.b2b_table self))
       < snd (unravel_index k (App.b2b_table self)))%nat).
Proof.
  split; [| split; [| split; [| split; [| split]]]].
  - intros n. apply upper_triangular_full.
  - intros self self'. apply init_table_upper.
  - intros self dt self'. apply update_table_upper.
  - intros self ids self'. apply recalculate_collision_upper.
  - intros R num_frames balls self H. unfold App.run in H.
    apply bind_ok in H as (s0 & H0 & H).
    eapply render_upper; [| exact H]. eapply init_upper. exact H0.
  - intros self k Hup Hsq. eapply argmin_above_diagonal; eassumption.
Qed.

Lemma tie_app_upper : upper_triangular (App.b2b_table tie_app).
Proof.
  intros i j row v Hrow Hv Hle. cbn in Hrow.
  destruct i as [| [| i]]; cbn in Hrow; try discriminate;
    injection Hrow as <-;
    destruct j as [| [| j]]; cbn in Hv; try discriminate;
    try (injection Hv as <-; reflexivity); lia.
Qed.

Lemma tie_app_square : square 2 (App.b2b_table tie_app).
Proof. split; [reflexivity |]. repeat constructor. Qed.

(** Rebuilding or repairing the tables of [tie_app] recomputes the same
    times. *)
Lemma tie_init_table : App.init_table tie_app = Ok tie_app.
Proof.
  unfold App.init_table, tie_app, tie_balls, unit_ball, Ball.finite.
  eval_with tie_facts. reflexivity.
Qed.

Lemma tie_recalculate :
  App.recalculate_collision tie_app [0%nat; 1%nat] = Ok tie_app.
Proof.
  unfold App.recalculate_collision, tie_app, tie_balls, unit_ball, Ball.finite.
  eval_with tie_facts. reflexivity.
Qed.

Lemma C10_witness :
  upper_triangular (App.b2b_table tie_app) /\
  (exists self', App.update_table tie_app (Fin 1) = Ok self' /\
                 upper_triangular (App.b2b_table self')) /\
  upper_triangular (App.b2b_table escape_app1) /\
  (fst (unravel_index 1 (App.b2b_table tie_app))
   < snd (unravel_index 1 (App.b2b_table tie_app)))%nat.
Proof.
  destruct C10_pairwise_table_upper_triangular
    as (_ & Hinit & Hupdate & Hrecalc & Hrun & Hargmin).
  split; [| split; [| split]].
  - apply (Hrecalc tie_app [0%nat; 1%nat] tie_app); [| exact tie_recalculate].
    apply (Hinit tie_app tie_app); [exact tie_app_upper | exact tie_init_table].
  - destruct (update_table_total tie_app (Fin 1)) as [self' Hs].
    { exact tie_app_square. }
    exists self'. split; [exact Hs |].
    apply (Hupdate tie_app (Fin 1) self' tie_app_upper Hs).
  - apply (Hrun (Fin 10) 1%nat escape_balls). exact escape_run.
  - apply (Hargmin tie_app 1%nat tie_app_upper tie_app_square).
    + reflexivity.
    + cbn. intros H. inversion H as [| ? ? _ H']. inversion H' as [| ? ? E _].
      discriminate E.
Defined.

(* ================================================================== *)
(** * Containment *)
(* ================================================================== *)

Lemma same_place_refl (b : Ball.Ball) : same_place b b.
Proof. split; reflexivity. Qed.

Lemma places_kept_refl (bs : list Ball.Ball) : places_kept bs bs.
Proof. intros i b Hb. exists b. split; [assumption | apply same_place_refl]. Qed.

Lemma places_kept_trans (bs1 bs2 bs3 : list Ball.Ball) :
  places_kept bs1 bs2 -> places_kept bs2 bs3 -> places_kept bs1 bs3.
Proof.
  intros H12 H23 i b Hb.
  destruct (H12 i b Hb) as (b2 & Hb2 & [Hp2 Hr2]).
  destruct (H23 i b2 Hb2) as (b3 & Hb3 & [Hp3 Hr3]).
  exists b3. split; [assumption |]. split; congruence.
Qed.

Lemma places_kept_insert (bs : list Ball.Ball) (i : nat) (b b' : Ball.Ball) :
  bs !! i = Some b -> same_place b b' -> places_kept bs (<[i := b']> bs).
Proof.
  intros Hb Hsame j c Hc. destruct (decide (j = i)) as [-> | Hne].
  - exists b'. rewrite list_lookup_insert_eq by (eapply lookup_lt_Some; eassumption).
    split; [reflexivity | congruence].
  - exists c. rewrite list_lookup_insert_ne by congruence.
    split; [assumption | apply same_place_refl].
Qed.

Lemma modify_ball_places (self self' : App.App) (i : nat)
  (f : Ball.Ball -> Ball.Ball) :
  (forall b, same_place b (f b)) ->
  App.modify_ball self i f = Ok self' ->
  places_kept (App.balls self) (App.balls self') /\
  App.container_radius self' = App.container_radius self.
Proof.
  intros Hf H. apply modify_ball_tables in H as (_ & HR & b & Hb & ->).
  split; [| exact HR]. eapply places_kept_insert; [exact Hb | apply Hf].
Qed.

(** [collide] moves every ball by [velocity * dt] and changes no radius
    and not the container. *)
Lemma collide_places (self self' : App.App) (c : App.collision) :
  App.collide self c = Ok self' ->
  places_kept (map (fun b => Ball.update_position b (snd c)) (App.balls self))
              (App.balls self') /\
  App.container_radius self' = App.container_radius self.
Proof.
  unfold App.collide, App.advance. intros H.
  apply bind_ok in H as (s2 & H2 & H).
  apply bind_ok in H2 as (s1 & H1 & [= <-]).
  apply update_table_frame in H1 as (Hb1 & _ & HR1 & _).
  apply bind_ok in H as (s3 & H3 & H).
  assert (HR : App.container_radius self' = App.container_radius s3).
  { unfold App.update_state in H. apply bind_ok in H as (? & _ & [= <-]). reflexivity. }
  apply update_state_tables in H as [_ ->]. rewrite HR, <- HR1, <- Hb1. clear HR.
  set (s2 := App.with_balls s1 _) in *.
  change (map _ (App.balls s1)) with (App.balls s2).
  change (App.container_radius s1) with (App.container_radius s2).
  clearbody s2.
  destruct (fst c) as [| i [| j [| ? ?]]]; try discriminate.
  - unfold App.collide_wall in H3.
    apply bind_ok in H3 as (ball & _ & H3).
    apply bind_ok in H3 as (sa & Ha & H3).
    apply bind_ok in H3 as (sb & Hb & H3).
    apply bind_ok in H3 as (sc & Hc & [= <-]).
    apply modify_ball_places in Ha as [Pa Ra]; [| intros; split; reflexivity].
    apply recalculate_collision_frame in Hb as (Bb & _ & Rb).
    apply modify_ball_places in Hc as [Pc Rc]; [| intros; split; reflexivity].
    cbn in *. split; [| congruence].
    eapply places_kept_trans; [exact Pa |]. rewrite <- Bb. exact Pc.
  - unfold App.collide_balls in H3.
    apply bind_ok in H3 as (b1 & _ & H3).
    apply bind_ok in H3 as (b2 & _ & H3).
    apply bind_ok in H3 as (sa & Ha & H3).
    apply bind_ok in H3 as (sb & Hb & H3).
    apply bind_ok in H3 as (sc & Hc & H3).
    apply bind_ok in H3 as (sd & Hd & H3).
    apply bind_ok in H3 as (se & He & [= <-]).
    apply modify_ball_places in Ha as [Pa Ra]; [| intros; split; reflexivity].
    apply modify_ball_places in Hb as [Pb Rb]; [| intros; split; reflexivity].
    apply recalculate_collision_frame in Hc as (Bc & _ & Rc).
    apply modify_ball_places in Hd as [Pd Rd]; [| intros; split; reflexivity].
    apply modify_ball_places in He as [Pe Re]; [| intros; split; reflexivity].
    cbn in *. split; [| congruence].
    eapply places_kept_trans; [exact Pa |].
    eapply places_kept_trans; [exact Pb |]. rewrite <- Bc.
    eapply places_kept_trans; [exact Pd | exact Pe].
Qed.

(** Containment of a ball with finite coordinates, in the reals. *)
Lemma contained_fin (x y r R : R) (v : vec) (m d : float64) (n w : nat) :
  contained (Ball.mkBall (Fin x, Fin y) v m (Fin r) d n w) (Fin R) = true <->
  sqrt (x * x + y * y) + r <= R.
Proof.
  unfold contained, norm, dot. cbn [Ball.position Ball.radius fst snd fmul fadd fsqrt].
  rewrite (Rltb_false (x * x + y * y) 0) by nra.
  cbn [fadd fle]. unfold Rltb.
  destruct (Rlt_dec R (sqrt (x * x + y * y) + r)); cbn; split; intros H;
    try discriminate; try reflexivity; lra.
Qed.

(** A convex quadratic that is non-positive at 0 and vanishes at [tw]
    is non-positive on [[0, tw]]. *)
Lemma convex_below (a b c dt tw : R) :
  0 <= a -> c <= 0 -> a * tw * tw + b * tw + c = 0 -> 0 < tw ->
  0 <= dt <= tw ->
  a * dt * dt + b * dt + c <= 0.
Proof.
  intros Ha Hc Hroot Htw [Hdt Hle].
  assert (H : tw * (a * dt * dt + b * dt + c)
              = a * dt * tw * (dt - tw) + c * (tw - dt)).
  { assert (Hb : b * tw = - (a * tw * tw) - c) by lra.
    transitivity (a * dt * dt * tw + dt * (b * tw) + c * tw); [ring |].
    rewrite Hb. ring. }
  assert (H1 : a * dt * tw * (dt - tw) <= 0).
  { assert (0 <= a * dt * tw) by (repeat apply Rmult_le_pos; lra).
    nra. }
  assert (H2 : c * (tw - dt) <= 0) by nra.
  assert (H3 : tw * (a * dt * dt + b * dt + c) <= 0) by lra.
  destruct (Rle_dec (a * dt * dt + b * dt + c) 0) as [? | Hn]; [assumption |].
  apply Rnot_le_lt in Hn. exfalso.
  assert (0 < tw * (a * dt * dt + b * dt + c)) by (apply Rmult_lt_0_compat; assumption).
  lra.
Qed.

(** A contained ball moved for no longer than its predicted wall time is
    still contained. *)
Lemma move_stays_inside (x y ux uy r R dt tw : R) (m d : float64) (n w : nat) :
  let b := Ball.mkBall (Fin x, Fin y) (Fin ux, Fin uy) m (Fin r) d n w in
  contained b (Fin R) = true ->
  Ball.next_wall_collision b (Fin R) = Ok (Fin tw) ->
  0 <= dt <= tw ->
  contained (Ball.update_position b (Fin dt)) (Fin R) = true.
Proof.
  intros b Hin Hwall Hdt. unfold b in *.
  apply contained_fin in Hin.
  rewrite next_wall_coefficients in Hwall.
  apply predict_sound in Hwall as [Hroot Hfloor].
  pose proof time_floor_pos as Hf.
  unfold Ball.update_position, vadd, vscale.
  cbn [Ball.position Ball.velocity Ball.radius fst snd fmul fadd].
  apply contained_fin.
  set (s := x * x + y * y) in *.
  assert (Hs0 : 0 <= s) by (unfold s; nra).
  assert (Hsq : sqrt s * sqrt s = s) by (apply sqrt_sqrt; assumption).
  assert (Hsp : 0 <= sqrt s) by apply sqrt_pos.
  assert (HRr : 0 <= R - r) by lra.
  assert (Hc : s + - ((R + - r) * (R + - r)) <= 0) by nra.
  pose proof (convex_below (ux * ux + uy * uy) (2 * (x * ux + y * uy))
                (s + - ((R + - r) * (R + - r))) dt tw
                ltac:(nra) Hc Hroot ltac:(lra) Hdt) as Hq.
  set (s' := (x + ux * dt) * (x + ux * dt) + (y + uy * dt) * (y + uy * dt)).
  assert (Hs' : s' <= (R - r) * (R - r)) by (unfold s', s in *; nra).
  assert (Hle : sqrt s' <= sqrt ((R - r) * (R - r))) by (apply sqrt_le_1_alt; assumption).
  rewrite sqrt_square in Hle by assumption. lra.
Qed.

(** A contained ball at rest is still contained after any finite time. *)
Lemma rest_stays_inside (x y r R dt : R) (m d : float64) (n w : nat) :
  let b := Ball.mkBall (Fin x, Fin y) (Fin 0, Fin 0) m (Fin r) d n w in
  contained b (Fin R) = true ->
  contained (Ball.update_position b (Fin dt)) (Fin R) = true.
Proof.
  intros b Hin. unfold b in *. apply contained_fin in Hin.
  unfold Ball.update_position, vadd, vscale.
  cbn [Ball.position Ball.velocity Ball.radius fst snd fmul fadd].
  apply contained_fin.
  replace ((x + 0 * dt) * (x + 0 * dt) + (y + 0 * dt) * (y + 0 * dt))
    with (x * x + y * y) by ring.
  assumption.
Qed.

Lemma escape_wall1 :
  Ball.next_wall_collision
    (Ball.mkBall (Fin 0, Fin 0) (Fin 0, Fin 9) (Fin 1) (Fin 1) (Fin 0) 0 0)
    (Fin 10) = Ok (Fin 1).
Proof.
  rewrite next_wall_coefficients, (predict_factored _ _ _ (- 1) 1) by lra.
  floor_cases. reflexivity.
Qed.

(* ================================================================== *)
(** * Initialisation returns *)
(* ================================================================== *)

Lemma predict_total (a b c : R) :
  exists t, Ball.predict_collision_time (Fin a) (Fin b) (Fin c) = Ok t.
Proof.
  destruct (np_roots_total a b c) as [roots E].
  rewrite (predict_of_roots _ _ _ _ E).
  destruct (Ball.time_roots roots); eexists; reflexivity.
Qed.

Lemma next_wall_collision_total (b : Ball.Ball) (R : R) :
  finite_ball b -> exists t, Ball.next_wall_collision b (Fin R) = Ok t.
Proof.
  intros (x & y & ux & uy & r & Hp & Hv & Hr).
  unfold Ball.next_wall_collision. rewrite Hp, Hv, Hr.
  unfold dot, fsub, fsquare. cbn [fst snd fmul fadd fneg]. apply predict_total.
Qed.

Lemma next_ball_collision_total (b1 b2 : Ball.Ball) :
  finite_ball b1 -> finite_ball b2 ->
  exists t, Ball.next_ball_collision b1 b2 = Ok t.
Proof.
  intros (x1 & y1 & u1 & v1 & r1 & Hp1 & Hv1 & Hr1)
         (x2 & y2 & u2 & v2 & r2 & Hp2 & Hv2 & Hr2).
  unfold Ball.next_ball_collision. rewrite Hp1, Hv1, Hr1, Hp2, Hv2, Hr2.
  unfold dot, vsub, fsub, fsquare. cbn [fst snd fmul fadd fneg].
  apply predict_total.
Qed.

(** On a well-shaped engine with finite balls and a finite container,
    [init_table] returns a well-shaped engine with the same balls. *)
Lemma init_table_total (self : App.App) (R : R) :
  well_shaped self -> Forall finite_ball (App.balls self) ->
  App.container_radius self = Fin R ->
  exists self',
    App.init_table self = Ok self' /\ well_shaped self' /\
    App.balls self' = App.balls self /\
    App.num_balls self' = App.num_balls self /\
    App.delta_p self' = App.delta_p self /\
    App.time self' = App.time self.
Proof.
  intros Hwf Hfin HR. unfold App.init_table.
  set (n := App.num_balls self).
  set (P := fun s : App.App =>
    well_shaped s /\ App.balls s = App.balls self /\ App.num_balls s = n /\
    App.container_radius s = Fin R /\ App.delta_p s = App.delta_p self /\
    App.time s = App.time self).
  assert (HP : P self) by (unfold P; auto 10).
  destruct (for_each_total P (range 0 n)
    (fun i self0 =>
       bi <- get_item (App.balls self0) i ;;
       collision_time <- Ball.next_wall_collision bi (App.container_radius self0) ;;
       b2w <- set_item (App.b2w_table self0) i collision_time ;;
       let self1 := App.with_b2w self0 b2w in
       for_each (range (i + 1) n) (fun j self2 =>
         bi <- get_item (App.balls self2) i ;;
         bj <- get_item (App.balls self2) j ;;
         collision_time <- Ball.next_ball_collision bi bj ;;
         b2b <- set_item2 (App.b2b_table self2) i j collision_time ;;
         Ok (App.with_b2b self2 b2b)) self1)) with self
    as (s' & Hrun & Hwf' & Hb' & Hn' & _ & Hd' & Ht'); [| exact HP |].
  2:{ exists s'. split; [exact Hrun |]. auto 10. }
  intros i s Hi (Hs & Hbs & Hns & HRs & Hds & Hts). apply in_range in Hi.
  destruct Hs as (Hlb & Hlw & Hsq).
  assert (Hib : exists bi, App.balls s !! i = Some bi /\ finite_ball bi).
  { destruct (lookup_lt_is_Some_2 (App.balls s) i) as [bi Hbi]; [lia |].
    exists bi. split; [exact Hbi |].
    rewrite Hbs in Hbi. eapply Forall_lookup_1 in Hfin; eauto. }
  destruct Hib as (bi & Hbi & Hfi).
  unfold get_item at 1. rewrite Hbi. cbn [bind]. rewrite HRs.
  destruct (next_wall_collision_total bi R Hfi) as [tw ->]. cbn [bind].
  unfold set_item. rewrite decide_True by lia. cbn [bind].
  apply for_each_total.
  2:{ unfold P, well_shaped. cbn. rewrite length_insert. auto 10. }
  intros j s1 Hj (Hs1 & Hbs1 & Hns1 & HRs1 & Hds1 & Hts1). apply in_range in Hj.
  destruct Hs1 as (Hlb1 & Hlw1 & [Hlen1 Hrows1]).
  rewrite Hbs1, <- Hbs. unfold get_item. rewrite Hbi. cbn [bind].
  destruct (lookup_lt_is_Some_2 (App.balls s) j) as [bj Hbj]; [lia |].
  rewrite Hbj. cbn [bind].
  assert (Hfj : finite_ball bj).
  { rewrite Hbs in Hbj. eapply Forall_lookup_1 in Hfin; eauto. }
  destruct (next_ball_collision_total bi bj Hfi Hfj) as [tb ->]. cbn [bind].
  destruct (lookup_lt_is_Some_2 (App.b2b_table s1) i) as [row Hrow]; [lia |].
  assert (Hrl : length row = App.num_balls s1)
    by (eapply Forall_lookup_1 in Hrows1; eauto).
  assert (Hjl : (j < length row)%nat) by lia.
  rewrite (proj2 (set_item2_ok (App.b2b_table s1) _ i j tb)
             (ex_intro _ row (conj Hrow (conj Hjl eq_refl)))).
  cbn [bind]. eexists. split; [reflexivity |].
  unfold P, well_shaped. cbn. repeat split; try assumption.
  - rewrite length_insert. assumption.
  - apply Forall_insert; [assumption |]. rewrite length_insert. assumption.
Qed.

Lemma update_state_total (self : App.App) (dt : float64) :
  App.balls self <> [] ->
  exists self',
    App.update_state self dt = Ok self' /\
    App.balls self' = App.balls self /\
    App.num_balls self' = App.num_balls self /\
    App.b2b_table self' = App.b2b_table self /\
    App.b2w_table self' = App.b2w_table self /\
    App.time self' = fadd (App.time self) dt /\
    App.pressure self' =
      (if flt (Fin 0) (fadd (App.time self) dt)
       then fdiv (App.delta_p self)
              (fmul (App.container_circumference self) (fadd (App.time self) dt))
       else Fin 0).
Proof.
  intros Hne. unfold App.update_state.
  destruct (App.balls self) as [| b bs] eqn:E; [contradiction |].
  cbn [bind]. eexists. split; [reflexivity |]. cbn. auto 10.
Qed.

(** [App.__init__], up to the event loop, returns on every non-empty list
    of finite balls and finite container radius; the engine it builds is
    well-shaped, its pairwise table upper-triangular, its clock at 0. *)
Lemma init_total (R : R) (balls : list Ball.Ball) :
  balls <> [] -> Forall finite_ball balls ->
  exists self,
    App.init (Fin R) balls = Ok self /\ well_shaped self /\
    upper_triangular (App.b2b_table self) /\
    App.balls self = balls /\ App.pressure self = Fin 0.
Proof.
  intros Hne Hfin. unfold App.init.
  set (s0 := App.mkApp _ _ _ _ _ _ _ _ _ _ _ _ _).
  destruct (init_table_total s0 R) as (s1 & Hrun & Hwf & Hb & Hn & Hd & Ht).
  - unfold well_shaped, s0. cbn. split; [reflexivity |]. split.
    + apply length_replicate.
    + apply square_full.
  - exact Hfin.
  - reflexivity.
  - rewrite Hrun. cbn [bind].
    assert (Hup : upper_triangular (App.b2b_table s1)).
    { eapply init_table_upper; [| exact Hrun]. apply upper_triangular_full. }
    destruct (update_state_total s1 (Fin 0))
      as (s2 & Hrun2 & Hb2 & Hn2 & Hbb2 & Hbw2 & Ht2 & Hp2).
    { rewrite Hb. exact Hne. }
    exists s2. split; [exact Hrun2 |].
    destruct Hwf as (Hw1 & Hw2 & Hw3).
    split; [| split; [| split]].
    + unfold well_shaped. rewrite Hb2, Hn2, Hbb2, Hbw2. auto.
    + rewrite Hbb2. exact Hup.
    + rewrite Hb2, Hb. reflexivity.
    + rewrite Hp2, Ht. cbn. rewrite (Rltb_false 0 (0 + 0)) by lra. reflexivity.
Qed.

(* ================================================================== *)
(** * The root finder returns the first admissible root *)
(* ================================================================== *)








(* ================================================================== *)
(** * Geometry of the predictions *)
(* ================================================================== *)

Lemma finite_ball_shape (b : Ball.Ball) :
  finite_ball b ->
  exists x y ux uy r,
    b = Ball.mkBall (Fin x, Fin y) (Fin ux, Fin uy) (Ball.mass b) (Fin r)
          (Ball.distance_travelled b) (Ball.ball_collisions b)
          (Ball.wall_collisions b).
Proof.
  intros (x & y & ux & uy & r & Hp & Hv & Hr).
  exists x, y, ux, uy, r. destruct b; cbn in *. subst. reflexivity.
Qed.

Lemma next_ball_collision_sym (b1 b2 : Ball.Ball) :
  finite_ball b1 -> finite_ball b2 ->
  Ball.next_ball_collision b1 b2 = Ball.next_ball_collision b2 b1.
Proof.
  intros H1 H2.
  destruct (finite_ball_shape b1 H1) as (x1 & y1 & u1 & v1 & r1 & ->).
  destruct (finite_ball_shape b2 H2) as (x2 & y2 & u2 & v2 & r2 & ->).
  rewrite !next_ball_coefficients. f_equal; f_equal; ring.
Qed.

(** X3. For two balls with finite position, velocity and radius,
    [next_ball_collision] does not depend on which ball is the receiver:
    [b1.next_ball_collision(b2) = b2.next_ball_collision(b1)]. *)
Theorem X3_next_ball_collision_symmetric (b1 b2 : Ball.Ball) :
  finite_ball b1 -> finite_ball b2 ->
  Ball.next_ball_collision b1 b2 = Ball.next_ball_collision b2 b1.
Proof. exact (next_ball_collision_sym b1 b2). Qed.

Lemma unit_ball_finite (x y ux uy : R) : finite_ball (unit_ball x y ux uy).
Proof. exists x, y, ux, uy, 1. repeat split. Qed.

Lemma X3_witness :
  Ball.next_ball_collision (unit_ball 8 0 1 0) (unit_ball 5 0 2 0)
  = Ball.next_ball_collision (unit_ball 5 0 2 0) (unit_ball 8 0 1 0).
Proof.
  apply X3_next_ball_collision_symmetric; apply unit_ball_finite.
Defined.

Lemma norm_fin (x y : R) : norm (Fin x, Fin y) = Fin (sqrt (x * x + y * y)).
Proof.
  unfold norm, dot. cbn [fst snd fmul fadd fsqrt].
  rewrite Rltb_false by nra. reflexivity.
Qed.

(** At the predicted wall time the centre is at distance
    [container_radius - radius] from the centre of the container. *)
Lemma wall_touch (x y ux uy r R t : R) (m d : float64) (n w : nat) :
  let b := Ball.mkBall (Fin x, Fin y) (Fin ux, Fin uy) m (Fin r) d n w in
  r <= R ->
  Ball.next_wall_collision b (Fin R) = Ok (Fin t) ->
  norm (Ball.position (Ball.update_position b (Fin t))) = Fin (R - r).
Proof.
  intros b Hr H. unfold b in *.
  rewrite next_wall_coefficients in H. apply predict_sound in H as [Hroot _].
  unfold Ball.update_position, vadd, vscale.
  cbn [Ball.position Ball.velocity fst snd fmul fadd].
  rewrite norm_fin. f_equal. apply sqrt_of_square; [lra | nra].
Qed.

(** At the predicted pair time the centres are [r1 + r2] apart. *)
Lemma pair_touch (x1 y1 u1 v1 r1 x2 y2 u2 v2 r2 t : R)
  (m1 d1 m2 d2 : float64) (n1 w1 n2 w2 : nat) :
  let b1 := Ball.mkBall (Fin x1, Fin y1) (Fin u1, Fin v1) m1 (Fin r1) d1 n1 w1 in
  let b2 := Ball.mkBall (Fin x2, Fin y2) (Fin u2, Fin v2) m2 (Fin r2) d2 n2 w2 in
  0 <= r1 + r2 ->
  Ball.next_ball_collision b1 b2 = Ok (Fin t) ->
  norm (vsub (Ball.position (Ball.update_position b1 (Fin t)))
             (Ball.position (Ball.update_position b2 (Fin t))))
  = Fin (r1 + r2).
Proof.
  intros b1 b2 Hr H. unfold b1, b2 in *.
  rewrite next_ball_coefficients in H. apply predict_sound in H as [Hroot _].
  unfold Ball.update_position, vadd, vsub, vscale, fsub.
  cbn [Ball.position Ball.velocity fst snd fmul fadd fneg].
  rewrite norm_fin. f_equal. apply sqrt_of_square; [lra | nra].
Qed.

(** X4. In exact arithmetic (no rounding, [np.roots] returning the exact
    roots), a finite time returned by [next_wall_collision] (with
    [radius <= container_radius]) moves the ball exactly onto the wall:
    after [update_position] by that time, [|position|] equals
    [container_radius - radius]; and a finite time returned by
    [next_ball_collision] (with [r1 + r2 >= 0]) brings the two centres
    exactly [r1 + r2] apart.  In floating point these equalities hold up
    to rounding only. *)
Theorem X4_predicted_time_is_contact :
  (forall (x y ux uy r Rc t : R) (m d : float64) (n w : nat),
      let b := Ball.mkBall (Fin x, Fin y) (Fin ux, Fin uy) m (Fin r) d n w in
      r <= Rc ->
      Ball.next_wall_collision b (Fin Rc) = Ok (Fin t) ->
      norm (Ball.position (Ball.update_position b (Fin t))) = Fin (Rc - r)) /\
  (forall (x1 y1 u1 v1 r1 x2 y2 u2 v2 r2 t : R)
          (m1 d1 m2 d2 : float64) (n1 w1 n2 w2 : nat),
      let b1 := Ball.mkBall (Fin x1, Fin y1) (Fin u1, Fin v1) m1 (Fin r1) d1 n1 w1 in
      let b2 := Ball.mkBall (Fin x2, Fin y2) (Fin u2, Fin v2) m2 (Fin r2) d2 n2 w2 in
      0 <= r1 + r2 ->
      Ball.next_ball_collision b1 b2 = Ok (Fin t) ->
      norm (vsub (Ball.position (Ball.update_position b1 (Fin t)))
                 (Ball.position (Ball.update_position b2 (Fin t))))
      = Fin (r1 + r2)).
Proof. split; [exact wall_touch | exact pair_touch]. Qed.

Lemma tie_pair :
  Ball.next_ball_collision
    (Ball.mkBall (Fin 8, Fin 0) (Fin 1, Fin 0) (Fin 1) (Fin 1) (Fin 0) 0 0)
    (Ball.mkBall (Fin 5, Fin 0) (Fin 2, Fin 0) (Fin 1) (Fin 1) (Fin 0) 0 0)
  = Ok (Fin 1).
Proof.
  rewrite next_ball_coefficients, (predict_factored _ _ _ 1 5) by lra.
  floor_cases. reflexivity.
Qed.

Lemma X4_witness :
  norm (Ball.position
          (Ball.update_position
             (Ball.mkBall (Fin 0, Fin 0) (Fin 0, Fin 9) (Fin 1) (Fin 1) (Fin 0) 0 0)
             (Fin 1)))
  = Fin (10 - 1) /\
  norm (vsub
          (Ball.position
             (Ball.update_position
                (Ball.mkBall (Fin 8, Fin 0) (Fin 1, Fin 0) (Fin 1) (Fin 1) (Fin 0) 0 0)
                (Fin 1)))
          (Ball.position
             (Ball.update_position
                (Ball.mkBall (Fin 5, Fin 0) (Fin 2, Fin 0) (Fin 1) (Fin 1) (Fin 0) 0 0)
                (Fin 1))))
  = Fin (1 + 1).
Proof.
  destruct X4_predicted_time_is_contact as [Hwall Hpair]. split.
  - apply (Hwall 0 0 0 9 1 10 1); [lra | exact escape_wall1].
  - apply (Hpair 8 0 1 0 1 5 0 2 0 1 1); [lra | exact tie_pair].
Defined.

(* ================================================================== *)
(** * Collision resolution: reflection, exchange, degenerate contacts *)
(* ================================================================== *)

Lemma update_velocity_finite (x y ux uy vx vy : R) (m r d : float64) (n w : nat) :
  Ball.update_velocity (Ball.finite x y ux uy m r d n w) (Fin vx, Fin vy)
  = Ball.finite x y vx vy m r d n w.
Proof. reflexivity. Qed.

(** X5. In exact arithmetic (no rounding), the wall rebound is a
    specular reflection about the radius through the ball: for a ball
    away from the centre, the radial component of the velocity is
    negated, the tangential component is kept, and reflecting the rebound
    velocity again gives back the incoming velocity.  In floating point
    these equalities hold up to rounding only. *)
Theorem X5_wall_rebound_is_reflection
  (x y ux uy : R) (m r d : float64) (n w : nat) :
  x <> 0 \/ y <> 0 ->
  let b := Ball.finite x y ux uy m r d n w in
  let v := Ball.velocity_after_wall_collision b in
  dot v (Ball.position b) = fneg (dot (Ball.velocity b) (Ball.position b)) /\
  dot v (Fin (- y), Fin x) = dot (Ball.velocity b) (Fin (- y), Fin x) /\
  Ball.velocity_after_wall_collision (Ball.update_velocity b v) = Ball.velocity b.
Proof.
  intros H b v.
  assert (Hd : x * x + y * y <> 0) by (apply sum_sqr_nonzero; assumption).
  unfold v, b. rewrite wall_rebound_fin by assumption.
  rewrite update_velocity_finite, wall_rebound_fin by assumption.
  unfold dot. cbn [Ball.position Ball.velocity Ball.finite fst snd fmul fadd fneg].
  split; [| split].
  - apply (f_equal Fin). field. assumption.
  - apply (f_equal Fin). field. assumption.
  - f_equal; apply (f_equal Fin); field; assumption.
Qed.

Lemma X5_witness :
  let b := Ball.finite 0 9 0 9 (Fin 1) (Fin 1) (Fin 9) 0 0 in
  let v := Ball.velocity_after_wall_collision b in
  dot v (Ball.position b) = fneg (dot (Ball.velocity b) (Ball.position b)) /\
  dot v (Fin (- 9), Fin 0) = dot (Ball.velocity b) (Fin (- 9), Fin 0) /\
  Ball.velocity_after_wall_collision (Ball.update_velocity b v) = Ball.velocity b.
Proof.
  apply (X5_wall_rebound_is_reflection 0 9 0 9). right. lra.
Defined.

(** X6. In exact arithmetic (no rounding), a ball-ball collision
    (distinct positions, positive masses) reverses the component of the
    relative velocity along the line of centres; for equal masses and a
    relative velocity along the line of centres (a head-on collision) the
    two balls exchange their velocities.  In floating point these
    equalities hold up to rounding only. *)
Theorem X6_ball_collision_reverses_normal_velocity
  (x1 y1 u1 v1 m1 x2 y2 u2 v2 m2 : R) (r1 r2 d1 d2 : float64)
  (n1 w1 n2 w2 : nat) :
  x1 <> x2 \/ y1 <> y2 -> 0 < m1 -> 0 < m2 ->
  let b1 := Ball.finite x1 y1 u1 v1 (Fin m1) r1 d1 n1 w1 in
  let b2 := Ball.finite x2 y2 u2 v2 (Fin m2) r2 d2 n2 w2 in
  let vs := Ball.velocity_after_ball_collision b1 b2 in
  let dx := vsub (Ball.position b1) (Ball.position b2) in
  dot (vsub (fst vs) (snd vs)) dx
  = fneg (dot (vsub (Ball.velocity b1) (Ball.velocity b2)) dx) /\
  (m1 = m2 ->
   (exists k, u1 - u2 = k * (x1 - x2) /\ v1 - v2 = k * (y1 - y2)) ->
   vs = (Ball.velocity b2, Ball.velocity b1)).
Proof.
  intros H Hm1 Hm2 b1 b2 vs dx.
  assert (Hm : m1 + m2 <> 0) by lra.
  assert (Hd : (x1 - x2) * (x1 - x2) + (y1 - y2) * (y1 - y2) <> 0).
  { apply sum_sqr_nonzero. destruct H; [left | right]; lra. }
  unfold vs, dx, b1, b2. rewrite ball_rebound_fin by assumption.
  unfold dot, vsub, fsub.
  cbn [Ball.position Ball.velocity Ball.finite fst snd fmul fadd fneg].
  split.
  - apply (f_equal Fin). field. split; assumption.
  - intros <- (k & Hk1 & Hk2).
    assert (E1 : u1 = u2 + k * (x1 - x2)) by lra.
    assert (E2 : v1 = v2 + k * (y1 - y2)) by lra.
    rewrite E1, E2.
    f_equal; f_equal; apply (f_equal Fin); field; split; lra.
Qed.

Lemma X6_witness :
  let b1 := Ball.finite 0 0 1 0 (Fin 1) (Fin 1) (Fin 0) 0 0 in
  let b2 := Ball.finite 2 0 (- 1) 0 (Fin 1) (Fin 1) (Fin 0) 0 0 in
  let vs := Ball.velocity_after_ball_collision b1 b2 in
  let dx := vsub (Ball.position b1) (Ball.position b2) in
  dot (vsub (fst vs) (snd vs)) dx
  = fneg (dot (vsub (Ball.velocity b1) (Ball.velocity b2)) dx) /\
  vs = ((Fin (- 1), Fin 0), (Fin 1, Fin 0)).
Proof.
  destruct (X6_ball_collision_reverses_normal_velocity
              0 0 1 0 1 2 0 (- 1) 0 1 (Fin 1) (Fin 1) (Fin 0) (Fin 0)
              0%nat 0%nat 0%nat 0%nat) as [Hrev Hswap]; [left; lra | lra | lra |].
  split; [exact Hrev |].
  apply Hswap; [reflexivity |]. exists (- 1). split; lra.
Defined.

(** X7. Degenerate contacts give [nan] and no exception: the wall rebound
    of a ball exactly at the centre of the container, and the collision of
    two balls with the same centre, return velocities whose components are
    all [nan] (the division [0 / 0]), whatever the velocities and the
    masses. *)
Theorem X7_degenerate_contact_gives_nan :
  (forall (ux uy : R) (m r d : float64) (n w : nat),
      Ball.velocity_after_wall_collision (Ball.finite 0 0 ux uy m r d n w)
      = (NaN, NaN)) /\
  (forall (x y u1 v1 u2 v2 : R) (m1 m2 r1 r2 d1 d2 : float64)
          (n1 w1 n2 w2 : nat),
      Ball.velocity_after_ball_collision
        (Ball.finite x y u1 v1 m1 r1 d1 n1 w1)
        (Ball.finite x y u2 v2 m2 r2 d2 n2 w2)
      = ((NaN, NaN), (NaN, NaN))).
Proof.
  split.
  - intros ux uy m r d n w.
    unfold Ball.velocity_after_wall_collision, Ball.finite, vsub, vscale, dot, fsub.
    cbn [Ball.position Ball.velocity fst snd fmul fadd fdiv].
    rewrite (Reqb_true (0 * 0 + 0 * 0) 0), (Reqb_true (2 * (ux * 0 + uy * 0)) 0) by lra.
    reflexivity.
  - intros x y u1 v1 u2 v2 m1 m2 r1 r2 d1 d2 n1 w1 n2 w2.
    unfold Ball.velocity_after_ball_collision, Ball.finite, vsub, vadd, vscale, dot, fsub.
    cbn [Ball.position Ball.velocity Ball.mass fst snd fneg].
    cbn [fadd fmul].
    set (den := (x + - x) * (x + - x) + (y + - y) * (y + - y)).
    set (num := 2 * ((x + - x) * (u1 + - u2) + (y + - y) * (v1 + - v2))).
    assert (Hden : den = 0) by (unfold den; ring).
    assert (Hnum : num = 0) by (unfold num; ring).
    assert (Hs : fdiv (Fin num) (fmul (fadd m1 m2) (Fin den)) = NaN).
    { rewrite Hden, Hnum. destruct (fadd m1 m2); cbn [fmul fdiv].
      - rewrite Rmult_0_r, !(Reqb_true 0 0) by reflexivity. reflexivity.
      - unfold inf_times. rewrite (Reqb_true 0 0) by reflexivity. reflexivity.
      - unfold inf_times. rewrite (Reqb_true 0 0) by reflexivity. reflexivity.
      - reflexivity. }
    rewrite Hs. rewrite !fmul_nan_r. reflexivity.
Qed.

(* ================================================================== *)
(** * Kinematics *)
(* ================================================================== *)

Lemma Rabs_sqr (x : R) : Rabs x * Rabs x = x * x.
Proof. unfold Rabs. destruct (Rcase_abs x); ring. Qed.

(** The length of the displacement [velocity * dt]. *)
Lemma displacement_length (ux uy dt : R) :
  sqrt (ux * dt * (ux * dt) + uy * dt * (uy * dt))
  = sqrt (ux * ux + uy * uy) * Rabs dt.
Proof.
  assert (Hs : 0 <= ux * ux + uy * uy) by nra.
  pose proof (sqrt_sqrt _ Hs) as Hss.
  pose proof (sqrt_pos (ux * ux + uy * uy)) as Hsp.
  pose proof (Rabs_pos dt) as Ha. pose proof (Rabs_sqr dt) as Haa.
  apply sqrt_of_square.
  - apply Rmult_le_pos; assumption.
  - replace (sqrt (ux * ux + uy * uy) * Rabs dt * (sqrt (ux * ux + uy * uy) * Rabs dt))
      with (sqrt (ux * ux + uy * uy) * sqrt (ux * ux + uy * uy) * (Rabs dt * Rabs dt))
      by ring.
    rewrite Hss, Haa. ring.
Qed.

Lemma update_position_fin (x y ux uy d dt : R) (m r : float64) (n w : nat) :
  Ball.update_position
    (Ball.mkBall (Fin x, Fin y) (Fin ux, Fin uy) m r (Fin d) n w) (Fin dt)
  = Ball.mkBall (Fin (x + ux * dt), Fin (y + uy * dt)) (Fin ux, Fin uy) m r
      (Fin (d + sqrt (ux * ux + uy * uy) * Rabs dt)) n w.
Proof.
  unfold Ball.update_position, vadd, vscale.
  cbn [Ball.position Ball.velocity Ball.mass Ball.radius Ball.distance_travelled
       Ball.ball_collisions Ball.wall_collisions fst snd fmul fadd].
  rewrite norm_fin, displacement_length. reflexivity.
Qed.

(** X8. In exact arithmetic (no rounding), for a ball with finite
    position, velocity and odometer, [update_position(dt)] moves the ball
    by [velocity * dt], adds the norm of that displacement, which is
    [|velocity| * |dt|], to [distance_travelled] (which therefore never
    decreases) and changes nothing else; two successive moves by
    non-negative times compose into one move by their sum.  In floating
    point the composition holds up to rounding only. *)
Theorem X8_update_position_composes
  (x y ux uy d : R) (m r : float64) (n w : nat) :
  let b := Ball.mkBall (Fin x, Fin y) (Fin ux, Fin uy) m r (Fin d) n w in
  (forall dt,
      Ball.update_position b (Fin dt)
      = Ball.mkBall (Fin (x + ux * dt), Fin (y + uy * dt)) (Fin ux, Fin uy) m r
          (Fin (d + sqrt (ux * ux + uy * uy) * Rabs dt)) n w /\
      d <= d + sqrt (ux * ux + uy * uy) * Rabs dt) /\
  (forall dt1 dt2,
      0 <= dt1 -> 0 <= dt2 ->
      Ball.update_position (Ball.update_position b (Fin dt1)) (Fin dt2)
      = Ball.update_position b (Fin (dt1 + dt2))).
Proof.
  intros b. unfold b. split.
  - intros dt. split; [apply update_position_fin |].
    pose proof (sqrt_pos (ux * ux + uy * uy)). pose proof (Rabs_pos dt). nra.
  - intros dt1 dt2 H1 H2. rewrite !update_position_fin.
    rewrite !Rabs_right by lra.
    f_equal; [f_equal; apply (f_equal Fin); ring | apply (f_equal Fin); ring].
Qed.

Lemma X8_witness :
  Ball.update_position
    (Ball.update_position
       (Ball.mkBall (Fin 0, Fin 0) (Fin 3, Fin 4) (Fin 1) (Fin 1) (Fin 0) 0 0)
       (Fin 1)) (Fin 2)
  = Ball.update_position
      (Ball.mkBall (Fin 0, Fin 0) (Fin 3, Fin 4) (Fin 1) (Fin 1) (Fin 0) 0 0)
      (Fin (1 + 2)).
Proof.
  apply (X8_update_position_composes 0 0 3 4 0 (Fin 1) (Fin 1) 0 0); lra.
Defined.

(* ================================================================== *)
(** * Loops over a range, cells of a table *)
(* ================================================================== *)

(** A loop over [range(lo, hi)] with an invariant that follows the loop
    index. *)
Lemma for_seq_inv {S} (P : nat -> S -> Prop) (body : nat -> S -> result S) :
  forall (len lo : nat) (s s' : S),
    P lo s ->
    (forall i t t', (lo <= i < lo + len)%nat -> P i t -> body i t = Ok t' ->
                    P (Datatypes.S i) t') ->
    for_each (seq lo len) body s = Ok s' ->
    P (lo + len)%nat s'.
Proof.
  induction len as [| len IH]; intros lo s s' Hs Hbody Hrun; cbn in Hrun.
  - injection Hrun as <-. rewrite Nat.add_0_r. exact Hs.
  - apply bind_ok in Hrun as (s1 & H1 & Hrun).
    replace (lo + Datatypes.S len)%nat with (Datatypes.S lo + len)%nat by lia.
    apply (IH (Datatypes.S lo) s1 s'); [| | exact Hrun].
    + apply (Hbody lo s s1); [lia | exact Hs | exact H1].
    + intros i t t' Hi. apply Hbody. lia.
Qed.

Lemma for_range_inv {S} (P : nat -> S -> Prop) (body : nat -> S -> result S)
  (lo hi : nat) (s s' : S) :
  (lo <= hi)%nat ->
  P lo s ->
  (forall i t t', (lo <= i < hi)%nat -> P i t -> body i t = Ok t' ->
                  P (Datatypes.S i) t') ->
  for_each (range lo hi) body s = Ok s' ->
  P hi s'.
Proof.
  intros Hle Hs Hbody Hrun. unfold range in Hrun.
  replace hi with (lo + (hi - lo))%nat at 1 by lia.
  apply (for_seq_inv P body (hi - lo) lo s s'); [exact Hs | | exact Hrun].
  intros i t t' Hi. apply Hbody. lia.
Qed.

Lemma get_item2_ok (t : list (list float64)) (i j : nat) (v : float64) :
  get_item2 t i j = Ok v <-> exists row, t !! i = Some row /\ row !! j = Some v.
Proof.
  unfold get_item2. split.
  - intros H. apply bind_ok in H as (row & Hrow & Hv).
    apply get_item_ok in Hrow, Hv. eauto.
  - intros (row & Hrow & Hv). apply get_item_ok in Hrow, Hv.
    rewrite Hrow. exact Hv.
Qed.

Lemma get_item2_set_eq (t t' : list (list float64)) (i j : nat) (v : float64) :
  set_item2 t i j v = Ok t' -> get_item2 t' i j = Ok v.
Proof.
  intros H. apply set_item2_ok in H as (row & Hrow & Hj & ->).
  apply get_item2_ok. exists (<[j := v]> row). split.
  - apply list_lookup_insert_eq. eapply lookup_lt_Some. eassumption.
  - apply list_lookup_insert_eq. assumption.
Qed.

Lemma get_item2_set_ne (t t' : list (list float64)) (i j i' j' : nat) (v : float64) :
  set_item2 t i j v = Ok t' -> i' <> i \/ j' <> j ->
  get_item2 t' i' j' = get_item2 t i' j'.
Proof.
  intros H Hne. apply set_item2_ok in H as (row & Hrow & Hj & ->).
  unfold get_item2, get_item.
  destruct (decide (i' = i)) as [-> | Hi].
  - rewrite list_lookup_insert_eq by (eapply lookup_lt_Some; eassumption).
    rewrite Hrow. cbn [bind].
    rewrite list_lookup_insert_ne by (destruct Hne; congruence). reflexivity.
  - rewrite list_lookup_insert_ne by congruence. reflexivity.
Qed.

Lemma set_item2_square (n : nat) (t t' : list (list float64)) (i j : nat)
  (v : float64) :
  square n t -> set_item2 t i j v = Ok t' -> square n t'.
Proof.
  intros Hsq H. apply set_item2_ok in H as (row & Hrow & _ & ->).
  apply square_insert; assumption.
Qed.

Lemma get_item2_square (n : nat) (t : list (list float64)) (i j : nat) :
  square n t -> (i < n)%nat -> (j < n)%nat -> exists v, get_item2 t i j = Ok v.
Proof.
  intros [Hlen Hrows] Hi Hj.
  destruct (lookup_lt_is_Some_2 t i) as [row Hrow]; [lia |].
  assert (Hrl : length row = n) by (eapply Forall_lookup_1 in Hrows; eauto).
  destruct (lookup_lt_is_Some_2 row j) as [v Hv]; [lia |].
  exists v. apply get_item2_ok. eauto.
Qed.

Lemma get_item2_range (n : nat) (t : list (list float64)) (i j : nat) (v : float64) :
  square n t -> get_item2 t i j = Ok v -> (i < n)%nat /\ (j < n)%nat.
Proof.
  intros [Hlen Hrows] H. apply get_item2_ok in H as (row & Hrow & Hv).
  assert (Hrl : length row = n) by (eapply Forall_lookup_1 in Hrows; eauto).
  apply lookup_lt_Some in Hrow, Hv. lia.
Qed.

Lemma set_item2_total (n : nat) (t : list (list float64)) (i j : nat) (v : float64) :
  square n t -> (i < n)%nat -> (j < n)%nat -> exists t', set_item2 t i j v = Ok t'.
Proof.
  intros [Hlen Hrows] Hi Hj.
  destruct (lookup_lt_is_Some_2 t i) as [row Hrow]; [lia |].
  assert (Hrl : length row = n) by (eapply Forall_lookup_1 in Hrows; eauto).
  eexists. apply set_item2_ok. exists row. split; [exact Hrow |].
  split; [lia | reflexivity].
Qed.

(* ================================================================== *)
(** * What [update_table] does to each cell *)
(* ================================================================== *)

Lemma update_table_cells (self self' : App.App) (dt : float64) (n : nat) :
  square n (App.b2b_table self) ->
  App.update_table self dt = Ok self' ->
  square n (App.b2b_table self') /\
  forall i j v,
    get_item2 (App.b2b_table self) i j = Ok v ->
    get_item2 (App.b2b_table self') i j
    = Ok (if decide (i < j)%nat then fsub v dt else v).
Proof.
  intros Hsq Hrun. unfold App.update_table in Hrun.
  assert (Hn : length (App.b2b_table self) = n) by (destruct Hsq; assumption).
  rewrite Hn in Hrun.
  set (s0 := App.with_b2w self _) in Hrun.
  set (orig := App.b2b_table self) in *.
  (* after the rows below [k] *)
  set (P := fun (k : nat) (s : App.App) =>
    square n (App.b2b_table s) /\
    forall i j v, get_item2 orig i j = Ok v ->
      get_item2 (App.b2b_table s) i j
      = Ok (if decide (i < k /\ i < j)%nat then fsub v dt else v)).
  assert (HP : P n self').
  { apply (fun H1 H2 H3 => for_range_inv P _ 0 n s0 self' H1 H2 H3 Hrun); [lia | |].
    - split; [exact Hsq |]. intros i j v Hv.
      rewrite decide_False by lia. exact Hv.
    - intros k s s1 Hk [Hsqs Hcells] Hrow.
      (* within row [k], after the columns below [j] *)
      set (Q := fun (j : nat) (s : App.App) =>
        square n (App.b2b_table s) /\
        forall i j' v, get_item2 orig i j' = Ok v ->
          get_item2 (App.b2b_table s) i j'
          = Ok (if decide ((i < k /\ i < j') \/ (i = k /\ k < j' < j))%nat
                then fsub v dt else v)).
      assert (HQ : Q n s1).
      { apply (fun H1 H2 H3 => for_range_inv Q _ (k + 1) n s s1 H1 H2 H3 Hrow); [lia | |].
        - split; [exact Hsqs |]. intros i j' v Hv. rewrite (Hcells i j' v Hv).
          f_equal. destruct (decide (i < k /\ i < j')%nat);
            [rewrite decide_True by lia | rewrite decide_False by lia]; reflexivity.
        - intros j t t' Hj [Hsqt Hct] Hbody.
          apply bind_ok in Hbody as (v0 & Hv0 & Hbody).
          apply bind_ok in Hbody as (b2b & Hset & [= <-]).
          split; cbn [App.b2b_table App.with_b2b].
          + eapply set_item2_square; eassumption.
          + intros i j' v Hv.
            destruct (decide (i = k /\ j' = j)) as [[-> ->] | Hne].
            * rewrite (get_item2_set_eq _ _ _ _ _ Hset).
              rewrite (Hct k j v Hv), decide_False in Hv0 by lia.
              injection Hv0 as <-. rewrite decide_True by lia. reflexivity.
            * rewrite (get_item2_set_ne _ _ _ _ i j' _ Hset)
                by (destruct (decide (i = k)); [right | left]; tauto).
              rewrite (Hct i j' v Hv). f_equal.
              destruct (decide ((i < k /\ i < j') \/ (i = k /\ k < j' < j))%nat);
                [rewrite decide_True by lia | rewrite decide_False by lia];
                reflexivity. }
      destruct HQ as [Hsq1 Hc1]. split; [exact Hsq1 |].
      intros i j v Hv. rewrite (Hc1 i j v Hv). f_equal.
      pose proof (get_item2_range n orig i j v Hsq Hv) as [Hi Hj].
      destruct (decide ((i < k /\ i < j) \/ (i = k /\ k < j < n))%nat);
        [rewrite decide_True by lia | rewrite decide_False by lia]; reflexivity. }
  destruct HP as [Hsq' Hcells]. split; [exact Hsq' |].
  intros i j v Hv. rewrite (Hcells i j v Hv). f_equal.
  pose proof (get_item2_range n orig i j v Hsq Hv) as [Hi Hj].
  destruct (decide (i < j)%nat);
    [rewrite decide_True by lia | rewrite decide_False by lia]; reflexivity.
Qed.

(** X9. On a square pairwise table [update_table(dt)] returns; it
    subtracts [dt] from every wall-table entry and from every pairwise
    cell strictly above the diagonal, and leaves every other pairwise
    cell and the balls as they are.  For a finite [dt] an entry [+inf]
    stays [+inf]. *)
Theorem X9_update_table_decrements_upper_cells
  (self : App.App) (dt : float64) (n : nat) :
  square n (App.b2b_table self) ->
  exists self',
    App.update_table self dt = Ok self' /\
    App.balls self' = App.balls self /\
    App.b2w_table self' = map (fun t => fsub t dt) (App.b2w_table self) /\
    (forall i j v,
        get_item2 (App.b2b_table self) i j = Ok v ->
        get_item2 (App.b2b_table self') i j
        = Ok (if decide (i < j)%nat then fsub v dt else v)) /\
    (forall i j d,
        dt = Fin d ->
        get_item2 (App.b2b_table self) i j = Ok PInf ->
        get_item2 (App.b2b_table self') i j = Ok PInf).
Proof.
  intros Hsq.
  destruct (update_table_total self dt) as [self' Hrun].
  { destruct Hsq as [Hlen Hrows]. rewrite Hlen. split; assumption. }
  exists self'. split; [exact Hrun |].
  destruct (update_table_frame _ _ _ Hrun) as (Hb & _ & _ & Hw).
  destruct (update_table_cells _ _ _ n Hsq Hrun) as [_ Hcells].
  split; [exact Hb | split; [exact Hw | split; [exact Hcells |]]].
  intros i j d -> Hv. rewrite (Hcells i j PInf Hv).
  destruct (decide (i < j)%nat); reflexivity.
Qed.

Lemma X9_witness :
  exists self',
    App.update_table tie_app (Fin 1) = Ok self' /\
    get_item2 (App.b2b_table self') 0 1 = Ok (fsub (Fin 1) (Fin 1)) /\
    get_item2 (App.b2b_table self') 1 0 = Ok PInf.
Proof.
  destruct (X9_update_table_decrements_upper_cells tie_app (Fin 1) 2 tie_app_square)
    as (self' & Hrun & _ & _ & Hcells & _).
  exists self'. split; [exact Hrun |]. split.
  - apply (Hcells 0%nat 1%nat (Fin 1)). reflexivity.
  - apply (Hcells 1%nat 0%nat PInf). reflexivity.
Defined.

(* ================================================================== *)
(** * [init_table] fills the tables with the predicted times *)
(* ================================================================== *)

Lemma get_item_set_eq {A} (l l' : list A) (i : nat) (v : A) :
  set_item l i v = Ok l' -> get_item l' i = Ok v.
Proof.
  intros H. apply set_item_ok in H as [Hi ->].
  apply get_item_ok. apply list_lookup_insert_eq. assumption.
Qed.

Lemma get_item_set_ne {A} (l l' : list A) (i i' : nat) (v : A) :
  set_item l i v = Ok l' -> i' <> i -> get_item l' i' = get_item l i'.
Proof.
  intros H Hne. apply set_item_ok in H as [Hi ->].
  unfold get_item. rewrite list_lookup_insert_ne by congruence. reflexivity.
Qed.

Lemma init_table_fresh (self self' : App.App) :
  App.init_table self = Ok self' ->
  App.balls self' = App.balls self /\
  App.container_radius self' = App.container_radius self /\
  (forall i, (i < App.num_balls self)%nat -> wall_time_fresh self' i) /\
  (forall i j, (i < j < App.num_balls self)%nat -> pair_time_fresh self' i j) /\
  (forall i j, (j <= i)%nat ->
     get_item2 (App.b2b_table self') i j = get_item2 (App.b2b_table self) i j).
Proof.
  intros Hrun. unfold App.init_table in Hrun.
  set (n := App.num_balls self) in *.
  set (P := fun (k : nat) (s : App.App) =>
    App.balls s = App.balls self /\
    App.container_radius s = App.container_radius self /\
    (forall i, (i < k)%nat -> wall_time_fresh s i) /\
    (forall i j, (i < k /\ i < j < n)%nat -> pair_time_fresh s i j) /\
    (forall i j, (j <= i)%nat ->
       get_item2 (App.b2b_table s) i j = get_item2 (App.b2b_table self) i j)).
  assert (HP : P n self').
  { apply (fun H1 H2 H3 => for_range_inv P _ 0 n self self' H1 H2 H3 Hrun); [lia | |].
    - unfold P. repeat split; try reflexivity; intros; lia.
    - intros k s s1 Hk (Hb & HR & Hwall & Hpair & Hlow) Hbody.
      apply bind_ok in Hbody as (bk & Hbk & Hbody).
      apply bind_ok in Hbody as (tw & Htw & Hbody).
      apply bind_ok in Hbody as (b2w & Hset & Hbody).
      apply get_item_ok in Hbk.
      set (Q := fun (j : nat) (t : App.App) =>
        App.balls t = App.balls self /\
        App.container_radius t = App.container_radius self /\
        (forall i, (i < Datatypes.S k)%nat -> wall_time_fresh t i) /\
        (forall i j', ((i < k /\ i < j' < n) \/ (i = k /\ k < j' < j))%nat ->
                      pair_time_fresh t i j') /\
        (forall i j', (j' <= i)%nat ->
           get_item2 (App.b2b_table t) i j'
           = get_item2 (App.b2b_table self) i j')).
      assert (HQ : Q n s1).
      { apply (fun H1 H2 H3 =>
                 for_range_inv Q _ (k + 1) n _ s1 H1 H2 H3 Hbody); [lia | |].
        - unfold Q. cbn [App.balls App.container_radius App.b2b_table
                         App.b2w_table App.with_b2w].
          split; [exact Hb | split; [exact HR | split; [| split]]].
          + intros i Hi b Hib. cbn [App.balls App.b2w_table App.container_radius
                                    App.with_b2w] in *.
            destruct (decide (i = k)) as [-> | Hne].
            * rewrite (get_item_set_eq _ _ _ _ Hset). congruence.
            * rewrite (get_item_set_ne _ _ _ i _ Hset Hne).
              apply (Hwall i); [lia | exact Hib].
          + intros i j' Hij bi bj Hi Hj.
            apply (Hpair i j'); [lia | exact Hi | exact Hj].
          + exact Hlow.
        - intros j t t' Hj (Hbt & HRt & Hwt & Hpt & Hlt) Hin.
          apply bind_ok in Hin as (bi & Hbi & Hin).
          apply bind_ok in Hin as (bj & Hbj & Hin).
          apply bind_ok in Hin as (tb & Htb & Hin).
          apply bind_ok in Hin as (b2b & Hsetb & [= <-]).
          apply get_item_ok in Hbi, Hbj.
          unfold Q. cbn [App.balls App.container_radius App.b2b_table
                         App.b2w_table App.with_b2b].
          split; [exact Hbt | split; [exact HRt | split; [| split]]].
          + intros i Hi b Hib. apply (Hwt i Hi b Hib).
          + intros i j' Hij ci cj Hci Hcj.
            cbn [App.balls App.b2b_table App.with_b2b] in *.
            destruct (decide (i = k /\ j' = j)) as [[-> ->] | Hne].
            * rewrite (get_item2_set_eq _ _ _ _ _ Hsetb). congruence.
            * rewrite (get_item2_set_ne _ _ _ _ i j' _ Hsetb)
                by (destruct (decide (i = k)); [right | left]; tauto).
              apply (Hpt i j'); [lia | exact Hci | exact Hcj].
          + intros i j' Hle.
            rewrite (get_item2_set_ne _ _ _ _ i j' _ Hsetb) by lia.
            apply Hlt. exact Hle. }
      destruct HQ as (Hb1 & HR1 & Hw1 & Hp1 & Hl1).
      unfold P. split; [exact Hb1 | split; [exact HR1 | split; [exact Hw1 | split]]].
      + intros i j Hij. apply Hp1. lia.
      + exact Hl1. }
  destruct HP as (Hb & HR & Hw & Hp & Hl).
  split; [exact Hb | split; [exact HR | split; [exact Hw | split]]].
  - intros i j Hij. apply Hp. lia.
  - exact Hl.
Qed.

Lemma update_state_frame (self self' : App.App) (dt : float64) :
  App.update_state self dt = Ok self' ->
  App.balls self' = App.balls self /\
  App.num_balls self' = App.num_balls self /\
  App.container_radius self' = App.container_radius self /\
  App.b2b_table self' = App.b2b_table self /\
  App.b2w_table self' = App.b2w_table self /\
  App.delta_p self' = App.delta_p self /\
  App.ball_collisions self' = App.ball_collisions self /\
  App.wall_collisions self' = App.wall_collisions self /\
  App.time self' = fadd (App.time self) dt.
Proof.
  unfold App.update_state. intros H.
  apply bind_ok in H as (mean & _ & [= <-]). cbn. auto 10.
Qed.

Lemma fresh_transfer (s s' : App.App) :
  App.balls s' = App.balls s ->
  App.container_radius s' = App.container_radius s ->
  App.b2b_table s' = App.b2b_table s ->
  App.b2w_table s' = App.b2w_table s ->
  (forall i, wall_time_fresh s i -> wall_time_fresh s' i) /\
  (forall i j, pair_time_fresh s i j -> pair_time_fresh s' i j).
Proof.
  intros Hb HR Hbb Hbw. unfold wall_time_fresh, pair_time_fresh.
  rewrite Hb, HR, Hbb, Hbw. auto.
Qed.

(** X10. Initialisation fills both tables with the predicted times:
    whenever [App.__init__] reaches the event loop, it holds the balls it
    was given, [b2w_table[i]] is [balls[i].next_wall_collision(R)] for
    every ball and [b2b_table[i][j]] is
    [balls[i].next_ball_collision(balls[j])] for every pair [i < j].  More
    generally, whenever [init_table] returns it has written these values,
    and no cell on or below the diagonal. *)
Theorem X10_init_table_is_accurate :
  (forall (container_radius : float64) (balls : list Ball.Ball) (self : App.App),
      App.init container_radius balls = Ok self ->
      App.balls self = balls /\
      (forall i, (i < length balls)%nat -> wall_time_fresh self i) /\
      (forall i j, (i < j < length balls)%nat -> pair_time_fresh self i j)) /\
  (forall self self',
      App.init_table self = Ok self' ->
      (forall i, (i < App.num_balls self)%nat -> wall_time_fresh self' i) /\
      (forall i j, (i < j < App.num_balls self)%nat -> pair_time_fresh self' i j) /\
      (forall i j, (j <= i)%nat ->
         get_item2 (App.b2b_table self') i j
         = get_item2 (App.b2b_table self) i j)).
Proof.
  split.
  - intros R balls self Hrun.
    unfold App.init in Hrun. apply bind_ok in Hrun as (s1 & H1 & H2).
    apply init_table_fresh in H1 as (Hb1 & HR1 & Hw1 & Hp1 & _).
    apply update_state_frame in H2 as (Hb2 & _ & HR2 & Hbb2 & Hbw2 & _).
    destruct (fresh_transfer s1 self Hb2 HR2 Hbb2 Hbw2) as [Tw Tp].
    cbn [App.num_balls App.balls] in Hw1, Hp1, Hb1.
    split; [congruence | split].
    + intros i Hi. apply Tw, Hw1. exact Hi.
    + intros i j Hij. apply Tp, Hp1. exact Hij.
  - intros self self' Hrun.
    apply init_table_fresh in Hrun as (_ & _ & Hw & Hp & Hl). auto.
Qed.

Lemma X10_witness :
  App.balls tie_app = tie_balls /\
  (forall i, (i < 2)%nat -> wall_time_fresh tie_app i) /\
  (forall i j, (i < j < 2)%nat -> pair_time_fresh tie_app i j).
Proof.
  destruct X10_init_table_is_accurate as [Hinit _].
  apply (Hinit (Fin 10) tie_balls tie_app). exact tie_init.
Defined.

(* ================================================================== *)
(** * [recalculate_collision] repairs the entries of the given balls *)
(* ================================================================== *)

Lemma bind_ret {A} (m : result A) : (x <- m ;; Ok x) = m.
Proof. destruct m; reflexivity. Qed.

Lemma recalculate_cons (self : App.App) (i : nat) (ids : list nat) :
  App.recalculate_collision self (i :: ids)
  = (s1 <- App.recalculate_collision self [i] ;;
     App.recalculate_collision s1 ids).
Proof.
  unfold App.recalculate_collision at 2. cbn [for_each]. rewrite bind_ret.
  unfold App.recalculate_collision at 1. cbn [for_each].
  match goal with |- bind ?m _ = _ => destruct m as [s1 |] eqn:E end;
    [| reflexivity].
  cbn [bind].
  assert (Hn : App.num_balls s1 = App.num_balls self).
  { assert (H1 : App.recalculate_collision self [i] = Ok s1).
    { unfold App.recalculate_collision. cbn [for_each]. rewrite E. reflexivity. }
    apply recalculate_collision_frame in H1 as (_ & Hn & _). exact Hn. }
  unfold App.recalculate_collision. rewrite Hn. reflexivity.
Qed.

(** One ball: its wall entry and its cell against every other ball are
    rewritten, nothing else. *)
Lemma recalculate_one (self self' : App.App) (i : nat) :
  App.recalculate_collision self [i] = Ok self' ->
  App.balls self' = App.balls self /\
  App.container_radius self' = App.container_radius self /\
  App.num_balls self' = App.num_balls self /\
  wall_time_fresh self' i /\
  (forall k, k <> i ->
     get_item (App.b2w_table self') k = get_item (App.b2w_table self) k) /\
  (forall j bi bj, (j < App.num_balls self)%nat -> j <> i ->
     App.balls self !! i = Some bi -> App.balls self !! j = Some bj ->
     get_item2 (App.b2b_table self') (Nat.min i j) (Nat.max i j)
     = Ball.next_ball_collision bi bj) /\
  (forall x y,
     ~ (exists j, (j < App.num_balls self)%nat /\ j <> i /\
                  x = Nat.min i j /\ y = Nat.max i j) ->
     get_item2 (App.b2b_table self') x y = get_item2 (App.b2b_table self) x y).
Proof.
  intros Hrun. pose proof (recalculate_collision_frame _ _ _ Hrun) as (Hb & Hn & HR).
  split; [exact Hb | split; [exact HR | split; [exact Hn |]]].
  unfold App.recalculate_collision in Hrun. cbn [for_each] in Hrun.
  rewrite bind_ret in Hrun.
  apply bind_ok in Hrun as (bi0 & Hbi0 & Hrun).
  apply bind_ok in Hrun as (tw & Htw & Hrun).
  apply bind_ok in Hrun as (b2w & Hset & Hrun).
  apply get_item_ok in Hbi0.
  set (n := App.num_balls self) in *.
  set (Q := fun (j : nat) (t : App.App) =>
    App.balls t = App.balls self /\
    App.b2w_table t = b2w /\
    (forall j' bi bj, (j' < j)%nat -> j' <> i ->
       App.balls self !! i = Some bi -> App.balls self !! j' = Some bj ->
       get_item2 (App.b2b_table t) (Nat.min i j') (Nat.max i j')
       = Ball.next_ball_collision bi bj) /\
    (forall x y,
       ~ (exists j', (j' < j)%nat /\ j' <> i /\
                     x = Nat.min i j' /\ y = Nat.max i j') ->
       get_item2 (App.b2b_table t) x y = get_item2 (App.b2b_table self) x y)).
  assert (HQ : Q n self').
  { apply (fun H1 H2 H3 => for_range_inv Q _ 0 n _ self' H1 H2 H3 Hrun); [lia | |].
    - unfold Q. cbn. repeat split; try reflexivity; intros; lia.
    - intros j t t' Hj (Hbt & Hwt & Hdone & Hrest) Hin.
      destruct (decide (i <> j)) as [Hne | Heq].
      + apply bind_ok in Hin as (bi & Hbi & Hin).
        apply bind_ok in Hin as (bj & Hbj & Hin).
        apply bind_ok in Hin as (tb & Htb & Hin).
        apply bind_ok in Hin as (b2b & Hsetb & [= <-]).
        apply get_item_ok in Hbi, Hbj. rewrite Hbt in Hbi, Hbj.
        unfold Q. cbn [App.balls App.b2b_table App.b2w_table App.with_b2b].
        split; [exact Hbt | split; [exact Hwt | split]].
        * intros j' ci cj Hj' Hne' Hci Hcj.
          destruct (decide (j' = j)) as [-> | Hjj].
          -- rewrite (get_item2_set_eq _ _ _ _ _ Hsetb). congruence.
          -- rewrite (get_item2_set_ne _ _ _ _ _ _ _ Hsetb) by lia.
             apply Hdone; [lia | assumption | assumption | assumption].
        * intros x y Hnot.
          rewrite (get_item2_set_ne _ _ _ _ x y _ Hsetb).
          -- apply Hrest. intros (j' & Hj' & Hne' & -> & ->).
             apply Hnot. exists j'. repeat split; [lia | assumption].
          -- destruct (decide (x = Nat.min i j)) as [-> | ?]; [| left; assumption].
             destruct (decide (y = Nat.max i j)) as [-> | ?]; [| right; assumption].
             exfalso. apply Hnot. exists j. repeat split; [lia | congruence].
      + injection Hin as <-. unfold Q.
        split; [exact Hbt | split; [exact Hwt | split]].
        * intros j' ci cj Hj' Hne' Hci Hcj.
          apply Hdone; [| assumption | assumption | assumption].
          assert (i = j) by (destruct (decide (i = j)); [assumption | contradiction]).
          lia.
        * intros x y Hnot. apply Hrest.
          intros (j' & Hj' & Hne' & -> & ->). apply Hnot.
          exists j'. repeat split; [lia | assumption]. }
  destruct HQ as (_ & Hw' & Hdone & Hrest).
  split; [| split; [| split; [exact Hdone | exact Hrest]]].
  - intros b Hb'. rewrite Hw', (get_item_set_eq _ _ _ _ Hset).
    rewrite Hb in Hb'. rewrite HR. congruence.
  - intros k Hk. rewrite Hw'. apply (get_item_set_ne _ _ _ k _ Hset Hk).
Qed.

Lemma recalculate_one_index (self self' : App.App) (i : nat) :
  App.recalculate_collision self [i] = Ok self' ->
  (i < length (App.balls self))%nat.
Proof.
  unfold App.recalculate_collision. cbn [for_each]. intros H.
  apply bind_ok in H as (s1 & H & _).
  apply bind_ok in H as (bi & Hbi & _).
  apply get_item_ok in Hbi. eapply lookup_lt_Some. exact Hbi.
Qed.

Lemma recalculate_fresh (ids : list nat) :
  forall self self',
    length (App.balls self) = App.num_balls self ->
    Forall finite_ball (App.balls self) ->
    App.recalculate_collision self ids = Ok self' ->
    App.balls self' = App.balls self /\
    App.container_radius self' = App.container_radius self /\
    (forall i, In i ids -> wall_time_fresh self' i) /\
    (forall x y, (x < y < App.num_balls self)%nat -> In x ids \/ In y ids ->
       pair_time_fresh self' x y) /\
    (forall k, ~ In k ids ->
       get_item (App.b2w_table self') k = get_item (App.b2w_table self) k) /\
    (forall x y,
       ~ ((x < y < App.num_balls self)%nat /\ (In x ids \/ In y ids)) ->
       get_item2 (App.b2b_table self') x y
       = get_item2 (App.b2b_table self) x y).
Proof.
  induction ids as [| i rest IH]; intros self self' Hlen Hfin Hrun.
  - unfold App.recalculate_collision in Hrun. cbn in Hrun. injection Hrun as <-.
    repeat split; try reflexivity; intros; try contradiction.
    destruct H0 as [[] | []].
  - rewrite recalculate_cons in Hrun. apply bind_ok in Hrun as (s1 & H1 & Hrest).
    pose proof (recalculate_one_index _ _ _ H1) as Hi.
    apply recalculate_one in H1 as (Hb1 & HR1 & Hn1 & Hw1 & Hwk1 & Hp1 & Hc1).
    assert (Hlen1 : length (App.balls s1) = App.num_balls s1) by congruence.
    assert (Hfin1 : Forall finite_ball (App.balls s1)) by (rewrite Hb1; exact Hfin).
    destruct (IH s1 self' Hlen1 Hfin1 Hrest) as (Hb & HR & Hw & Hp & Hwk & Hc).
    rewrite Hn1 in Hp, Hc.
    set (n := App.num_balls self) in *.
    split; [congruence | split; [congruence | split; [| split; [| split]]]].
    + intros k Hk. destruct (in_dec Nat.eq_dec k rest) as [Hin | Hnin];
        [apply Hw; exact Hin |].
      destruct Hk as [<- | Hk]; [| contradiction].
      intros b Hbk. rewrite (Hwk i Hnin), HR. apply Hw1. rewrite <- Hb. exact Hbk.
    + intros x y Hxy Hin.
      destruct (in_dec Nat.eq_dec x rest) as [Hx | Hx];
        [apply Hp; [exact Hxy | left; exact Hx] |].
      destruct (in_dec Nat.eq_dec y rest) as [Hy | Hy];
        [apply Hp; [exact Hxy | right; exact Hy] |].
      intros bx by_ Hbx Hby. rewrite Hb, Hb1 in Hbx, Hby.
      rewrite Hc by tauto.
      destruct Hin as [[<- | Hin] | [<- | Hin]]; try contradiction.
      * rewrite <- (Hp1 y bx by_); [| lia | lia | assumption | assumption].
        rewrite Nat.min_l, Nat.max_r by lia. reflexivity.
      * rewrite (next_ball_collision_sym bx by_).
        -- rewrite <- (Hp1 x by_ bx); [| lia | lia | assumption | assumption].
           rewrite Nat.min_r, Nat.max_l by lia. reflexivity.
        -- eapply Forall_lookup_1 in Hfin; eauto.
        -- eapply Forall_lookup_1 in Hfin; eauto.
    + intros k Hk. rewrite (Hwk k), (Hwk1 k); [reflexivity | |];
        intros ?; apply Hk; [left; congruence | right; assumption].
    + intros x y Hnot. rewrite Hc, Hc1; [reflexivity | |].
      * intros (j & Hj & Hne & -> & ->). apply Hnot. split; [lia |].
        destruct (Nat.le_ge_cases i j).
        -- left. left. lia.
        -- right. left. lia.
      * intros [Hxy Hin]. apply Hnot. split; [exact Hxy |].
        destruct Hin; [left | right]; right; assumption.
Qed.

(** X11. [recalculate_collision(ball_ids)], on an engine whose balls are
    finite and as many as [num_balls], rewrites exactly the entries that
    involve a ball of [ball_ids]: afterwards the wall entry of each such
    ball and the pairwise cell [(x, y)], [x < y], of each pair containing
    one hold the freshly predicted time, while every other wall entry and
    every other pairwise cell is unchanged. *)
Theorem X11_recalculate_collision_repairs_affected_entries
  (self self' : App.App) (ball_ids : list nat) :
  length (App.balls self) = App.num_balls self ->
  Forall finite_ball (App.balls self) ->
  App.recalculate_collision self ball_ids = Ok self' ->
  App.balls self' = App.balls self /\
  (forall i, In i ball_ids -> wall_time_fresh self' i) /\
  (forall x y, (x < y < App.num_balls self)%nat ->
     In x ball_ids \/ In y ball_ids -> pair_time_fresh self' x y) /\
  (forall k, ~ In k ball_ids ->
     get_item (App.b2w_table self') k = get_item (App.b2w_table self) k) /\
  (forall x y,
     ~ ((x < y < App.num_balls self)%nat /\ (In x ball_ids \/ In y ball_ids)) ->
     get_item2 (App.b2b_table self') x y = get_item2 (App.b2b_table self) x y).
Proof.
  intros Hlen Hfin Hrun.
  destruct (recalculate_fresh ball_ids self self' Hlen Hfin Hrun)
    as (Hb & _ & Hw & Hp & Hwk & Hc).
  auto.
Qed.

Lemma X11_witness :
  wall_time_fresh tie_app 1 /\ pair_time_fresh tie_app 0 1 /\
  get_item (App.b2w_table tie_app) 0 = Ok (Fin 1).
Proof.
  destruct (X11_recalculate_collision_repairs_affected_entries
              tie_app tie_app [1%nat]) as (_ & Hw & Hp & Hwk & _).
  - reflexivity.
  - repeat constructor; apply unit_ball_finite.
  - unfold App.recalculate_collision, tie_app, tie_balls, unit_ball, Ball.finite.
    eval_with tie_facts. reflexivity.
  - split; [apply Hw; left; reflexivity | split].
    + apply Hp; [cbn; lia | right; left; reflexivity].
    + reflexivity.
Defined.

(* ================================================================== *)
(** * [next_collision] returns the earliest entry *)
(* ================================================================== *)

Lemma np_argmin_least (xs : list float64) (k : nat) :
  Forall (fun x => x <> NaN) xs -> np_argmin xs = Ok k ->
  exists v, xs !! k = Some v /\ Forall (fun x => flt x v = false) xs.
Proof.
  intros Hnan H. destruct xs as [| x xs]; [discriminate |].
  cbn in H. injection H as <-.
  inversion Hnan as [| ? ? Hx Hxs]; subst.
  destruct (argmin_scan_min xs 0 x 1 Nat.lt_0_1 Hx Hxs)
    as (v & Hsel & Hv & Hxv & Hrest).
  exists v. split; [| constructor; assumption].
  destruct Hsel as [[-> ->] | [Hle Hlook]]; [reflexivity |].
  destruct (argmin_scan 0 x 1 xs) as [| r]; [lia |].
  cbn. replace (Datatypes.S r - 1)%nat with r in Hlook by lia. exact Hlook.
Qed.

Lemma flt_lt_le (w v y : float64) :
  flt w v = true -> flt y v = false -> flt y w = false.
Proof.
  destruct w, v, y; cbn; unfold Rltb; intros H1 H2;
    repeat match goal with
    | H : context [Rlt_dec ?p ?q] |- _ => destruct (Rlt_dec p q)
    | |- context [Rlt_dec ?p ?q] => destruct (Rlt_dec p q)
    end; try discriminate; try reflexivity; lra.
Qed.

Lemma next_collision_least (self : App.App) (n : nat) (ids : list nat) (t : float64) :
  square n (App.b2b_table self) ->
  Forall (fun x => x <> NaN) (App.b2w_table self) ->
  Forall (fun x => x <> NaN) (concat (App.b2b_table self)) ->
  App.next_collision self = Ok (ids, t) ->
  Forall (fun x => flt x t = false) (App.b2w_table self) /\
  Forall (fun x => flt x t = false) (concat (App.b2b_table self)) /\
  ((exists w, ids = [w] /\ get_item (App.b2w_table self) w = Ok t) \/
   (exists i j, ids = [i; j] /\ (i < n)%nat /\ (j < n)%nat /\
                get_item2 (App.b2b_table self) i j = Ok t)).
Proof.
  intros Hsq Hnw Hnb H. unfold App.next_collision in H.
  apply bind_ok in H as (w & Hw & H).
  apply bind_ok in H as (tw & Htw & H).
  apply bind_ok in H as (k & Hk & H).
  apply bind_ok in H as (tb & Htb & H).
  destruct (np_argmin_least _ _ Hnw Hw) as (vw & Hvw & Hminw).
  destruct (np_argmin_least _ _ Hnb Hk) as (vb & Hvb & Hminb).
  pose proof Htw as Htw'. apply get_item_ok in Htw'.
  assert (vw = tw) by congruence. subst vw.
  destruct Hsq as [Hlen Hrows].
  destruct (lookup_concat_square n _ k vb Hrows Hvb) as (row & Hrow & Hcell).
  assert (Hcols : ncols (App.b2b_table self) = n).
  { destruct (App.b2b_table self) as [| r0 t'];
      [rewrite lookup_nil in Hrow; discriminate |].
    cbn. inversion Hrows; assumption. }
  unfold unravel_index in *. rewrite Hcols in *. cbn [fst snd] in *.
  assert (Hget : get_item2 (App.b2b_table self) (k / n) (k mod n) = Ok vb).
  { apply get_item2_ok. eauto. }
  assert (vb = tb) by congruence. subst vb.
  assert (Htwn : tw <> NaN).
  { rewrite Forall_forall in Hnw. apply Hnw. eapply list_elem_of_lookup_2. exact Hvw. }
  destruct (flt tw tb) eqn:Hcmp; injection H as <- <-.
  - split; [exact Hminw | split].
    + eapply Forall_impl; [exact Hminb |]. intros y Hy. cbn beta in Hy.
      apply (flt_lt_le tw tb y); assumption.
    + left. eauto.
  - split; [| split; [exact Hminb |]].
    + eapply Forall_impl; [exact Hminw |]. intros y Hy. cbn beta in Hy.
      apply (flt_above y tw tb); assumption.
    + right. exists (k / n)%nat, (k mod n)%nat.
      destruct (get_item2_range n _ _ _ _ (conj Hlen Hrows) Hget). auto.
Qed.

Lemma next_collision_total (self : App.App) :
  well_shaped self -> (0 < App.num_balls self)%nat ->
  exists c, App.next_collision self = Ok c.
Proof.
  intros (_ & Hlw & Hsq) Hn. unfold App.next_collision.
  destruct (np_argmin_total (App.b2w_table self)) as [w Hw].
  { intros E. rewrite E in Hlw. cbn in Hlw. lia. }
  rewrite Hw. cbn [bind].
  destruct (np_argmin_spec _ _ Hw) as (v & Hv & _).
  unfold get_item at 1. rewrite Hv. cbn [bind].
  destruct Hsq as [Hlen Hrows].
  destruct (np_argmin_total (concat (App.b2b_table self))) as [k Hk].
  { destruct (App.b2b_table self) as [| row t]; [cbn in Hlen; lia |].
    assert (Hrl : length row = App.num_balls self) by (inversion Hrows; assumption).
    destruct row as [| y ys]; [cbn in Hrl; lia |]. discriminate. }
  rewrite Hk. cbn [bind].
  destruct (np_argmin_spec _ _ Hk) as (v2 & Hv2 & _).
  destruct (lookup_concat_square _ _ _ _ Hrows Hv2) as (r & Hr & Hc).
  assert (Hcols : ncols (App.b2b_table self) = App.num_balls self).
  { destruct (App.b2b_table self) as [| r0 t'];
      [rewrite lookup_nil in Hr; discriminate |].
    cbn. inversion Hrows; assumption. }
  unfold unravel_index. rewrite Hcols. cbn [fst snd].
  unfold get_item2, get_item. rewrite Hr. cbn [bind]. rewrite Hc. cbn [bind].
  destruct (flt v v2); eexists; reflexivity.
Qed.

(** X12. On a well-shaped engine with at least one ball and no [nan] in
    its tables, [next_collision] returns an event whose time is an entry
    of the tables that no entry of either table is smaller than: for a
    wall event [[w]] it is [b2w_table[w]], for a ball event [[i, j]] it is
    [b2b_table[i][j]] with both indices in range. *)
Theorem X12_next_collision_is_earliest (self : App.App) :
  well_shaped self -> (0 < App.num_balls self)%nat ->
  Forall (fun x => x <> NaN) (App.b2w_table self) ->
  Forall (fun x => x <> NaN) (concat (App.b2b_table self)) ->
  exists ids t,
    App.next_collision self = Ok (ids, t) /\
    Forall (fun x => flt x t = false) (App.b2w_table self) /\
    Forall (fun x => flt x t = false) (concat (App.b2b_table self)) /\
    ((exists w, ids = [w] /\ get_item (App.b2w_table self) w = Ok t) \/
     (exists i j, ids = [i; j] /\ (i < App.num_balls self)%nat /\
                  (j < App.num_balls self)%nat /\
                  get_item2 (App.b2b_table self) i j = Ok t)).
Proof.
  intros Hwf Hn Hnw Hnb.
  destruct (next_collision_total self Hwf Hn) as [[ids t] Hrun].
  exists ids, t. split; [exact Hrun |].
  destruct Hwf as (_ & _ & Hsq).
  exact (next_collision_least self _ ids t Hsq Hnw Hnb Hrun).
Qed.

Lemma escape_app_shaped : well_shaped escape_app.
Proof. repeat split. repeat constructor. Qed.

Lemma X12_witness :
  exists ids t,
    App.next_collision escape_app = Ok (ids, t) /\
    Forall (fun x => flt x t = false) (App.b2w_table escape_app) /\
    Forall (fun x => flt x t = false) (concat (App.b2b_table escape_app)) /\
    ((exists w, ids = [w] /\ get_item (App.b2w_table escape_app) w = Ok t) \/
     (exists i j, ids = [i; j] /\ (i < 2)%nat /\ (j < 2)%nat /\
                  get_item2 (App.b2b_table escape_app) i j = Ok t)).
Proof.
  apply (X12_next_collision_is_earliest escape_app).
  - exact escape_app_shaped.
  - cbn. lia.
  - repeat constructor; discriminate.
  - repeat constructor; discriminate.
Defined.

(** X13. An engine without balls cannot run: for every container radius
    and frame count, [App.__init__] on an empty list of balls raises
    ZeroDivisionError (the mean of the squared speeds divides by
    [num_balls = 0]); and a frame on an engine whose wall table is empty
    raises ValueError (argmin of an empty array). *)
Theorem X13_engine_without_balls_raises :
  (forall (container_radius : float64) (num_frames : nat),
      App.run container_radius num_frames [] = Raise ZeroDivisionError) /\
  (forall (self : App.App) (num_frames : nat),
      App.b2w_table self = [] ->
      App.next_collision self = Raise ValueError /\
      App.render (S num_frames) self = Raise ValueError).
Proof.
  split.
  - intros R n. reflexivity.
  - intros self n H. unfold App.render, App.next_collision. rewrite H.
    split; reflexivity.
Qed.

Lemma X13_witness :
  App.next_collision
    (App.mkApp (Fin 10) (Fin 0) 0 (Fin 0) (Fin 0) (Fin 0) (Fin 0) 0 0 [] [] []
       (Fin (2 * PI * 10)))
  = Raise ValueError.
Proof.
  destruct X13_engine_without_balls_raises as [_ H].
  apply (H _ 0%nat). reflexivity.
Defined.

(* ================================================================== *)
(** * What one event changes *)
(* ================================================================== *)

(** The table operations change the two tables only. *)
Lemma update_table_only_tables (self self' : App.App) (dt : float64) :
  App.update_table self dt = Ok self' ->
  exists w b, self' = App.with_b2b (App.with_b2w self w) b.
Proof.
  unfold App.update_table.
  set (s0 := App.with_b2w self _).
  apply (for_each_inv (fun s => exists w b, s = App.with_b2b (App.with_b2w self w) b)).
  2:{ exists (App.b2w_table s0), (App.b2b_table s0). reflexivity. }
  intros i s s1 _ Hs.
  apply (for_each_inv (fun s => exists w b, s = App.with_b2b (App.with_b2w self w) b));
    [| exact Hs].
  intros j s2 s3 _ (w & b & ->) Hin.
  apply bind_ok in Hin as (? & _ & Hin).
  apply bind_ok in Hin as (b2b & _ & [= <-]).
  exists w, b2b. reflexivity.
Qed.

Lemma recalculate_only_tables (self self' : App.App) (ball_ids : list nat) :
  App.recalculate_collision self ball_ids = Ok self' ->
  exists w b, self' = App.with_b2b (App.with_b2w self w) b.
Proof.
  unfold App.recalculate_collision.
  apply (for_each_inv (fun s => exists w b, s = App.with_b2b (App.with_b2w self w) b)).
  2:{ exists (App.b2w_table self), (App.b2b_table self). destruct self; reflexivity. }
  intros i s s1 _ (w & b & ->) Hbody.
  apply bind_ok in Hbody as (? & _ & Hbody).
  apply bind_ok in Hbody as (? & _ & Hbody).
  apply bind_ok in Hbody as (b2w & _ & Hbody).
  revert Hbody.
  apply (for_each_inv (fun s => exists w b, s = App.with_b2b (App.with_b2w self w) b)).
  2:{ exists b2w, b. reflexivity. }
  intros j s2 s3 _ (w' & b' & ->) Hin.
  destruct (decide (i <> j)).
  - apply bind_ok in Hin as (? & _ & Hin).
    apply bind_ok in Hin as (? & _ & Hin).
    apply bind_ok in Hin as (? & _ & Hin).
    apply bind_ok in Hin as (b2b & _ & [= <-]).
    exists w', b2b. reflexivity.
  - injection Hin as <-. exists w', b'. reflexivity.
Qed.

Lemma modify_ball_only_balls (self self' : App.App) (i : nat)
  (f : Ball.Ball -> Ball.Ball) :
  App.modify_ball self i f = Ok self' ->
  exists b, App.balls self !! i = Some b /\
            self' = App.with_balls self (<[i := f b]> (App.balls self)).
Proof.
  unfold App.modify_ball. intros H.
  apply bind_ok in H as (b & Hb & H).
  apply bind_ok in H as (bs & Hbs & [= <-]).
  apply get_item_ok in Hb. apply set_item_ok in Hbs as [_ ->]. eauto.
Qed.

(** The wall branch of [collide], in one equation per field. *)
Lemma collide_wall_effect (self self' : App.App) (i : nat) :
  App.collide_wall self i = Ok self' ->
  exists b,
    App.balls self !! i = Some b /\
    let v := Ball.velocity_after_wall_collision b in
    App.balls self'
    = <[i := App.incr_wall (Ball.update_velocity b v)]> (App.balls self) /\
    App.delta_p self'
    = fadd (App.delta_p self)
        (norm (smul (Ball.mass b) (vsub v (Ball.velocity b)))) /\
    App.wall_collisions self' = S (App.wall_collisions self) /\
    App.ball_collisions self' = App.ball_collisions self /\
    App.time self' = App.time self /\
    App.num_balls self' = App.num_balls self.
Proof.
  unfold App.collide_wall. intros H.
  apply bind_ok in H as (b & Hb & H). apply get_item_ok in Hb.
  apply bind_ok in H as (s1 & H1 & H).
  apply bind_ok in H as (s2 & H2 & H).
  apply bind_ok in H as (s3 & H3 & [= <-]).
  apply modify_ball_only_balls in H1 as (b1 & Hb1 & ->).
  assert (b1 = b) by congruence. subst b1.
  apply recalculate_only_tables in H2 as (w & t & ->).
  apply modify_ball_only_balls in H3 as (b3 & Hb3 & ->).
  cbn [App.balls App.with_balls App.with_b2b App.with_b2w App.with_delta_p] in Hb3.
  rewrite list_lookup_insert_eq in Hb3 by (eapply lookup_lt_Some; eassumption).
  injection Hb3 as <-.
  exists b. split; [exact Hb |].
  cbn [App.balls App.delta_p App.wall_collisions App.ball_collisions App.time App.num_balls
    App.with_balls App.with_b2b App.with_b2w App.with_delta_p
    App.with_wall_collisions App.with_ball_collisions].
  rewrite list_insert_insert_eq. auto 10.
Qed.

(** The ball branch of [collide] for two distinct balls, in one equation
    per field. *)
Lemma collide_balls_effect (self self' : App.App) (i j : nat) :
  i <> j ->
  App.collide_balls self i j = Ok self' ->
  exists b1 b2,
    App.balls self !! i = Some b1 /\ App.balls self !! j = Some b2 /\
    let vs := Ball.velocity_after_ball_collision b1 b2 in
    App.balls self'
    = <[j := App.incr_ball (Ball.update_velocity b2 (snd vs))]>
        (<[i := App.incr_ball (Ball.update_velocity b1 (fst vs))]>
           (App.balls self)) /\
    App.delta_p self' = App.delta_p self /\
    App.ball_collisions self' = S (App.ball_collisions self) /\
    App.wall_collisions self' = App.wall_collisions self /\
    App.time self' = App.time self /\
    App.num_balls self' = App.num_balls self.
Proof.
  unfold App.collide_balls. intros Hij H.
  apply bind_ok in H as (b1 & Hb1 & H). apply get_item_ok in Hb1.
  apply bind_ok in H as (b2 & Hb2 & H). apply get_item_ok in Hb2.
  apply bind_ok in H as (s1 & H1 & H).
  apply bind_ok in H as (s2 & H2 & H).
  apply bind_ok in H as (s3 & H3 & H).
  apply bind_ok in H as (s4 & H4 & H).
  apply bind_ok in H as (s5 & H5 & [= <-]).
  pose proof (lookup_lt_Some _ _ _ Hb1) as Hi.
  pose proof (lookup_lt_Some _ _ _ Hb2) as Hj.
  apply modify_ball_only_balls in H1 as (c1 & Hc1 & ->).
  assert (c1 = b1) by congruence. subst c1.
  apply modify_ball_only_balls in H2 as (c2 & Hc2 & ->).
  cbn [App.balls App.with_balls] in Hc2.
  rewrite list_lookup_insert_ne in Hc2 by congruence.
  assert (c2 = b2) by congruence. subst c2.
  apply recalculate_only_tables in H3 as (w & t & ->).
  apply modify_ball_only_balls in H4 as (c4 & Hc4 & ->).
  cbn [App.balls App.with_balls App.with_b2b App.with_b2w] in Hc4.
  rewrite list_lookup_insert_ne in Hc4 by congruence.
  rewrite list_lookup_insert_eq in Hc4 by assumption.
  injection Hc4 as <-.
  apply modify_ball_only_balls in H5 as (c5 & Hc5 & ->).
  cbn [App.balls App.with_balls App.with_b2b App.with_b2w] in Hc5.
  rewrite list_lookup_insert_ne in Hc5 by congruence.
  rewrite list_lookup_insert_eq in Hc5 by (rewrite length_insert; assumption).
  injection Hc5 as <-.
  exists b1, b2. split; [exact Hb1 | split; [exact Hb2 |]].
  cbn [App.balls App.delta_p App.wall_collisions App.ball_collisions App.time App.num_balls
    App.with_balls App.with_b2b App.with_b2w App.with_delta_p
    App.with_wall_collisions App.with_ball_collisions].
  split; [| auto 10].
  rewrite (list_insert_insert_ne (App.balls self) j i) by congruence.
  rewrite list_insert_insert_eq.
  rewrite (list_insert_insert_ne (App.balls self) i j) by congruence.
  rewrite list_insert_insert_eq. reflexivity.
Qed.

Lemma init_table_only_tables (self self' : App.App) :
  App.init_table self = Ok self' ->
  exists w b, self' = App.with_b2b (App.with_b2w self w) b.
Proof.
  unfold App.init_table.
  apply (for_each_inv (fun s => exists w b, s = App.with_b2b (App.with_b2w self w) b)).
  2:{ exists (App.b2w_table self), (App.b2b_table self). destruct self; reflexivity. }
  intros i s s1 _ (w & b & ->) Hbody.
  apply bind_ok in Hbody as (? & _ & Hbody).
  apply bind_ok in Hbody as (? & _ & Hbody).
  apply bind_ok in Hbody as (b2w & _ & Hbody).
  revert Hbody.
  apply (for_each_inv (fun s => exists w b, s = App.with_b2b (App.with_b2w self w) b)).
  2:{ exists b2w, b. reflexivity. }
  intros j s2 s3 _ (w' & b' & ->) Hin.
  apply bind_ok in Hin as (? & _ & Hin).
  apply bind_ok in Hin as (? & _ & Hin).
  apply bind_ok in Hin as (? & _ & Hin).
  apply bind_ok in Hin as (b2b & _ & [= <-]).
  exists w', b2b. reflexivity.
Qed.

Lemma sum_insert {A : Type} (g : A -> nat) (l : list A) (i : nat) (b b' : A) :
  l !! i = Some b ->
  (list_sum (map g (<[i := b']> l)) + g b = list_sum (map g l) + g b')%nat.
Proof.
  revert i. induction l as [| a l IH]; intros [| i] H; try discriminate.
  - injection H as ->. cbn. lia.
  - cbn in H. specialize (IH i H).
    change (<[Datatypes.S i := b']> (a :: l)) with (a :: <[i := b']> l).
    unfold list_sum in *. cbn [map fold_right]. lia.
Qed.

Lemma sum_moved (g : Ball.Ball -> nat) (dt : float64) (l : list Ball.Ball) :
  (forall b, g (Ball.update_position b dt) = g b) ->
  list_sum (map g (map (fun b => Ball.update_position b dt) l))
  = list_sum (map g l).
Proof.
  intros Hg. rewrite map_map. f_equal. apply map_ext. exact Hg.
Qed.

Ltac engine_fields :=
  cbn [App.balls App.delta_p App.wall_collisions App.ball_collisions App.time
       App.num_balls App.with_balls App.with_b2b App.with_b2w App.with_delta_p
       App.with_wall_collisions App.with_ball_collisions] in *.

Ltac ball_counters :=
  cbn [Ball.ball_collisions Ball.wall_collisions Ball.update_velocity
       App.incr_ball App.incr_wall] in *.

(** The ball branch of [collide] on the counters, for any two indices. *)
Lemma collide_balls_counts (self self' : App.App) (i j : nat) :
  App.collide_balls self i j = Ok self' ->
  App.ball_collisions self' = S (App.ball_collisions self) /\
  App.wall_collisions self' = App.wall_collisions self /\
  App.delta_p self' = App.delta_p self /\
  App.time self' = App.time self /\
  App.num_balls self' = App.num_balls self /\
  length (App.balls self') = length (App.balls self) /\
  list_sum (map Ball.wall_collisions (App.balls self'))
  = list_sum (map Ball.wall_collisions (App.balls self)) /\
  list_sum (map Ball.ball_collisions (App.balls self'))
  = S (S (list_sum (map Ball.ball_collisions (App.balls self)))).
Proof.
  unfold App.collide_balls. intros H.
  apply bind_ok in H as (b1 & _ & H).
  apply bind_ok in H as (b2 & _ & H).
  apply bind_ok in H as (s1 & H1 & H).
  apply bind_ok in H as (s2 & H2 & H).
  apply bind_ok in H as (s3 & H3 & H).
  apply bind_ok in H as (s4 & H4 & H).
  apply bind_ok in H as (s5 & H5 & [= <-]).
  apply modify_ball_only_balls in H1 as (c1 & Hc1 & ->).
  apply modify_ball_only_balls in H2 as (c2 & Hc2 & ->).
  apply recalculate_only_tables in H3 as (w & t & ->).
  apply modify_ball_only_balls in H4 as (c4 & Hc4 & ->).
  apply modify_ball_only_balls in H5 as (c5 & Hc5 & ->).
  engine_fields.
  pose proof (fun g v => sum_insert g _ _ _ v Hc1) as S1.
  pose proof (fun g v => sum_insert g _ _ _ v Hc2) as S2.
  pose proof (fun g v => sum_insert g _ _ _ v Hc4) as S4.
  pose proof (fun g v => sum_insert g _ _ _ v Hc5) as S5.
  repeat split; try reflexivity.
  - rewrite !length_insert. reflexivity.
  - specialize (S1 Ball.wall_collisions). specialize (S2 Ball.wall_collisions).
    specialize (S4 Ball.wall_collisions). specialize (S5 Ball.wall_collisions).
    match goal with |- list_sum (map _ (<[_ := ?v5]> (<[_ := ?v4]>
                         (<[_ := ?v2]> (<[_ := ?v1]> _))))) = _ =>
      specialize (S1 v1); specialize (S2 v2); specialize (S4 v4);
      specialize (S5 v5) end.
    ball_counters. lia.
  - specialize (S1 Ball.ball_collisions). specialize (S2 Ball.ball_collisions).
    specialize (S4 Ball.ball_collisions). specialize (S5 Ball.ball_collisions).
    match goal with |- list_sum (map _ (<[_ := ?v5]> (<[_ := ?v4]>
                         (<[_ := ?v2]> (<[_ := ?v1]> _))))) = _ =>
      specialize (S1 v1); specialize (S2 v2); specialize (S4 v4);
      specialize (S5 v5) end.
    ball_counters. lia.
Qed.

(** The wall branch of [collide] on the counters. *)
Lemma collide_wall_counts (self self' : App.App) (i : nat) :
  App.collide_wall self i = Ok self' ->
  App.wall_collisions self' = S (App.wall_collisions self) /\
  App.ball_collisions self' = App.ball_collisions self /\
  App.time self' = App.time self /\
  App.num_balls self' = App.num_balls self /\
  length (App.balls self') = length (App.balls self) /\
  list_sum (map Ball.wall_collisions (App.balls self'))
  = S (list_sum (map Ball.wall_collisions (App.balls self))) /\
  list_sum (map Ball.ball_collisions (App.balls self'))
  = list_sum (map Ball.ball_collisions (App.balls self)).
Proof.
  intros H. apply collide_wall_effect in H as (b & Hb & Hbs & _ & Hw & Hc & Ht & Hn).
  cbv zeta in Hbs. rewrite Hbs, length_insert.
  pose proof (sum_insert Ball.wall_collisions _ _ _
    (App.incr_wall (Ball.update_velocity b (Ball.velocity_after_wall_collision b))) Hb).
  pose proof (sum_insert Ball.ball_collisions _ _ _
    (App.incr_wall (Ball.update_velocity b (Ball.velocity_after_wall_collision b))) Hb).
  ball_counters. repeat split; try assumption; try reflexivity; lia.
Qed.

Lemma advance_effect (self self' : App.App) (dt : float64) :
  App.advance self dt = Ok self' ->
  App.balls self' = map (fun b => Ball.update_position b dt) (App.balls self) /\
  App.wall_collisions self' = App.wall_collisions self /\
  App.ball_collisions self' = App.ball_collisions self /\
  App.delta_p self' = App.delta_p self /\
  App.time self' = App.time self /\
  App.num_balls self' = App.num_balls self.
Proof.
  unfold App.advance. intros H.
  apply bind_ok in H as (s1 & H1 & [= <-]).
  apply update_table_only_tables in H1 as (w & b & ->).
  engine_fields. auto 10.
Qed.

(** One event on the clock and the counters. *)
Lemma collide_counts (self self' : App.App) (c : App.collision) :
  App.collide self c = Ok self' ->
  App.time self' = fadd (App.time self) (snd c) /\
  App.num_balls self' = App.num_balls self /\
  length (App.balls self') = length (App.balls self) /\
  ((exists i, fst c = [i] /\
      App.wall_collisions self' = S (App.wall_collisions self) /\
      App.ball_collisions self' = App.ball_collisions self /\
      list_sum (map Ball.wall_collisions (App.balls self'))
      = S (list_sum (map Ball.wall_collisions (App.balls self))) /\
      list_sum (map Ball.ball_collisions (App.balls self'))
      = list_sum (map Ball.ball_collisions (App.balls self))) \/
   (exists i j, fst c = [i; j] /\
      App.ball_collisions self' = S (App.ball_collisions self) /\
      App.wall_collisions self' = App.wall_collisions self /\
      App.delta_p self' = App.delta_p self /\
      list_sum (map Ball.wall_collisions (App.balls self'))
      = list_sum (map Ball.wall_collisions (App.balls self)) /\
      list_sum (map Ball.ball_collisions (App.balls self'))
      = S (S (list_sum (map Ball.ball_collisions (App.balls self)))))).
Proof.
  unfold App.collide. intros H.
  apply bind_ok in H as (s1 & H1 & H).
  apply bind_ok in H as (s2 & H2 & H).
  apply advance_effect in H1 as (Hb1 & Hw1 & Hc1 & Hp1 & Ht1 & Hn1).
  apply update_state_frame in H as (Hb & Hn & _ & _ & _ & Hp & Hc & Hw & Ht).
  assert (Hsw : list_sum (map Ball.wall_collisions (App.balls s1))
                = list_sum (map Ball.wall_collisions (App.balls self))).
  { rewrite Hb1. apply sum_moved. reflexivity. }
  assert (Hsb : list_sum (map Ball.ball_collisions (App.balls s1))
                = list_sum (map Ball.ball_collisions (App.balls self))).
  { rewrite Hb1. apply sum_moved. reflexivity. }
  assert (Hl : length (App.balls s1) = length (App.balls self)).
  { rewrite Hb1. apply length_map. }
  rewrite Hb, Hn, Hp, Hc, Hw, Ht.
  destruct (fst c) as [| i [| j [| k ids]]]; try discriminate.
  - apply collide_wall_counts in H2 as (-> & -> & -> & -> & -> & -> & ->).
    repeat split; try congruence. left. exists i. repeat split; congruence.
  - apply collide_balls_counts in H2 as (-> & -> & -> & -> & -> & -> & -> & ->).
    repeat split; try congruence. right. exists i, j. repeat split; congruence.
Qed.

(** X14. One successful call of [collide] is one event: the clock moves
    from [time] to [time + dt], no ball is added or removed, and either
    the event names one ball and [wall_collisions] grows by one while
    [ball_collisions] is kept, or it names two balls and [ball_collisions]
    grows by one while [wall_collisions] and the momentum [delta_p] given
    to the wall are kept. *)
Theorem X14_collide_counts_one_event
  (self self' : App.App) (ids : list nat) (dt : float64) :
  App.collide self (ids, dt) = Ok self' ->
  App.time self' = fadd (App.time self) dt /\
  App.num_balls self' = App.num_balls self /\
  length (App.balls self') = length (App.balls self) /\
  ((exists i, ids = [i] /\
      App.wall_collisions self' = S (App.wall_collisions self) /\
      App.ball_collisions self' = App.ball_collisions self) \/
   (exists i j, ids = [i; j] /\
      App.ball_collisions self' = S (App.ball_collisions self) /\
      App.wall_collisions self' = App.wall_collisions self /\
      App.delta_p self' = App.delta_p self)).
Proof.
  intros H. apply collide_counts in H as (Ht & Hn & Hl & H).
  repeat split; try assumption.
  destruct H as [(i & Hi & Hw & Hb & _) | (i & j & Hij & Hb & Hw & Hp & _)].
  - left. eauto.
  - right. exists i, j. auto.
Qed.

Lemma X14_witness :
  App.time escape_app1 = fadd (App.time escape_app) (Fin 1) /\
  App.num_balls escape_app1 = App.num_balls escape_app /\
  length (App.balls escape_app1) = length (App.balls escape_app) /\
  ((exists i, [1%nat] = [i] /\
      App.wall_collisions escape_app1 = S (App.wall_collisions escape_app) /\
      App.ball_collisions escape_app1 = App.ball_collisions escape_app) \/
   (exists i j, [1%nat] = [i; j] /\
      App.ball_collisions escape_app1 = S (App.ball_collisions escape_app) /\
      App.wall_collisions escape_app1 = App.wall_collisions escape_app /\
      App.delta_p escape_app1 = App.delta_p escape_app)).
Proof.
  apply (X14_collide_counts_one_event escape_app escape_app1 [1%nat] (Fin 1)).
  exact escape_collide.
Defined.

Lemma collide_agree (self self' : App.App) (c : App.collision) :
  App.collide self c = Ok self' -> counters_agree self -> counters_agree self'.
Proof.
  intros H [Hw Hb]. apply collide_counts in H as (_ & _ & _ & H).
  unfold counters_agree.
  destruct H as [(i & _ & Hw' & Hb' & Hsw & Hsb)
                | (i & j & _ & Hb' & Hw' & _ & Hsw & Hsb)]; lia.
Qed.

Lemma render_counts (num_frames : nat) (self self' : App.App) :
  App.render num_frames self = Ok self' ->
  (App.ball_collisions self' + App.wall_collisions self'
   = App.ball_collisions self + App.wall_collisions self + num_frames)%nat /\
  App.num_balls self' = App.num_balls self /\
  length (App.balls self') = length (App.balls self) /\
  (counters_agree self -> counters_agree self').
Proof.
  revert self. induction num_frames as [| n IH]; intros self H.
  - injection H as <-. split; [lia | auto].
  - cbn [App.render] in H.
    apply bind_ok in H as (next & _ & H).
    apply bind_ok in H as (s1 & H1 & H).
    apply IH in H as (Hc & Hn & Hl & Hag).
    pose proof (collide_agree _ _ _ H1) as Hag1.
    apply collide_counts in H1 as (_ & Hn1 & Hl1 & H1).
    split; [| split; [congruence | split; [congruence | tauto]]].
    destruct H1 as [(i & _ & Hw' & Hb' & _) | (i & j & _ & Hb' & Hw' & _)]; lia.
Qed.

Lemma init_counts (container_radius : float64) (balls : list Ball.Ball)
  (self : App.App) :
  App.init container_radius balls = Ok self ->
  App.balls self = balls /\ App.num_balls self = length balls /\
  App.ball_collisions self = 0%nat /\ App.wall_collisions self = 0%nat.
Proof.
  unfold App.init. intros H.
  apply bind_ok in H as (s1 & H1 & H).
  apply init_table_only_tables in H1 as (w & b & ->).
  apply update_state_frame in H as (-> & -> & _ & _ & _ & _ & -> & -> & _).
  repeat split.
Qed.

Lemma sum_zero (g : Ball.Ball -> nat) (l : list Ball.Ball) :
  Forall (fun b => g b = 0%nat) l -> list_sum (map g l) = 0%nat.
Proof.
  induction 1 as [| b l Hb _ IH]; [reflexivity |].
  unfold list_sum in *. cbn [map fold_right]. lia.
Qed.

(** X15. Bookkeeping of a whole run.  When [App.__init__] is given balls
    whose counters are zero, as [Ball.__init__] builds them, and the run
    of [num_frames] frames completes, then the engine has counted exactly
    [num_frames] events, it still holds the same number of balls, the
    wall counters of the balls add up to the engine's [wall_collisions],
    and their ball counters add up to twice its [ball_collisions]. *)
Theorem X15_run_counts_every_frame
  (container_radius : float64) (num_frames : nat) (balls : list Ball.Ball)
  (self : App.App) :
  Forall (fun b => Ball.wall_collisions b = 0%nat) balls ->
  Forall (fun b => Ball.ball_collisions b = 0%nat) balls ->
  App.run container_radius num_frames balls = Ok self ->
  (App.ball_collisions self + App.wall_collisions self = num_frames)%nat /\
  length (App.balls self) = length balls /\
  App.num_balls self = length balls /\
  counters_agree self.
Proof.
  intros Hw Hb H. unfold App.run in H.
  apply bind_ok in H as (s0 & H0 & H).
  apply init_counts in H0 as (Hbs & Hn & Hc & Hwc).
  apply render_counts in H as (Hsum & Hn' & Hl & Hag).
  split; [lia | split; [congruence | split; [congruence |]]].
  apply Hag. unfold counters_agree. rewrite Hbs, Hc, Hwc.
  rewrite (sum_zero _ _ Hw), (sum_zero _ _ Hb). split; reflexivity.
Qed.

Lemma X15_witness :
  (App.ball_collisions escape_app1 + App.wall_collisions escape_app1 = 1)%nat /\
  length (App.balls escape_app1) = length escape_balls /\
  App.num_balls escape_app1 = length escape_balls /\
  counters_agree escape_app1.
Proof.
  apply (X15_run_counts_every_frame (Fin 10) 1 escape_balls escape_app1).
  - repeat constructor.
  - repeat constructor.
  - exact escape_run.
Defined.

(* ================================================================== *)
(** * Kinetic energy across one event *)
(* ================================================================== *)

Lemma update_state_energy (self self' : App.App) (dt : float64) :
  App.update_state self dt = Ok self' ->
  App.kinetic_energy self' = total_kinetic_energy (App.balls self).
Proof.
  unfold App.update_state. intros H.
  apply bind_ok in H as (mean & _ & [= <-]). reflexivity.
Qed.

Lemma ball_as_finite (b : Ball.Ball) (x y ux uy : R) :
  Ball.position b = (Fin x, Fin y) -> Ball.velocity b = (Fin ux, Fin uy) ->
  b = Ball.finite x y ux uy (Ball.mass b) (Ball.radius b)
        (Ball.distance_travelled b) (Ball.ball_collisions b)
        (Ball.wall_collisions b).
Proof. destruct b; cbn. intros -> ->. reflexivity. Qed.

Lemma ke_massive (b : Ball.Ball) (ux uy m : R) :
  Ball.velocity b = (Fin ux, Fin uy) -> Ball.mass b = Fin m ->
  Ball.kinetic_energy b = Fin (1 / 2 * m * (ux * ux + uy * uy)).
Proof.
  intros Hv Hm. unfold Ball.kinetic_energy, dot. rewrite Hv, Hm. reflexivity.
Qed.

Lemma energy_massive (b : Ball.Ball) (ux uy m : R) :
  Ball.velocity b = (Fin ux, Fin uy) -> Ball.mass b = Fin m ->
  energy b = 1 / 2 * m * (ux * ux + uy * uy).
Proof.
  intros Hv Hm. unfold energy. rewrite (ke_massive b ux uy m Hv Hm). reflexivity.
Qed.

Lemma total_fin (l : list Ball.Ball) :
  Forall massive_ball l ->
  forall a, fold_left (fun acc b => fadd acc (Ball.kinetic_energy b)) l (Fin a)
            = Fin (a + energy_sum l).
Proof.
  induction 1 as [| b l (x & y & ux & uy & m & _ & Hv & Hm & _) _ IH]; intros a.
  - cbn. f_equal. lra.
  - cbn [fold_left energy_sum fold_right].
    rewrite (energy_massive b ux uy m Hv Hm), (ke_massive b ux uy m Hv Hm).
    cbn [fadd]. rewrite IH. f_equal. fold (energy_sum l). lra.
Qed.

Lemma total_kinetic_energy_fin (l : list Ball.Ball) :
  Forall massive_ball l -> total_kinetic_energy l = Fin (energy_sum l).
Proof.
  intros H. unfold total_kinetic_energy. rewrite (total_fin l H 0).
  f_equal. lra.
Qed.

Lemma energy_sum_insert (l : list Ball.Ball) (i : nat) (b b' : Ball.Ball) :
  l !! i = Some b ->
  energy_sum (<[i := b']> l) + energy b = energy_sum l + energy b'.
Proof.
  revert i. induction l as [| a l IH]; intros [| i] H; try discriminate.
  - injection H as ->. cbn. lra.
  - cbn in H. specialize (IH i H).
    change (<[Datatypes.S i := b']> (a :: l)) with (a :: <[i := b']> l).
    unfold energy_sum in *. cbn [fold_right]. lra.
Qed.

Lemma energy_sum_moved (l : list Ball.Ball) (dt : float64) :
  energy_sum (map (fun b => Ball.update_position b dt) l) = energy_sum l.
Proof.
  induction l as [| a l IH]; [reflexivity |].
  unfold energy_sum in *. cbn [map fold_right]. rewrite IH. reflexivity.
Qed.

Lemma massive_moved (b : Ball.Ball) (t : R) :
  massive_ball b -> massive_ball (Ball.update_position b (Fin t)).
Proof.
  intros (x & y & ux & uy & m & Hp & Hv & Hm & Hpos).
  exists (x + ux * t), (y + uy * t), ux, uy, m.
  unfold Ball.update_position.
  cbn [Ball.position Ball.velocity Ball.mass]. rewrite Hp, Hv.
  repeat split; assumption.
Qed.

Lemma away_from (x y x' y' : R) :
  (Fin x, Fin y) <> (Fin x', Fin y') -> x <> x' \/ y <> y'.
Proof.
  intros H. destruct (Req_dec x x') as [-> | Hx]; [| left; assumption].
  destruct (Req_dec y y') as [-> | Hy]; [| right; assumption].
  contradiction H. reflexivity.
Qed.

(** The wall rebound of a massive ball away from the centre. *)
Lemma wall_event_energy (b : Ball.Ball) :
  massive_ball b -> Ball.position b <> (Fin 0, Fin 0) ->
  let b' :=
    App.incr_wall (Ball.update_velocity b (Ball.velocity_after_wall_collision b)) in
  massive_ball b' /\ energy b' = energy b.
Proof.
  intros (x & y & ux & uy & m & Hp & Hv & Hm & Hpos) Hc b'.
  rewrite Hp in Hc. apply away_from in Hc.
  assert (Hd : x * x + y * y <> 0) by (apply sum_sqr_nonzero; assumption).
  assert (Hv' : Ball.velocity b'
                = (Fin (ux - x * (2 * (ux * x + uy * y) / (x * x + y * y))),
                   Fin (uy - y * (2 * (ux * x + uy * y) / (x * x + y * y))))).
  { unfold b'. cbn [App.incr_wall Ball.update_velocity Ball.velocity].
    rewrite (ball_as_finite b x y ux uy Hp Hv).
    apply wall_rebound_fin. assumption. }
  split.
  - eexists x, y, _, _, m. repeat split; [exact Hp | exact Hv' | exact Hm | exact Hpos].
  - rewrite (energy_massive b' _ _ m Hv' Hm), (energy_massive b ux uy m Hv Hm).
    field. assumption.
Qed.

(** The rebound of two massive balls at distinct positions. *)
Lemma pair_event_energy (b1 b2 : Ball.Ball) :
  massive_ball b1 -> massive_ball b2 -> Ball.position b1 <> Ball.position b2 ->
  let vs := Ball.velocity_after_ball_collision b1 b2 in
  let b1' := App.incr_ball (Ball.update_velocity b1 (fst vs)) in
  let b2' := App.incr_ball (Ball.update_velocity b2 (snd vs)) in
  massive_ball b1' /\ massive_ball b2' /\
  energy b1' + energy b2' = energy b1 + energy b2.
Proof.
  intros (x1 & y1 & u1 & v1 & m1 & Hp1 & Hv1 & Hm1 & Hpos1)
         (x2 & y2 & u2 & v2 & m2 & Hp2 & Hv2 & Hm2 & Hpos2) Hc vs b1' b2'.
  rewrite Hp1, Hp2 in Hc. apply away_from in Hc.
  assert (Hm : m1 + m2 <> 0) by lra.
  assert (Hd : (x1 - x2) * (x1 - x2) + (y1 - y2) * (y1 - y2) <> 0).
  { apply sum_sqr_nonzero. destruct Hc; [left | right]; lra. }
  assert (E : vs = Ball.velocity_after_ball_collision
                     (Ball.finite x1 y1 u1 v1 (Fin m1) (Ball.radius b1)
                        (Ball.distance_travelled b1) (Ball.ball_collisions b1)
                        (Ball.wall_collisions b1))
                     (Ball.finite x2 y2 u2 v2 (Fin m2) (Ball.radius b2)
                        (Ball.distance_travelled b2) (Ball.ball_collisions b2)
                        (Ball.wall_collisions b2))).
  { unfold vs. rewrite <- Hm1, <- Hm2.
    rewrite <- (ball_as_finite b1 x1 y1 u1 v1 Hp1 Hv1).
    rewrite <- (ball_as_finite b2 x2 y2 u2 v2 Hp2 Hv2). reflexivity. }
  rewrite ball_rebound_fin in E by assumption. cbv zeta in E.
  assert (Hv1' : Ball.velocity b1' = fst vs) by reflexivity.
  assert (Hv2' : Ball.velocity b2' = snd vs) by reflexivity.
  rewrite E in Hv1', Hv2'. cbn [fst snd] in Hv1', Hv2'.
  split; [| split].
  - eexists x1, y1, _, _, m1.
    repeat split; [exact Hp1 | exact Hv1' | exact Hm1 | exact Hpos1].
  - eexists x2, y2, _, _, m2.
    repeat split; [exact Hp2 | exact Hv2' | exact Hm2 | exact Hpos2].
  - rewrite (energy_massive b1' _ _ m1 Hv1' Hm1), (energy_massive b2' _ _ m2 Hv2' Hm2).
    rewrite (energy_massive b1 u1 v1 m1 Hv1 Hm1), (energy_massive b2 u2 v2 m2 Hv2 Hm2).
    field. split; assumption.
Qed.

Lemma lookup_map {A B : Type} (f : A -> B) (l : list A) (i : nat) (c : B) :
  map f l !! i = Some c -> exists b, l !! i = Some b /\ c = f b.
Proof.
  revert i. induction l as [| a l IH]; intros [| i] H; try discriminate.
  - injection H as <-. exists a. split; reflexivity.
  - apply (IH i). exact H.
Qed.

(** One event keeps the sum of the kinetic energies of massive balls. *)
Lemma collide_energy (self self' : App.App) (ids : list nat) (t : R) :
  Forall massive_ball (App.balls self) ->
  App.collide self (ids, Fin t) = Ok self' ->
  (forall i b, ids = [i] -> App.balls self !! i = Some b ->
     Ball.position (Ball.update_position b (Fin t)) <> (Fin 0, Fin 0)) ->
  (forall i j b1 b2, ids = [i; j] ->
     App.balls self !! i = Some b1 -> App.balls self !! j = Some b2 ->
     i <> j /\
     Ball.position (Ball.update_position b1 (Fin t))
     <> Ball.position (Ball.update_position b2 (Fin t))) ->
  App.kinetic_energy self' = total_kinetic_energy (App.balls self) /\
  Forall massive_ball (App.balls self').
Proof.
  intros Hmass H Hwall Hpair. unfold App.collide in H. cbn [fst snd] in H.
  apply bind_ok in H as (s1 & H1 & H).
  apply bind_ok in H as (s2 & H2 & H).
  apply advance_effect in H1 as (Hb1 & _).
  pose proof (update_state_energy _ _ _ H) as He.
  apply update_state_frame in H as (Hb & _).
  assert (Hm1 : Forall massive_ball (App.balls s1)).
  { rewrite Hb1. apply Forall_map.
    eapply Forall_impl; [exact Hmass | intros b; apply massive_moved]. }
  assert (Es1 : energy_sum (App.balls s1) = energy_sum (App.balls self)).
  { rewrite Hb1. apply energy_sum_moved. }
  assert (Goal : Forall massive_ball (App.balls s2) /\
                 energy_sum (App.balls s2) = energy_sum (App.balls self)).
  { destruct ids as [| i [| j [| k ids]]]; try discriminate.
    - apply collide_wall_effect in H2 as (b & Hi & Hbs & _). cbv zeta in Hbs.
      assert (Hmb : massive_ball b) by (eapply Forall_lookup_1; eassumption).
      pose proof Hi as Hi0. rewrite Hb1 in Hi0.
      apply lookup_map in Hi0 as (b0 & Hi0 & ->).
      destruct (wall_event_energy _ Hmb (Hwall i b0 eq_refl Hi0)) as [Hm' He'].
      rewrite Hbs. split; [apply Forall_insert; assumption |].
      pose proof (energy_sum_insert _ _ _
        (App.incr_wall
           (Ball.update_velocity (Ball.update_position b0 (Fin t))
              (Ball.velocity_after_wall_collision
                 (Ball.update_position b0 (Fin t))))) Hi) as Hs.
      lra.
    - assert (Hlook : exists c1 c2,
                 App.balls s1 !! i = Some c1 /\ App.balls s1 !! j = Some c2).
      { unfold App.collide_balls in H2.
        apply bind_ok in H2 as (c1 & Hc1 & H2).
        apply bind_ok in H2 as (c2 & Hc2 & _).
        apply get_item_ok in Hc1. apply get_item_ok in Hc2. eauto. }
      destruct Hlook as (c1 & c2 & Hc1 & Hc2).
      pose proof Hc1 as Hi0. pose proof Hc2 as Hj0. rewrite Hb1 in Hi0, Hj0.
      apply lookup_map in Hi0 as (a1 & Hi0 & ->).
      apply lookup_map in Hj0 as (a2 & Hj0 & ->).
      destruct (Hpair i j a1 a2 eq_refl Hi0 Hj0) as [Hij Hapart].
      apply collide_balls_effect in H2 as (b1 & b2 & Hi & Hj & Hbs & _);
        [| exact Hij].
      cbv zeta in Hbs.
      assert (b1 = Ball.update_position a1 (Fin t)) by congruence.
      assert (b2 = Ball.update_position a2 (Fin t)) by congruence.
      subst b1 b2.
      assert (Hmb1 : massive_ball (Ball.update_position a1 (Fin t)))
        by (eapply Forall_lookup_1; eassumption).
      assert (Hmb2 : massive_ball (Ball.update_position a2 (Fin t)))
        by (eapply Forall_lookup_1; eassumption).
      destruct (pair_event_energy _ _ Hmb1 Hmb2 Hapart) as (Hm1' & Hm2' & He').
      cbv zeta in Hm1', Hm2', He'.
      rewrite Hbs. split; [apply Forall_insert; [apply Forall_insert |]; assumption |].
      set (vs := Ball.velocity_after_ball_collision
                   (Ball.update_position a1 (Fin t))
                   (Ball.update_position a2 (Fin t))) in *.
      pose proof (energy_sum_insert _ _ _
        (App.incr_ball (Ball.update_velocity (Ball.update_position a1 (Fin t)) (fst vs)))
        Hi) as Hs1.
      assert (Hj' : <[i := App.incr_ball
                            (Ball.update_velocity (Ball.update_position a1 (Fin t))
                               (fst vs))]> (App.balls s1) !! j
                    = Some (Ball.update_position a2 (Fin t))).
      { rewrite list_lookup_insert_ne by exact Hij. exact Hj. }
      pose proof (energy_sum_insert _ _ _
        (App.incr_ball (Ball.update_velocity (Ball.update_position a2 (Fin t)) (snd vs)))
        Hj') as Hs2.
      lra. }
  destruct Goal as [Hm2 Es2]. rewrite Hb, He. split; [| exact Hm2].
  rewrite (total_kinetic_energy_fin _ Hm2), (total_kinetic_energy_fin _ Hmass).
  f_equal. exact Es2.
Qed.

(** X17. Kinetic energy across one event, in exact arithmetic (no
    rounding).  For an engine whose balls have finite positions and
    velocities and positive masses, a successful [collide] at a finite
    time stores in [kinetic_energy] the sum of the kinetic energies the
    balls had before the event, provided the geometry of the event is not
    degenerate: a ball that hits the wall is not at the centre of the
    container when it is resolved, and two balls that hit each other are
    distinct and at distinct positions.  Hence [kinetic_energy] is the
    same before and after the event when it was up to date before, and
    the balls remain finite and massive.  In floating point the energy
    is conserved up to rounding only. *)
Theorem X17_collide_conserves_kinetic_energy
  (self self' : App.App) (ids : list nat) (t : R) :
  Forall massive_ball (App.balls self) ->
  App.collide self (ids, Fin t) = Ok self' ->
  (forall i b, ids = [i] -> App.balls self !! i = Some b ->
     Ball.position (Ball.update_position b (Fin t)) <> (Fin 0, Fin 0)) ->
  (forall i j b1 b2, ids = [i; j] ->
     App.balls self !! i = Some b1 -> App.balls self !! j = Some b2 ->
     i <> j /\
     Ball.position (Ball.update_position b1 (Fin t))
     <> Ball.position (Ball.update_position b2 (Fin t))) ->
  App.kinetic_energy self' = total_kinetic_energy (App.balls self) /\
  (App.kinetic_energy self = total_kinetic_energy (App.balls self) ->
   App.kinetic_energy self' = App.kinetic_energy self) /\
  Forall massive_ball (App.balls self').
Proof.
  intros Hmass H Hwall Hpair.
  destruct (collide_energy self self' ids t Hmass H Hwall Hpair) as [He Hm].
  split; [exact He | split; [congruence | exact Hm]].
Qed.

Lemma escape_balls_massive : Forall massive_ball escape_balls.
Proof.
  unfold escape_balls.
  repeat constructor.
  - exists 9, 0, 1, 0, 1. repeat split. lra.
  - exists 0, 0, 0, 9, 1. repeat split. lra.
Qed.

Lemma X17_witness :
  App.kinetic_energy escape_app1 = total_kinetic_energy (App.balls escape_app) /\
  (App.kinetic_energy escape_app = total_kinetic_energy (App.balls escape_app) ->
   App.kinetic_energy escape_app1 = App.kinetic_energy escape_app) /\
  Forall massive_ball (App.balls escape_app1).
Proof.
  apply (X17_collide_conserves_kinetic_energy escape_app escape_app1 [1%nat] 1).
  - exact escape_balls_massive.
  - exact escape_collide.
  - intros i b [= <-] Hb. cbn in Hb. injection Hb as <-.
    cbn. intros [= H0 H1]. lra.
  - intros i j b1 b2 [=].
Defined.

(* ================================================================== *)
(** * Momentum given to the wall *)
(* ================================================================== *)

Lemma impulse_length (x y ux uy m : R) :
  x * x + y * y <> 0 ->
  let k := 2 * (ux * x + uy * y) / (x * x + y * y) in
  let a := m * (ux - x * k - ux) in
  let b := m * (uy - y * k - uy) in
  sqrt (a * a + b * b)
  = 2 * Rabs m * Rabs (ux * x + uy * y) / sqrt (x * x + y * y).
Proof.
  intros Hd k a b.
  assert (HN : 0 < x * x + y * y) by nra.
  pose proof (sqrt_lt_R0 _ HN) as HsN.
  pose proof (sqrt_sqrt (x * x + y * y) (Rlt_le _ _ HN)) as Hss.
  pose proof (Rabs_pos m) as Hm. pose proof (Rabs_sqr m) as Hmm.
  pose proof (Rabs_pos (ux * x + uy * y)) as HD.
  pose proof (Rabs_sqr (ux * x + uy * y)) as HDD.
  set (sN := sqrt (x * x + y * y)) in *.
  set (Am := Rabs m) in *. set (AD := Rabs (ux * x + uy * y)) in *.
  apply sqrt_of_square.
  - apply Rmult_le_pos; [| left; apply Rinv_0_lt_compat; assumption].
    apply Rmult_le_pos; [lra | assumption].
  - replace (2 * Am * AD / sN * (2 * Am * AD / sN))
      with (4 * (Am * Am) * (AD * AD) / (sN * sN)) by (field; lra).
    rewrite Hmm, HDD, Hss. unfold a, b, k. field. assumption.
Qed.

(** The momentum that a wall rebound hands to the wall. *)
Lemma wall_impulse (b : Ball.Ball) (x y ux uy m : R) :
  Ball.position b = (Fin x, Fin y) -> Ball.velocity b = (Fin ux, Fin uy) ->
  Ball.mass b = Fin m -> x <> 0 \/ y <> 0 ->
  norm (smul (Ball.mass b)
          (vsub (Ball.velocity_after_wall_collision b) (Ball.velocity b)))
  = Fin (2 * Rabs m * Rabs (ux * x + uy * y) / sqrt (x * x + y * y)).
Proof.
  intros Hp Hv Hm Hc.
  assert (Hd : x * x + y * y <> 0) by (apply sum_sqr_nonzero; assumption).
  rewrite Hm, Hv.
  rewrite (ball_as_finite b x y ux uy Hp Hv), wall_rebound_fin by assumption.
  unfold smul, vsub, fsub. cbn [fst snd fmul fadd fneg].
  rewrite norm_fin. f_equal.
  rewrite <- (impulse_length x y ux uy m Hd). cbv zeta. reflexivity.
Qed.

(** X16. Momentum given to the wall, in exact arithmetic (no rounding).
    When [collide] resolves the wall event of ball [i] at a finite time,
    and that ball (finite position, velocity and mass) is at [(x, y)],
    away from the centre, when it is resolved, then [delta_p] grows by
    the norm of [m (v - u)], which is [2 |m| |u . r| / |r|]: twice the
    mass times the speed along the radius.  The increment is never
    negative.  In floating point the closed form holds up to rounding
    only. *)
Theorem X16_wall_event_impulse
  (self self' : App.App) (i : nat) (t : R) (b : Ball.Ball) (x y ux uy m : R) :
  App.collide self ([i], Fin t) = Ok self' ->
  App.balls self !! i = Some b ->
  Ball.position (Ball.update_position b (Fin t)) = (Fin x, Fin y) ->
  Ball.velocity b = (Fin ux, Fin uy) ->
  Ball.mass b = Fin m ->
  x <> 0 \/ y <> 0 ->
  let impulse := 2 * Rabs m * Rabs (ux * x + uy * y) / sqrt (x * x + y * y) in
  App.delta_p self' = fadd (App.delta_p self) (Fin impulse) /\ 0 <= impulse.
Proof.
  intros H Hb Hp Hv Hm Hc impulse. split.
  - unfold App.collide in H. cbn [fst snd] in H.
    apply bind_ok in H as (s1 & H1 & H).
    apply bind_ok in H as (s2 & H2 & H).
    apply advance_effect in H1 as (Hb1 & _ & _ & Hp1 & _).
    apply update_state_frame in H as (_ & _ & _ & _ & _ & -> & _).
    apply collide_wall_effect in H2 as (c & Hc1 & _ & -> & _).
    rewrite Hb1 in Hc1. apply lookup_map in Hc1 as (b0 & Hb0 & ->).
    assert (b0 = b) by congruence. subst b0.
    rewrite Hp1. f_equal.
    apply (wall_impulse _ x y ux uy m); assumption.
  - assert (Hd : 0 < x * x + y * y).
    { pose proof (sum_sqr_nonzero x y Hc). nra. }
    pose proof (sqrt_lt_R0 _ Hd). pose proof (Rabs_pos m).
    pose proof (Rabs_pos (ux * x + uy * y)).
    unfold impulse. apply Rmult_le_pos.
    + apply Rmult_le_pos; [lra | assumption].
    + left. apply Rinv_0_lt_compat. assumption.
Qed.

Lemma X16_witness :
  App.delta_p escape_app1
  = fadd (App.delta_p escape_app)
      (Fin (2 * Rabs 1 * Rabs (0 * (0 + 0 * 1) + 9 * (0 + 9 * 1))
            / sqrt ((0 + 0 * 1) * (0 + 0 * 1) + (0 + 9 * 1) * (0 + 9 * 1)))) /\
  0 <= 2 * Rabs 1 * Rabs (0 * (0 + 0 * 1) + 9 * (0 + 9 * 1))
       / sqrt ((0 + 0 * 1) * (0 + 0 * 1) + (0 + 9 * 1) * (0 + 9 * 1)).
Proof.
  apply (X16_wall_event_impulse escape_app escape_app1 1 1
           (unit_ball 0 0 0 9) (0 + 0 * 1) (0 + 9 * 1) 0 9 1).
  - exact escape_collide.
  - reflexivity.
  - reflexivity.
  - reflexivity.
  - reflexivity.
  - right. lra.
Defined.

(* ================================================================== *)
(** * The shapes of the tables along a run *)
(* ================================================================== *)

Lemma update_table_shape (n : nat) (self self' : App.App) (dt : float64) :
  App.update_table self dt = Ok self' ->
  length (App.b2w_table self) = n /\ square n (App.b2b_table self) ->
  length (App.b2w_table self') = n /\ square n (App.b2b_table self').
Proof.
  unfold App.update_table. intros Hrun Hs. revert Hrun.
  set (s0 := App.with_b2w self _).
  apply (for_each_inv
    (fun s => length (App.b2w_table s) = n /\ square n (App.b2b_table s))).
  2:{ unfold s0. cbn [App.b2w_table App.b2b_table App.with_b2w].
      rewrite length_map. exact Hs. }
  intros i s s1 _ Hi.
  apply (for_each_inv
    (fun s => length (App.b2w_table s) = n /\ square n (App.b2b_table s)));
    [| exact Hi].
  intros j s2 s3 _ [Hw Hsq] Hin.
  apply bind_ok in Hin as (? & _ & Hin).
  apply bind_ok in Hin as (b2b & Hset & [= <-]).
  cbn [App.b2w_table App.b2b_table App.with_b2b].
  split; [exact Hw | eapply set_item2_square; eassumption].
Qed.

Lemma recalculate_shape (n : nat) (self self' : App.App) (ball_ids : list nat) :
  App.recalculate_collision self ball_ids = Ok self' ->
  length (App.b2w_table self) = n /\ square n (App.b2b_table self) ->
  length (App.b2w_table self') = n /\ square n (App.b2b_table self').
Proof.
  unfold App.recalculate_collision. intros Hrun Hs. revert Hrun.
  apply (for_each_inv
    (fun s => length (App.b2w_table s) = n /\ square n (App.b2b_table s)));
    [| exact Hs].
  intros i s s1 _ [Hw Hsq] Hbody.
  apply bind_ok in Hbody as (? & _ & Hbody).
  apply bind_ok in Hbody as (? & _ & Hbody).
  apply bind_ok in Hbody as (b2w & Hset & Hbody).
  apply set_item_ok in Hset as [_ ->].
  revert Hbody.
  apply (for_each_inv
    (fun s => length (App.b2w_table s) = n /\ square n (App.b2b_table s))).
  2:{ cbn [App.b2w_table App.b2b_table App.with_b2w].
      rewrite length_insert. auto. }
  intros j s2 s3 _ [Hw2 Hsq2] Hin.
  destruct (decide (i <> j)).
  - apply bind_ok in Hin as (? & _ & Hin).
    apply bind_ok in Hin as (? & _ & Hin).
    apply bind_ok in Hin as (? & _ & Hin).
    apply bind_ok in Hin as (b2b & Hset & [= <-]).
    cbn [App.b2w_table App.b2b_table App.with_b2b].
    split; [exact Hw2 | eapply set_item2_square; eassumption].
  - injection Hin as <-. auto.
Qed.

Lemma collide_shape (self self' : App.App) (c : App.collision) :
  App.collide self c = Ok self' -> well_shaped self -> well_shaped self'.
Proof.
  intros H (Hb & Hw & Hsq).
  pose proof (collide_counts _ _ _ H) as (_ & Hn & Hl & _).
  unfold well_shaped. rewrite Hn, Hl. split; [exact Hb |].
  unfold App.collide in H.
  apply bind_ok in H as (s1 & H1 & H).
  apply bind_ok in H as (s2 & H2 & H).
  apply update_state_frame in H as (_ & _ & _ & -> & -> & _).
  unfold App.advance in H1. apply bind_ok in H1 as (s0 & H0 & [= <-]).
  pose proof (update_table_shape _ _ _ _ H0 (conj Hw Hsq)) as Hs1.
  change (length (App.b2w_table (App.with_balls s0
            (map (fun b => Ball.update_position b (snd c)) (App.balls s0))))
          = App.num_balls self /\
          square (App.num_balls self) (App.b2b_table (App.with_balls s0
            (map (fun b => Ball.update_position b (snd c)) (App.balls s0)))))
    in Hs1.
  revert H2 Hs1.
  generalize (App.with_balls s0
                (map (fun b => Ball.update_position b (snd c)) (App.balls s0))).
  intros s1 H2 Hs1.
  destruct (fst c) as [| i [| j [| k ids]]]; try discriminate.
  - unfold App.collide_wall in H2.
    apply bind_ok in H2 as (b & _ & H2).
    apply bind_ok in H2 as (sa & Ha & H2).
    apply bind_ok in H2 as (sb & Hb' & H2).
    apply bind_ok in H2 as (sc & Hc & [= <-]).
    apply modify_ball_only_balls in Ha as (? & _ & ->).
    apply (recalculate_shape (App.num_balls self)) in Hb'; [| exact Hs1].
    apply modify_ball_only_balls in Hc as (? & _ & ->). exact Hb'.
  - unfold App.collide_balls in H2.
    apply bind_ok in H2 as (b1 & _ & H2).
    apply bind_ok in H2 as (b2 & _ & H2).
    apply bind_ok in H2 as (sa & Ha & H2).
    apply bind_ok in H2 as (sb & Hb' & H2).
    apply bind_ok in H2 as (sc & Hc & H2).
    apply bind_ok in H2 as (sd & Hd & H2).
    apply bind_ok in H2 as (se & He & [= <-]).
    apply modify_ball_only_balls in Ha as (? & _ & ->).
    apply modify_ball_only_balls in Hb' as (? & _ & ->).
    apply (recalculate_shape (App.num_balls self)) in Hc; [| exact Hs1].
    apply modify_ball_only_balls in Hd as (? & _ & ->).
    apply modify_ball_only_balls in He as (? & _ & ->). exact Hc.
Qed.

Lemma render_shape (num_frames : nat) (self self' : App.App) :
  App.render num_frames self = Ok self' ->
  well_shaped self -> upper_triangular (App.b2b_table self) ->
  well_shaped self' /\ upper_triangular (App.b2b_table self').
Proof.
  revert self. induction num_frames as [| n IH]; intros self H Hs Hu.
  - injection H as <-. auto.
  - cbn [App.render] in H.
    apply bind_ok in H as (next & _ & H).
    apply bind_ok in H as (s1 & H1 & H).
    apply (IH s1 H).
    + eapply collide_shape; eassumption.
    + eapply collide_upper; eassumption.
Qed.

Lemma init_table_shape (n : nat) (self self' : App.App) :
  App.init_table self = Ok self' ->
  length (App.b2w_table self) = n /\ square n (App.b2b_table self) ->
  length (App.b2w_table self') = n /\ square n (App.b2b_table self').
Proof.
  unfold App.init_table. intros Hrun Hs. revert Hrun.
  apply (for_each_inv
    (fun s => length (App.b2w_table s) = n /\ square n (App.b2b_table s)));
    [| exact Hs].
  intros i s s1 _ [Hw Hsq] Hbody.
  apply bind_ok in Hbody as (? & _ & Hbody).
  apply bind_ok in Hbody as (? & _ & Hbody).
  apply bind_ok in Hbody as (b2w & Hset & Hbody).
  apply set_item_ok in Hset as [_ ->].
  revert Hbody.
  apply (for_each_inv
    (fun s => length (App.b2w_table s) = n /\ square n (App.b2b_table s))).
  2:{ cbn [App.b2w_table App.b2b_table App.with_b2w].
      rewrite length_insert. auto. }
  intros j s2 s3 _ [Hw2 Hsq2] Hin.
  apply bind_ok in Hin as (? & _ & Hin).
  apply bind_ok in Hin as (? & _ & Hin).
  apply bind_ok in Hin as (? & _ & Hin).
  apply bind_ok in Hin as (b2b & Hset & [= <-]).
  cbn [App.b2w_table App.b2b_table App.with_b2b].
  split; [exact Hw2 | eapply set_item2_square; eassumption].
Qed.

Lemma init_shape (container_radius : float64) (balls : list Ball.Ball)
  (self : App.App) :
  App.init container_radius balls = Ok self -> well_shaped self.
Proof.
  intros H. pose proof (init_counts _ _ _ H) as (Hb & Hn & _).
  unfold App.init in H.
  apply bind_ok in H as (s1 & H1 & H).
  apply update_state_frame in H as (_ & _ & _ & Hbb & Hbw & _).
  apply (init_table_shape (length balls)) in H1.
  2:{ cbn [App.b2w_table App.b2b_table]. split.
      - apply length_replicate.
      - apply square_full. }
  unfold well_shaped. rewrite Hb, Hn, Hbb, Hbw. split; [reflexivity | exact H1].
Qed.

(** X18. The shapes of the tables are an invariant of the engine.  A
    well-shaped engine ([num_balls] balls, a wall table of that length, a
    [num_balls] by [num_balls] pairwise table) is still well-shaped after
    a successful [collide]; and whenever [App.__init__] and its event
    loop complete on a list of balls, the final engine is well-shaped
    for exactly that number of balls, with a pairwise table that is still
    [+inf] on and below the diagonal. *)
Theorem X18_table_shapes_are_invariant :
  (forall (self self' : App.App) (c : App.collision),
      well_shaped self -> App.collide self c = Ok self' -> well_shaped self') /\
  (forall (container_radius : float64) (num_frames : nat)
          (balls : list Ball.Ball) (self : App.App),
      App.run container_radius num_frames balls = Ok self ->
      well_shaped self /\ App.num_balls self = length balls /\
      upper_triangular (App.b2b_table self)).
Proof.
  split.
  - intros self self' c Hs H. eapply collide_shape; eassumption.
  - intros R n balls self H. unfold App.run in H.
    apply bind_ok in H as (s0 & H0 & H).
    pose proof (init_shape _ _ _ H0) as Hs0.
    pose proof (init_upper _ _ _ H0) as Hu0.
    apply init_counts in H0 as (_ & Hn0 & _).
    pose proof (render_counts _ _ _ H) as (_ & Hn & _).
    destruct (render_shape _ _ _ H Hs0 Hu0) as [Hs Hu].
    split; [exact Hs | split; [congruence | exact Hu]].
Qed.

Lemma X18_witness :
  well_shaped escape_app1 /\ App.num_balls escape_app1 = length escape_balls /\
  upper_triangular (App.b2b_table escape_app1).
Proof.
  destruct X18_table_shapes_are_invariant as [_ H].
  apply (H (Fin 10) 1%nat escape_balls escape_app1). exact escape_run.
Defined.

(* ================================================================== *)
(** * InitialState: the search for a position *)
(* ================================================================== *)

Lemma position_loop_unfold (rng : InitialState.Random)
  (self : InitialState.InitialState) (bounds : R) (r : float64)
  (timeout drawn : nat) :
  InitialState.position_loop rng self bounds r timeout drawn
  = if InitialState.stops self (S timeout)
         (InitialState.draw_position rng bounds drawn) r
    then (S timeout, InitialState.draw_position rng bounds drawn, S drawn)
    else InitialState.position_loop rng self bounds r (S timeout) (S drawn).
Proof.
  funelim (InitialState.position_loop rng self bounds r timeout drawn);
    match goal with
    | E : InitialState.stops _ _ _ _ = _ |- _ => rewrite E; reflexivity
    end.
Qed.

(** The loop breaks at the first draw at which its test holds. *)
Lemma position_loop_first (rng : InitialState.Random)
  (self : InitialState.InitialState) (bounds : R) (r : float64) :
  forall (n timeout drawn : nat),
    (S InitialState.max_attempts - timeout <= n)%nat ->
    exists k,
      InitialState.position_loop rng self bounds r timeout drawn
      = (S (timeout + k), InitialState.draw_position rng bounds (drawn + k),
         S (drawn + k)) /\
      InitialState.stops self (S (timeout + k))
        (InitialState.draw_position rng bounds (drawn + k)) r = true /\
      forall i, (i < k)%nat ->
        InitialState.stops self (S (timeout + i))
          (InitialState.draw_position rng bounds (drawn + i)) r = false.
Proof.
  induction n as [| n IH]; intros timeout drawn Hn;
    rewrite position_loop_unfold;
    destruct (InitialState.stops self (S timeout)
                (InitialState.draw_position rng bounds drawn) r) eqn:E.
  - exists 0%nat. rewrite !Nat.add_0_r. split; [reflexivity |].
    split; [exact E | intros i Hi; lia].
  - unfold InitialState.stops in E. apply orb_false_elim in E as [E _].
    apply Nat.ltb_ge in E. lia.
  - exists 0%nat. rewrite !Nat.add_0_r. split; [reflexivity |].
    split; [exact E | intros i Hi; lia].
  - assert (Ht : (S timeout <= InitialState.max_attempts)%nat).
    { unfold InitialState.stops in E. apply orb_false_elim in E as [E' _].
      apply Nat.ltb_ge in E'. exact E'. }
    destruct (IH (S timeout) (S drawn)) as (k & Hk & Hstop & Hbefore); [lia |].
    exists (S k).
    replace (timeout + S k)%nat with (S timeout + k)%nat by lia.
    replace (drawn + S k)%nat with (S drawn + k)%nat by lia.
    split; [exact Hk | split; [exact Hstop |]].
    intros [| i] Hi.
    + rewrite !Nat.add_0_r. exact E.
    + replace (timeout + S i)%nat with (S timeout + i)%nat by lia.
      replace (drawn + S i)%nat with (S drawn + i)%nat by lia.
      apply Hbefore. lia.
Qed.

Lemma stops_true (self : InitialState.InitialState) (timeout : nat)
  (position : vec) (r : R) :
  InitialState.stops self timeout position (Fin r) = true <->
  (InitialState.max_attempts < timeout)%nat \/ position_accepted self position r.
Proof.
  unfold InitialState.stops, position_accepted.
  rewrite orb_true_iff, andb_true_iff, Nat.ltb_lt.
  destruct (InitialState.is_colliding self position (Fin r)),
           (InitialState.is_outside_container self position (Fin r));
    cbn; intuition congruence.
Qed.

Lemma stops_false (self : InitialState.InitialState) (timeout : nat)
  (position : vec) (r : R) :
  InitialState.stops self timeout position (Fin r) = false <->
  (timeout <= InitialState.max_attempts)%nat /\
  ~ position_accepted self position r.
Proof.
  pose proof (stops_true self timeout position r) as H.
  destruct (InitialState.stops self timeout position (Fin r)).
  - split; [discriminate |]. intros [Ht Hn].
    destruct (proj1 H eq_refl) as [H1 | H1]; [lia | contradiction].
  - split; [| reflexivity]. intros _. split.
    + destruct (le_lt_dec timeout InitialState.max_attempts) as [Hle | Hlt];
        [exact Hle |].
      assert (false = true) by (apply H; left; exact Hlt). discriminate.
    + intros Ha. assert (false = true) by (apply H; right; exact Ha).
      discriminate.
Qed.

(** [generate_position] in one statement: it looks at the draws in order,
    returns the first accepted one among the first [max_attempts], and
    raises when there is none. *)
Lemma generate_position_spec (rng : InitialState.Random)
  (self : InitialState.InitialState) (Rc r : R) :
  let draw k :=
    InitialState.draw_position rng (Rc - r)
      (InitialState.positions_drawn self + k) in
  exists k,
    (forall i, (i < k)%nat -> ~ position_accepted self (draw i) r) /\
    (((k < InitialState.max_attempts)%nat /\ position_accepted self (draw k) r /\
      InitialState.generate_position rng self Rc r
      = Ok (draw k,
            InitialState.with_positions_drawn self
              (S (InitialState.positions_drawn self + k)))) \/
     (k = InitialState.max_attempts /\
      InitialState.generate_position rng self Rc r
      = Raise (Exception InitialState.too_many_balls))).
Proof.
  intros draw.
  destruct (position_loop_first rng self (Rc - r) (Fin r)
              (S InitialState.max_attempts) 0
              (InitialState.positions_drawn self))
    as (k & Hk & Hstop & Hbefore); [lia |].
  cbn [Nat.add] in Hk, Hstop, Hbefore.
  assert (Hrej : forall i, (i < k)%nat ->
            (S i <= InitialState.max_attempts)%nat /\
            ~ position_accepted self (draw i) r).
  { intros i Hi. apply stops_false. apply Hbefore. exact Hi. }
  exists k. split; [intros i Hi; apply Hrej; exact Hi |].
  unfold InitialState.generate_position. rewrite Hk.
  destruct (le_lt_dec InitialState.max_attempts k) as [Hge | Hlt].
  - right.
    assert (k = InitialState.max_attempts).
    { destruct (Nat.eq_dec k InitialState.max_attempts) as [E | E]; [exact E |].
      destruct (Hrej InitialState.max_attempts) as [Hbad _]; lia. }
    subst k. split; [reflexivity |].
    replace (InitialState.max_attempts <? S InitialState.max_attempts)%nat
      with true by (symmetry; apply Nat.ltb_lt; lia).
    reflexivity.
  - left. split; [exact Hlt |].
    apply stops_true in Hstop as [Hbad | Hacc]; [lia |].
    split; [exact Hacc |].
    replace (InitialState.max_attempts <? S k)%nat
      with false by (symmetry; apply Nat.ltb_ge; lia).
    reflexivity.
Qed.

Lemma generate_position_accepts (rng : InitialState.Random)
  (self : InitialState.InitialState) (Rc r : R) (k : nat) :
  let draw k :=
    InitialState.draw_position rng (Rc - r)
      (InitialState.positions_drawn self + k) in
  (k < InitialState.max_attempts)%nat ->
  (forall i, (i < k)%nat -> ~ position_accepted self (draw i) r) ->
  position_accepted self (draw k) r ->
  InitialState.generate_position rng self Rc r
  = Ok (draw k,
        InitialState.with_positions_drawn self
          (S (InitialState.positions_drawn self + k))).
Proof.
  intros draw Hk Hrej Hok.
  destruct (generate_position_spec rng self Rc r)
    as (k0 & Hbefore & [(Hlt & Hacc & Hrun) | (Hk0 & Hrun)]).
  - assert (k = k0).
    { destruct (lt_eq_lt_dec k k0) as [[Hl | He] | Hg]; [| exact He |].
      - destruct (Hbefore k Hl). exact Hok.
      - destruct (Hrej k0 Hg). exact Hacc. }
    subst k. exact Hrun.
  - subst k0. destruct (Hbefore k Hk). exact Hok.
Qed.

Lemma generate_position_rejects (rng : InitialState.Random)
  (self : InitialState.InitialState) (Rc r : R) :
  (forall i, (i < InitialState.max_attempts)%nat ->
     ~ position_accepted self
         (InitialState.draw_position rng (Rc - r)
            (InitialState.positions_drawn self + i)) r) ->
  InitialState.generate_position rng self Rc r
  = Raise (Exception InitialState.too_many_balls).
Proof.
  intros Hrej.
  destruct (generate_position_spec rng self Rc r)
    as (k0 & Hbefore & [(Hlt & Hacc & Hrun) | (Hk0 & Hrun)]).
  - destruct (Hrej k0 Hlt). exact Hacc.
  - exact Hrun.
Qed.

(** X19. [generate_position] returns the first acceptable draw and gives
    up after exactly 500 rejected ones.  Writing [draw k] for the
    [k]-th position drawn in the call: if [draw k], [k < 500], is
    accepted (no collision with an earlier ball, not outside the
    container) and every earlier draw is rejected, the call returns
    [draw k] after [k + 1] draws; if the first 500 draws are all rejected
    the call raises the too-many-balls exception, whatever the 501st
    draw, which the loop still makes, is. *)
Theorem X19_generate_position_first_accepted_draw
  (rng : InitialState.Random) (self : InitialState.InitialState) (Rc r : R) :
  let draw k :=
    InitialState.draw_position rng (Rc - r)
      (InitialState.positions_drawn self + k) in
  (forall k, (k < 500)%nat ->
     (forall i, (i < k)%nat -> ~ position_accepted self (draw i) r) ->
     position_accepted self (draw k) r ->
     InitialState.generate_position rng self Rc r
     = Ok (draw k,
           InitialState.with_positions_drawn self
             (S (InitialState.positions_drawn self + k)))) /\
  ((forall i, (i < 500)%nat -> ~ position_accepted self (draw i) r) ->
   InitialState.generate_position rng self Rc r
   = Raise (Exception InitialState.too_many_balls)).
Proof.
  intros draw. split.
  - intros k Hk Hrej Hok.
    apply (generate_position_accepts rng self Rc r k); assumption.
  - intros Hrej. apply generate_position_rejects. exact Hrej.
Qed.


Lemma outside_false (self : InitialState.InitialState) (a c r : R) :
  InitialState.is_outside_container self (Fin a, Fin c) (Fin r) = false <->
  sqrt (a * a + c * c) + r < InitialState.container_radius self.
Proof.
  unfold InitialState.is_outside_container. rewrite norm_fin.
  cbn [fadd fle]. unfold Rltb.
  destruct (Rlt_dec (sqrt (a * a + c * c) + r) (InitialState.container_radius self));
    cbn; split; intros H; try assumption; try reflexivity;
    try discriminate; contradiction.
Qed.






Lemma sample_first_position :
  position_accepted sample_state (Fin 0, Fin 0) 1.
Proof.
  split; [reflexivity |]. apply outside_false.
  cbn [sample_state InitialState.container_radius].
  rewrite (sqrt_of_square _ 0) by lra. lra.
Qed.

Lemma X19_witness :
  InitialState.generate_position sample_rng sample_state 10 1
  = Ok ((Fin 0, Fin 0), InitialState.with_positions_drawn sample_state 1).
Proof.
  destruct (X19_generate_position_first_accepted_draw sample_rng sample_state 10 1)
    as [H _].
  apply (H 0%nat).
  - lia.
  - intros i Hi. lia.
  - exact sample_first_position.
Defined.







(** X21. Every generated velocity has the configured speed, in exact
    arithmetic (no rounding, no overflow of [rms_speed ** 2]).  When the
    first component [u] drawn by [generate_velocity] satisfies
    [u^2 <= rms_speed^2] (as a draw from [uniform(-speed, speed)] does),
    the velocity is [(u, w)] with [u^2 + w^2 = rms_speed^2], so that its
    norm is [|rms_speed|], and [w] has the sign that [random.choice]
    picked; one more velocity draw is counted.  Outside that range the
    second component is [nan].  In floating point the speed is
    [|rms_speed|] up to rounding only. *)
Theorem X21_generated_velocity_has_rms_speed
  (rng : InitialState.Random) (self : InitialState.InitialState) :
  let s := InitialState.rms_speed self in
  let k := InitialState.velocities_drawn self in
  let u := InitialState.uniform rng (- s) s k in
  let v := fst (InitialState.generate_velocity rng self) in
  (u * u <= s * s ->
   exists w, v = (Fin u, Fin w) /\ u * u + w * w = s * s /\
             norm v = Fin (Rabs s) /\
             (if InitialState.choice rng k then 0 <= w else w <= 0)) /\
  (s * s < u * u -> v = (Fin u, NaN)) /\
  InitialState.velocities_drawn (snd (InitialState.generate_velocity rng self))
  = S k.
Proof.
  intros s k u v. unfold v, InitialState.generate_velocity, fsquare, fsub.
  fold s k. fold u. cbn [fst snd fmul fneg fadd fsqrt]. split; [| split].
  - intros Hu. rewrite Rltb_false by lra.
    assert (Hd : 0 <= s * s + - (u * u)) by lra.
    pose proof (sqrt_sqrt _ Hd) as Hss. pose proof (sqrt_pos (s * s + - (u * u))) as Hp.
    set (q := sqrt (s * s + - (u * u))) in *.
    assert (Hn : forall w, w * w = q * q -> norm (Fin u, Fin w) = Fin (Rabs s)).
    { intros w Hw. rewrite norm_fin. f_equal. apply sqrt_of_square.
      - apply Rabs_pos.
      - rewrite Rabs_sqr. lra. }
    destruct (InitialState.choice rng k); cbn [fmul].
    + exists (1 * q). split; [reflexivity |].
      split; [nra |]. split; [apply Hn; ring | lra].
    + exists (- 1 * q). split; [reflexivity |].
      split; [nra |]. split; [apply Hn; ring | lra].
  - intros Hu. rewrite Rltb_true by lra.
    destruct (InitialState.choice rng k); reflexivity.
  - reflexivity.
Qed.

Lemma X21_witness :
  exists w,
    fst (InitialState.generate_velocity sample_rng sample_state) = (Fin 3, Fin w) /\
    3 * 3 + w * w = 5 * 5 /\
    norm (fst (InitialState.generate_velocity sample_rng sample_state))
    = Fin (Rabs 5) /\
    0 <= w.
Proof.
  destruct (X21_generated_velocity_has_rms_speed sample_rng sample_state)
    as [H _].
  apply H. cbn. lra.
Defined.

Lemma oversized_never_accepted (self : InitialState.InitialState)
  (rng : InitialState.Random) (bounds r : R) (k : nat) :
  InitialState.container_radius self <= r ->
  ~ position_accepted self (InitialState.draw_position rng bounds k) r.
Proof.
  intros Hr [_ Hout]. unfold InitialState.draw_position in Hout.
  apply outside_false in Hout.
  match type of Hout with sqrt ?e + _ < _ => pose proof (sqrt_pos e) end.
  lra.
Qed.

(** X22. A ball that is not smaller than the container is never placed.
    When [default_radius >= container_radius] and at least one ball is
    requested, [InitialState.__init__] raises the too-many-balls
    exception, whatever the random draws are and whether or not the
    output file can be written: every drawn position is rejected as
    outside the container, 500 times. *)
Theorem X22_oversized_ball_is_never_placed
  (rng : InitialState.Random) (container_radius : R) (writable : bool)
  (num_balls : nat) (default_mass : float64) (default_radius rms_speed : R) :
  container_radius <= default_radius ->
  (0 < num_balls)%nat ->
  InitialState.init rng container_radius writable num_balls default_mass
    default_radius rms_speed
  = Raise (Exception InitialState.too_many_balls).
Proof.
  intros Hr Hn. destruct num_balls as [| n]; [lia |].
  unfold InitialState.init.
  cbn [range Nat.sub seq for_each].
  unfold InitialState.generate_ball at 1.
  cbn [InitialState.container_radius InitialState.default_radius].
  rewrite generate_position_rejects; [reflexivity |].
  intros i _. apply oversized_never_accepted. exact Hr.
Qed.

Lemma X22_witness :
  InitialState.init sample_rng 1 true 1 (Fin 1) 1 5
  = Raise (Exception InitialState.too_many_balls).
Proof.
  apply (X22_oversized_ball_is_never_placed sample_rng 1 true 1 (Fin 1) 1 5).
  - lra.
  - lia.
Defined.

(* ================================================================== *)
(** * ParseState: from the file to the balls *)
(* ================================================================== *)

Lemma bind_raise {A B} (m : result A) (k : A -> result B) (e : exn) :
  bind m k = Raise e -> m = Raise e \/ exists a, m = Ok a /\ k a = Raise e.
Proof.
  destruct m as [a | e']; cbn; intros H; [right; eauto | left; congruence].
Qed.

Lemma for_each_raise {A S} (xs : list A) (body : A -> S -> result S) :
  forall (s : S) (e : exn),
    for_each xs body s = Raise e ->
    exists x s0, In x xs /\ body x s0 = Raise e.
Proof.
  induction xs as [| x xs IH]; intros s e H; cbn in H; [discriminate |].
  apply bind_raise in H as [H | (s1 & _ & H)].
  - exists x, s. split; [left; reflexivity | exact H].
  - destruct (IH s1 e H) as (y & s0 & Hy & Hb).
    exists y, s0. split; [right; exact Hy | exact Hb].
Qed.

Lemma get_item_raise {A} (l : list A) (i : nat) (e : exn) :
  get_item l i = Raise e -> e = IndexError /\ (length l <= i)%nat.
Proof.
  unfold get_item. destruct (l !! i) eqn:E; [discriminate |].
  intros [= <-]. split; [reflexivity |]. apply lookup_ge_None. exact E.
Qed.

(** One row: the body of the loop of [ParseState.__init__]. *)
Lemma parse_row_ok (float : string -> result float64) (ball : list string)
  (balls out : list Ball.Ball) :
  (s <- get_item ball 0 ;; x <- float s ;;
   s <- get_item ball 1 ;; y <- float s ;;
   s <- get_item ball 2 ;; vx <- float s ;;
   s <- get_item ball 3 ;; vy <- float s ;;
   s <- get_item ball 4 ;; mass <- float s ;;
   s <- get_item ball 5 ;; radius <- float s ;;
   b <- Ball.init [x; y] [vx; vy] mass radius ;;
   Ok (balls ++ [b])) = Ok out <->
  exists b, parsed_row float ball b /\ out = balls ++ [b].
Proof.
  split.
  - intros H.
    apply bind_ok in H as (s0 & H0 & H). apply bind_ok in H as (x & Hx & H).
    apply bind_ok in H as (s1 & H1 & H). apply bind_ok in H as (y & Hy & H).
    apply bind_ok in H as (s2 & H2 & H). apply bind_ok in H as (vx & Hvx & H).
    apply bind_ok in H as (s3 & H3 & H). apply bind_ok in H as (vy & Hvy & H).
    apply bind_ok in H as (s4 & H4 & H). apply bind_ok in H as (m & Hm & H).
    apply bind_ok in H as (s5 & H5 & H). apply bind_ok in H as (r & Hr & H).
    apply bind_ok in H as (b & Hb & [= <-]).
    apply get_item_ok in H0, H1, H2, H3, H4, H5.
    destruct ball as [| t0 [| t1 [| t2 [| t3 [| t4 [| t5 rest]]]]]];
      try discriminate.
    cbn in H0, H1, H2, H3, H4, H5.
    injection H0 as ->. injection H1 as ->. injection H2 as ->.
    injection H3 as ->. injection H4 as ->. injection H5 as ->.
    cbn in Hb. injection Hb as <-.
    exists (Ball.mkBall (x, y) (vx, vy) m r (Fin 0) 0 0).
    split; [| reflexivity].
    exists s0, s1, s2, s3, s4, s5, rest, x, y, vx, vy, m, r. auto 15.
  - intros (b & (s0 & s1 & s2 & s3 & s4 & s5 & rest & x & y & vx & vy & m & r
                 & -> & Hx & Hy & Hvx & Hvy & Hm & Hr & ->) & ->).
    cbn [get_item lookup list_lookup bind].
    rewrite Hx. cbn [bind]. rewrite Hy. cbn [bind]. rewrite Hvx. cbn [bind].
    rewrite Hvy. cbn [bind]. rewrite Hm. cbn [bind]. rewrite Hr. reflexivity.
Qed.

Lemma parse_row_raise (float : string -> result float64) (ball : list string)
  (balls : list Ball.Ball) (e : exn) :
  (s <- get_item ball 0 ;; x <- float s ;;
   s <- get_item ball 1 ;; y <- float s ;;
   s <- get_item ball 2 ;; vx <- float s ;;
   s <- get_item ball 3 ;; vy <- float s ;;
   s <- get_item ball 4 ;; mass <- float s ;;
   s <- get_item ball 5 ;; radius <- float s ;;
   b <- Ball.init [x; y] [vx; vy] mass radius ;;
   Ok (balls ++ [b])) = Raise e ->
  (e = IndexError /\ (length ball < 6)%nat) \/
  (exists s, In s ball /\ float s = Raise e).
Proof.
  intros H.
  repeat match type of H with
  | bind (get_item ball ?i) _ = Raise e =>
      let s := fresh "s" in let Hs := fresh "Hs" in
      apply bind_raise in H as [H | (s & Hs & H)];
        [apply get_item_raise in H as [-> Hlen]; left; split; [reflexivity | lia]
        | apply get_item_ok in Hs; apply list_elem_of_lookup_2 in Hs;
          apply list_elem_of_In in Hs]
  | bind (float ?s) _ = Raise e =>
      let v := fresh "v" in
      apply bind_raise in H as [H | (v & _ & H)]; [right; exists s; auto |]
  end.
  cbn in H. discriminate.
Qed.

(** [ParseState.__init__] on a file that can be opened. *)
Lemma parse_rows (float : string -> result float64)
  (rows : list (list string)) :
  forall acc out,
    for_each rows (fun ball balls =>
      s <- get_item ball 0 ;; x <- float s ;;
      s <- get_item ball 1 ;; y <- float s ;;
      let position := [x; y] in
      s <- get_item ball 2 ;; vx <- float s ;;
      s <- get_item ball 3 ;; vy <- float s ;;
      let velocity := [vx; vy] in
      s <- get_item ball 4 ;; mass <- float s ;;
      s <- get_item ball 5 ;; radius <- float s ;;
      b <- Ball.init position velocity mass radius ;;
      Ok (balls ++ [b])) acc = Ok out <->
    exists bs, Forall2 (parsed_row float) rows bs /\ out = acc ++ bs.
Proof.
  induction rows as [| ball rows IH]; intros acc out; cbn [for_each].
  - split.
    + intros [= <-]. exists []. split; [constructor | symmetry; apply app_nil_r].
    + intros (bs & Hbs & ->). inversion Hbs. rewrite app_nil_r. reflexivity.
  - split.
    + intros H. apply bind_ok in H as (acc1 & H1 & H).
      cbv zeta in H1. apply parse_row_ok in H1 as (b & Hb & ->).
      apply IH in H as (bs & Hbs & ->).
      exists (b :: bs). split; [constructor; assumption |].
      rewrite <- app_assoc. reflexivity.
    + intros (bs & Hbs & ->). inversion Hbs as [| ? b ? bs' Hb Hbs' ]; subst.
      cbv zeta.
      rewrite (proj2 (parse_row_ok float ball acc (acc ++ [b])))
        by (exists b; auto).
      cbn [bind]. apply IH. exists bs'. split; [exact Hbs' |].
      rewrite <- app_assoc. reflexivity.
Qed.

Lemma parse_state_ok (float : string -> result float64)
  (rows : list (list string)) (failure : option exn) (balls : list Ball.Ball) :
  ParseState.init float (Some (rows, failure)) = Ok balls <->
  failure = None /\ Forall2 (parsed_row float) rows balls.
Proof.
  unfold ParseState.init. cbn [ParseState.read_file bind fst snd]. split.
  - intros H. apply bind_ok in H as (bs & Hbs & H).
    apply parse_rows in Hbs as (bs' & Hall & ->). cbn [app] in H.
    destruct failure; [discriminate |]. injection H as <-. auto.
  - intros [-> H].
    match goal with
    | |- bind ?m _ = _ =>
        assert (E : m = Ok balls) by (apply parse_rows; exists balls; auto);
        rewrite E
    end.
    reflexivity.
Qed.

Lemma parsed_counters (float : string -> result float64)
  (rows : list (list string)) (balls : list Ball.Ball) :
  Forall2 (parsed_row float) rows balls ->
  Forall (fun b => Ball.wall_collisions b = 0%nat) balls /\
  Forall (fun b => Ball.ball_collisions b = 0%nat) balls /\
  Forall (fun b => Ball.distance_travelled b = Fin 0) balls.
Proof.
  induction 1 as [| row b rows balls Hb _ (IH1 & IH2 & IH3)].
  - repeat split; constructor.
  - destruct Hb as (s0 & s1 & s2 & s3 & s4 & s5 & rest & x & y & vx & vy & m & r
                    & _ & _ & _ & _ & _ & _ & _ & ->).
    repeat split; constructor; try assumption; reflexivity.
Qed.

(** X23. What [ParseState] builds.  On a file that can be opened,
    [ParseState.__init__] succeeds exactly when the reader yields all its
    rows without failing, every row has at least six fields and [float]
    accepts the first six of each; it then returns one ball per row, in
    the order of the file, whose position, velocity, mass and radius are
    the converted fields 0-1, 2-3, 4 and 5, with a zero odometer and zero
    counters.  Fields beyond the sixth are ignored. *)
Theorem X23_parse_state_builds_one_ball_per_row
  (float : string -> result float64) (rows : list (list string))
  (failure : option exn) (balls : list Ball.Ball) :
  ParseState.init float (Some (rows, failure)) = Ok balls <->
  failure = None /\ Forall2 (parsed_row float) rows balls.
Proof. apply parse_state_ok. Qed.

Lemma X23_witness : ParseState.init sample_float escape_file = Ok escape_balls.
Proof.
  apply (proj2 (X23_parse_state_builds_one_ball_per_row sample_float _ _ _)).
  split; [reflexivity |].
  repeat constructor.
  - exists "9"%string, "0"%string, "1"%string, "0"%string, "1"%string,
      "1"%string, [], (Fin 9), (Fin 0), (Fin 1), (Fin 0), (Fin 1), (Fin 1).
    repeat split.
  - exists "0"%string, "0"%string, "0"%string, "9"%string, "1"%string,
      "1"%string, [], (Fin 0), (Fin 0), (Fin 0), (Fin 9), (Fin 1), (Fin 1).
    repeat split.
Defined.

Lemma parse_state_raise (float : string -> result float64)
  (rows : list (list string)) (failure : option exn) (e : exn) :
  ParseState.init float (Some (rows, failure)) = Raise e ->
  (exists row, In row rows /\
     ((e = IndexError /\ (length row < 6)%nat) \/
      (exists s, In s row /\ float s = Raise e))) \/
  (failure = Some e /\ exists balls, Forall2 (parsed_row float) rows balls).
Proof.
  unfold ParseState.init. cbn [ParseState.read_file bind fst snd]. intros H.
  apply bind_raise in H as [H | (balls & Hb & H)].
  - left. apply for_each_raise in H as (row & acc & Hin & H).
    exists row. split; [exact Hin |]. cbv zeta in H.
    eapply parse_row_raise. exact H.
  - right. destruct failure as [e' |]; [| discriminate].
    injection H as ->. split; [reflexivity |].
    apply parse_rows in Hb as (bs & Hall & _). exists bs. exact Hall.
Qed.

Lemma parse_state_reader_failure (float : string -> result float64)
  (rows : list (list string)) (e : exn) (balls : list Ball.Ball) :
  Forall2 (parsed_row float) rows balls ->
  ParseState.init float (Some (rows, Some e)) = Raise e.
Proof.
  intros H. unfold ParseState.init. cbn [ParseState.read_file bind fst snd].
  match goal with
  | |- bind ?m _ = _ =>
      assert (E : m = Ok balls) by (apply parse_rows; exists balls; auto);
      rewrite E
  end.
  reflexivity.
Qed.

(** X24. How [ParseState] fails.  When the file cannot be opened,
    [ParseState.__init__] raises the file-not-found exception.  When it
    can, a failure is one of three: an IndexError on a row with fewer than
    six fields; the exception that [float] raises on a field of a row;
    or, when every row that the reader has yielded converts, the
    exception that the reader itself raises while the file is read, which
    [read_file] does not catch.  The format check of [Ball.__init__]
    never fires, since the position and the velocity are always built
    with two components. *)
Theorem X24_parse_state_failures :
  (forall float, ParseState.init float None
                 = Raise (Exception ParseState.file_not_found)) /\
  (forall float rows failure e,
      ParseState.init float (Some (rows, failure)) = Raise e ->
      (exists row, In row rows /\
         ((e = IndexError /\ (length row < 6)%nat) \/
          (exists s, In s row /\ float s = Raise e))) \/
      (failure = Some e /\ exists balls, Forall2 (parsed_row float) rows balls)) /\
  (forall float rows e balls,
      Forall2 (parsed_row float) rows balls ->
      ParseState.init float (Some (rows, Some e)) = Raise e).
Proof.
  split; [| split].
  - intros float. reflexivity.
  - intros float rows failure e H. eapply parse_state_raise. exact H.
  - intros float rows e balls H. eapply parse_state_reader_failure. exact H.
Qed.

Lemma X24_witness :
  ParseState.init sample_float
    (Some ([ ["9"; "0"; "1"; "0"; "1"; "1"] ]%string,
           Some (LibraryError "csv.Error")))
  = Raise (LibraryError "csv.Error").
Proof.
  destruct X24_parse_state_failures as (_ & _ & H).
  apply (H sample_float _ _ [unit_ball 9 0 1 0]).
  repeat constructor.
  exists "9"%string, "0"%string, "1"%string, "0"%string, "1"%string,
    "1"%string, [], (Fin 9), (Fin 0), (Fin 1), (Fin 0), (Fin 1), (Fin 1).
  repeat split.
Defined.

Lemma run_counts (container_radius : float64) (num_frames : nat)
  (balls : list Ball.Ball) (self : App.App) :
  Forall (fun b => Ball.wall_collisions b = 0%nat) balls ->
  Forall (fun b => Ball.ball_collisions b = 0%nat) balls ->
  App.run container_radius num_frames balls = Ok self ->
  (App.ball_collisions self + App.wall_collisions self = num_frames)%nat /\
  App.num_balls self = length balls /\
  counters_agree self /\ well_shaped self.
Proof.
  intros Hw Hb H. unfold App.run in H.
  apply bind_ok in H as (s0 & H0 & H).
  pose proof (init_shape _ _ _ H0) as Hs0.
  pose proof (init_upper _ _ _ H0) as Hu0.
  apply init_counts in H0 as (Hbs & Hn & Hc & Hwc).
  destruct (render_shape _ _ _ H Hs0 Hu0) as [Hs _].
  apply render_counts in H as (Hsum & Hn' & Hl & Hag).
  split; [lia | split; [congruence | split; [| exact Hs]]].
  apply Hag. unfold counters_agree. rewrite Hbs, Hc, Hwc.
  rewrite (sum_zero _ _ Hw), (sum_zero _ _ Hb). split; reflexivity.
Qed.

(** X25. The program on its input file.  [App.__init__] raises the
    file-not-found exception when the initial-state file cannot be
    opened, and ZeroDivisionError when the file is read without failure
    and has no row.  When it completes on a file, the reader has not
    failed, the engine holds one ball per row of the file, has counted
    exactly [num_frames] collisions, its tables have the shape of that
    number of balls, and the counters of the balls agree with those of
    the engine. *)
Theorem X25_program_on_its_input_file
  (float : string -> result float64) (container_radius : float64)
  (num_frames : nat) :
  App_init float None container_radius num_frames
  = Raise (Exception ParseState.file_not_found) /\
  App_init float (Some ([], None)) container_radius num_frames
  = Raise ZeroDivisionError /\
  (forall rows failure self,
      App_init float (Some (rows, failure)) container_radius num_frames
      = Ok self ->
      failure = None /\
      App.num_balls self = length rows /\
      (App.ball_collisions self + App.wall_collisions self = num_frames)%nat /\
      counters_agree self /\ well_shaped self).
Proof.
  split; [reflexivity | split; [reflexivity |]].
  intros rows failure self H. unfold App_init in H.
  apply bind_ok in H as (balls & Hp & H). unfold ParseState.get_balls in H.
  apply parse_state_ok in Hp as [Hf Hp].
  pose proof (Forall2_length _ _ _ Hp) as Hlen.
  apply parsed_counters in Hp as (Hw & Hb & _).
  destruct (run_counts _ _ _ _ Hw Hb H) as (Hsum & Hn & Hag & Hs).
  split; [exact Hf | split; [congruence | auto]].
Qed.

Lemma X25_witness :
  @None exn = None /\
  App.num_balls escape_app1 = 2%nat /\
  (App.ball_collisions escape_app1 + App.wall_collisions escape_app1 = 1)%nat /\
  counters_agree escape_app1 /\ well_shaped escape_app1.
Proof.
  destruct (X25_program_on_its_input_file sample_float (Fin 10) 1)
    as (_ & _ & H).
  apply (H [ ["9"; "0"; "1"; "0"; "1"; "1"] ; ["0"; "0"; "0"; "9"; "1"; "1"] ]%string
           (@None exn)).
  unfold App_init.
  change (ParseState.init sample_float _) with (Ok escape_balls).
  exact escape_run.
Defined.

(* ================================================================== *)
(** * The clock never goes back *)
(* ================================================================== *)

Lemma predict_scheduled (a b c x : float64) :
  Ball.predict_collision_time a b c = Ok x -> scheduled x.
Proof.
  unfold Ball.predict_collision_time. intros H.
  apply bind_ok in H as (roots & _ & H).
  destruct (Ball.time_roots roots) as [| t ts] eqn:E.
  - injection H as <-. left. reflexivity.
  - injection H as <-. right. exists (amin t ts). split; [reflexivity |].
    pose proof (amin_in t ts) as Hin. rewrite <- E in Hin.
    apply time_roots_in in Hin as [_ Hfloor].
    pose proof time_floor_pos. lra.
Qed.

Lemma scheduled_not_nan (x : float64) : scheduled x -> x <> NaN.
Proof. intros [-> | (t & -> & _)]; discriminate. Qed.

Lemma scheduled_sub (x : float64) (d : R) :
  scheduled x -> flt x (Fin d) = false -> scheduled (fsub x (Fin d)).
Proof.
  intros [-> | (t & -> & Ht)] Hlt.
  - left. reflexivity.
  - right. exists (t + - d). split; [reflexivity |].
    cbn in Hlt. unfold Rltb in Hlt. destruct (Rlt_dec t d); [discriminate | lra].
Qed.

Lemma scheduled_above_pinf (x : float64) :
  scheduled x -> flt x PInf = false -> PInf = x.
Proof. intros [-> | (t & -> & _)] H; [reflexivity | discriminate]. Qed.

Lemma Forall_eq_replicate {A} (v : A) (l : list A) :
  Forall (eq v) l -> l = replicate (length l) v.
Proof. induction 1 as [| x l <- _ IH]; cbn; [reflexivity | f_equal; exact IH]. Qed.

Lemma tables_insert_wall (self : App.App) (i : nat) (v : float64) :
  tables_scheduled self -> scheduled v ->
  tables_scheduled (App.with_b2w self (<[i := v]> (App.b2w_table self))).
Proof.
  intros [Hw Hb] Hv. split; cbn [App.with_b2w App.b2w_table App.b2b_table].
  - apply Forall_insert; assumption.
  - exact Hb.
Qed.

Lemma tables_insert_cell (self : App.App) (i j : nat) (v : float64)
  (t' : list (list float64)) :
  tables_scheduled self -> scheduled v ->
  set_item2 (App.b2b_table self) i j v = Ok t' ->
  tables_scheduled (App.with_b2b self t').
Proof.
  intros [Hw Hb] Hv Hset.
  apply set_item2_ok in Hset as (row & Hrow & _ & ->).
  split; cbn [App.with_b2b App.b2w_table App.b2b_table]; [exact Hw |].
  apply Forall_insert; [exact Hb |].
  apply Forall_insert; [| exact Hv].
  eapply Forall_lookup_1 in Hb; eassumption.
Qed.

Lemma recalculate_scheduled (self self' : App.App) (ball_ids : list nat) :
  App.recalculate_collision self ball_ids = Ok self' ->
  tables_scheduled self -> tables_scheduled self'.
Proof.
  unfold App.recalculate_collision. intros Hrun Hs. revert Hrun.
  apply (for_each_inv tables_scheduled); [| exact Hs].
  intros i s s1 _ Hsch Hbody.
  apply bind_ok in Hbody as (bi & _ & Hbody).
  apply bind_ok in Hbody as (tw & Htw & Hbody).
  apply bind_ok in Hbody as (b2w & Hset & Hbody).
  apply set_item_ok in Hset as [_ ->].
  apply predict_scheduled in Htw.
  revert Hbody.
  apply (for_each_inv tables_scheduled);
    [| apply tables_insert_wall; assumption].
  intros j s2 s3 _ Hsch2 Hin.
  destruct (decide (i <> j)).
  - apply bind_ok in Hin as (? & _ & Hin).
    apply bind_ok in Hin as (? & _ & Hin).
    apply bind_ok in Hin as (tb & Htb & Hin).
    apply bind_ok in Hin as (b2b & Hset & [= <-]).
    apply predict_scheduled in Htb.
    eapply tables_insert_cell; eassumption.
  - injection Hin as <-. exact Hsch2.
Qed.

Lemma init_table_scheduled (self self' : App.App) :
  App.init_table self = Ok self' ->
  tables_scheduled self -> tables_scheduled self'.
Proof.
  unfold App.init_table. intros Hrun Hs. revert Hrun.
  apply (for_each_inv tables_scheduled); [| exact Hs].
  intros i s s1 _ Hsch Hbody.
  apply bind_ok in Hbody as (bi & _ & Hbody).
  apply bind_ok in Hbody as (tw & Htw & Hbody).
  apply bind_ok in Hbody as (b2w & Hset & Hbody).
  apply set_item_ok in Hset as [_ ->].
  apply predict_scheduled in Htw.
  revert Hbody.
  apply (for_each_inv tables_scheduled);
    [| apply tables_insert_wall; assumption].
  intros j s2 s3 _ Hsch2 Hin.
  apply bind_ok in Hin as (? & _ & Hin).
  apply bind_ok in Hin as (? & _ & Hin).
  apply bind_ok in Hin as (tb & Htb & Hin).
  apply bind_ok in Hin as (b2b & Hset & [= <-]).
  apply predict_scheduled in Htb.
  eapply tables_insert_cell; eassumption.
Qed.

(** Subtracting the smallest entry keeps the tables scheduled. *)
Lemma update_table_scheduled (self self' : App.App) (d : R) (n : nat) :
  square n (App.b2b_table self) ->
  tables_scheduled self ->
  Forall (fun x => flt x (Fin d) = false) (App.b2w_table self) ->
  Forall (fun x => flt x (Fin d) = false) (concat (App.b2b_table self)) ->
  App.update_table self (Fin d) = Ok self' ->
  tables_scheduled self'.
Proof.
  intros Hsq [Hw Hb] Hminw Hminb Hrun.
  destruct (update_table_frame _ _ _ Hrun) as (_ & _ & _ & Hw').
  destruct (update_table_cells _ _ _ n Hsq Hrun) as [Hsq' Hcells].
  split.
  - rewrite Hw'. apply Forall_map. apply Forall_forall. intros x Hx.
    apply scheduled_sub.
    + eapply Forall_forall in Hw; eassumption.
    + eapply Forall_forall in Hminw; eassumption.
  - apply Forall_lookup. intros i row' Hrow'.
    apply Forall_lookup. intros j v' Hv'.
    destruct Hsq as [Hlen Hrows]. destruct Hsq' as [Hlen' Hrows'].
    assert (Hi : (i < n)%nat) by (apply lookup_lt_Some in Hrow'; lia).
    assert (Hj : (j < n)%nat).
    { eapply Forall_lookup_1 in Hrows'; [| exact Hrow'].
      apply lookup_lt_Some in Hv'. lia. }
    destruct (get_item2_square n (App.b2b_table self) i j (conj Hlen Hrows) Hi Hj)
      as [v Hv].
    pose proof (Hcells i j v Hv) as Hnew.
    assert (Hnew' : get_item2 (App.b2b_table self') i j = Ok v')
      by (apply get_item2_ok; eauto).
    rewrite Hnew' in Hnew. injection Hnew as ->.
    apply get_item2_ok in Hv as (row & Hrow & Hcell).
    assert (Hsv : scheduled v).
    { eapply Forall_lookup_1 in Hb; [| exact Hrow].
      eapply Forall_lookup_1 in Hb; eassumption. }
    destruct (decide (i < j)%nat); [| exact Hsv].
    apply scheduled_sub; [exact Hsv |].
    eapply Forall_forall in Hminb; [exact Hminb |].
    apply list_elem_of_In. apply in_concat. exists row. split.
    + apply list_elem_of_In. eapply list_elem_of_lookup_2. exact Hrow.
    + apply list_elem_of_In. eapply list_elem_of_lookup_2. exact Hcell.
Qed.

Lemma resolve_scheduled (s1 s2 : App.App) (ids : list nat) :
  match ids with
  | [b2w] => App.collide_wall s1 b2w
  | [b_i; b_j] => App.collide_balls s1 b_i b_j
  | _ => Raise ValueError
  end = Ok s2 ->
  tables_scheduled s1 -> tables_scheduled s2.
Proof.
  intros H2 Hs1.
  destruct ids as [| i [| j [| k ids]]]; try discriminate.
  - unfold App.collide_wall in H2.
    apply bind_ok in H2 as (b & _ & H2).
    apply bind_ok in H2 as (sa & Ha & H2).
    apply bind_ok in H2 as (sb & Hb' & H2).
    apply bind_ok in H2 as (sc & Hc & [= <-]).
    apply modify_ball_only_balls in Ha as (? & _ & ->).
    apply recalculate_scheduled in Hb'; [| exact Hs1].
    apply modify_ball_only_balls in Hc as (? & _ & ->). exact Hb'.
  - unfold App.collide_balls in H2.
    apply bind_ok in H2 as (b1 & _ & H2).
    apply bind_ok in H2 as (b2 & _ & H2).
    apply bind_ok in H2 as (sa & Ha & H2).
    apply bind_ok in H2 as (sb & Hb' & H2).
    apply bind_ok in H2 as (sc & Hc & H2).
    apply bind_ok in H2 as (sd & Hd & H2).
    apply bind_ok in H2 as (se & He & [= <-]).
    apply modify_ball_only_balls in Ha as (? & _ & ->).
    apply modify_ball_only_balls in Hb' as (? & _ & ->).
    apply recalculate_scheduled in Hc; [| exact Hs1].
    apply modify_ball_only_balls in Hd as (? & _ & ->).
    apply modify_ball_only_balls in He as (? & _ & ->). exact Hc.
Qed.

(** When the smallest entry of scheduled tables is [+inf], the engine is
    stalled. *)
Lemma all_pinf_stalled (self : App.App) :
  well_shaped self -> (0 < App.num_balls self)%nat ->
  Forall (eq PInf) (App.b2w_table self) ->
  Forall (eq PInf) (concat (App.b2b_table self)) ->
  stalled self.
Proof.
  intros (Hb & Hw & Hlen & Hrows) Hn Hpw Hpb.
  destruct (App.num_balls self) as [| n] eqn:En; [lia |].
  exists n. split; [exact En | split; [exact Hb | split]].
  - rewrite (Forall_eq_replicate _ _ Hpw), Hw. reflexivity.
  - assert (Hall : Forall (eq (np_full (S n) PInf)) (App.b2b_table self)).
    { apply Forall_forall. intros row Hrow.
      assert (Hrl : length row = S n).
      { eapply Forall_forall in Hrows; eassumption. }
      assert (Hrp : Forall (eq PInf) row).
      { apply Forall_forall. intros x Hx.
        eapply Forall_forall in Hpb; [exact Hpb |].
        apply list_elem_of_In. apply in_concat. exists row.
        split; apply list_elem_of_In; assumption. }
      rewrite (Forall_eq_replicate _ _ Hrp), Hrl. reflexivity. }
    rewrite (Forall_eq_replicate _ _ Hall), Hlen. reflexivity.
Qed.

(** One frame on scheduled tables: the event time is a non-negative
    number and the tables stay scheduled. *)
Lemma frame_scheduled (self self' : App.App) (ids : list nat) (t : float64) :
  well_shaped self -> tables_scheduled self ->
  App.next_collision self = Ok (ids, t) ->
  App.collide self (ids, t) = Ok self' ->
  exists d, t = Fin d /\ 0 <= d /\ tables_scheduled self'.
Proof.
  intros Hshape [Hw Hb] Hnext Hc.
  pose proof Hshape as (Hlb & Hlw & Hsq).
  assert (Hcat : Forall scheduled (concat (App.b2b_table self))).
  { apply Forall_forall. intros x Hx.
    apply list_elem_of_In, in_concat in Hx as (row & Hrow & Hx).
    apply list_elem_of_In in Hrow, Hx.
    eapply Forall_forall in Hb; [| exact Hrow].
    eapply Forall_forall in Hb; eassumption. }
  destruct (next_collision_least self (App.num_balls self) ids t Hsq)
    as (Hminw & Hminb & Hentry); [| | exact Hnext |].
  { eapply Forall_impl; [exact Hw | apply scheduled_not_nan]. }
  { eapply Forall_impl; [exact Hcat | apply scheduled_not_nan]. }
  assert (Hn : (0 < App.num_balls self)%nat).
  { destruct Hentry as [(w & _ & Hg) | (i & j & _ & Hi & _)]; [| lia].
    apply get_item_ok, lookup_lt_Some in Hg. lia. }
  assert (Ht : scheduled t).
  { destruct Hentry as [(w & _ & Hg) | (i & j & _ & _ & _ & Hg)].
    - apply get_item_ok in Hg. eapply Forall_lookup_1 in Hw; eassumption.
    - apply get_item2_ok in Hg as (row & Hrow & Hcell).
      eapply Forall_lookup_1 in Hb; [| exact Hrow].
      eapply Forall_lookup_1 in Hb; eassumption. }
  destruct Ht as [-> | (d & -> & Hd)].
  - exfalso.
    assert (Hst : stalled self).
    { apply all_pinf_stalled; try assumption.
      - apply Forall_forall. intros x Hx. apply scheduled_above_pinf.
        + eapply Forall_forall in Hw; eassumption.
        + eapply Forall_forall in Hminw; eassumption.
      - apply Forall_forall. intros x Hx. apply scheduled_above_pinf.
        + eapply Forall_forall in Hcat; eassumption.
        + eapply Forall_forall in Hminb; eassumption. }
    rewrite (next_collision_stalled _ Hst) in Hnext. injection Hnext as <-.
    rewrite (collide_stalled _ Hst) in Hc. discriminate.
  - exists d. split; [reflexivity | split; [exact Hd |]].
    unfold App.collide in Hc. cbn [fst snd] in Hc.
    apply bind_ok in Hc as (s1 & H1 & Hc).
    apply bind_ok in Hc as (s2 & H2 & Hc).
    unfold App.advance in H1. apply bind_ok in H1 as (s0 & H0 & [= <-]).
    assert (Hs0 : tables_scheduled s0).
    { eapply (update_table_scheduled self s0 d); try eassumption.
      split; assumption. }
    apply (resolve_scheduled _ _ _ H2) in Hs0.
    apply update_state_frame in Hc as (_ & _ & _ & Hbb & Hbw & _).
    split; [rewrite Hbw | rewrite Hbb]; apply Hs0.
Qed.

Lemma render_scheduled (num_frames : nat) :
  forall (self self' : App.App) (now : R),
    App.render num_frames self = Ok self' ->
    well_shaped self -> tables_scheduled self -> App.time self = Fin now ->
    exists later, App.time self' = Fin later /\ now <= later /\
                  tables_scheduled self'.
Proof.
  induction num_frames as [| n IH]; intros self self' now H Hshape Hs Ht.
  - injection H as <-. exists now. split; [exact Ht | split; [lra | exact Hs]].
  - cbn [App.render] in H.
    apply bind_ok in H as ([ids t] & Hnext & H).
    apply bind_ok in H as (s1 & Hc & H).
    destruct (frame_scheduled _ _ _ _ Hshape Hs Hnext Hc) as (d & -> & Hd & Hs1).
    pose proof (collide_shape _ _ _ Hc Hshape) as Hshape1.
    apply collide_counts in Hc as (Ht1 & _).
    rewrite Ht in Ht1. cbn [snd fadd] in Ht1.
    destruct (IH s1 self' (now + d) H Hshape1 Hs1 Ht1) as (later & Hl & Hle & Hs').
    exists later. split; [exact Hl | split; [lra | exact Hs']].
Qed.

Lemma init_scheduled (container_radius : float64) (balls : list Ball.Ball)
  (self : App.App) :
  App.init container_radius balls = Ok self ->
  tables_scheduled self /\ App.time self = Fin (0 + 0).
Proof.
  unfold App.init. intros H.
  apply bind_ok in H as (s1 & H1 & H).
  pose proof (init_table_only_tables _ _ H1) as (w & b & Es1).
  apply init_table_scheduled in H1.
  2:{ split; cbn [App.b2w_table App.b2b_table]; unfold np_full2, np_full.
      - apply Forall_replicate. left. reflexivity.
      - apply Forall_replicate. apply Forall_replicate. left. reflexivity. }
  apply update_state_frame in H as (_ & _ & _ & Hbb & Hbw & _ & _ & _ & Ht).
  split.
  - split; [rewrite Hbw | rewrite Hbb]; apply H1.
  - rewrite Ht, Es1. reflexivity.
Qed.

(** X26. The clock never goes back.  Call the tables scheduled when
    every entry is [+inf] or a non-negative number.  On a well-shaped
    engine with scheduled tables, whenever a frame completes (the event
    chosen by [next_collision] is resolved by [collide]), the event time
    is a non-negative number, the clock advances by it, and the tables
    are scheduled again: no entry is ever negative or [nan].  Hence
    whenever [App.__init__] and its event loop complete, the final time
    is a non-negative number and the tables are scheduled. *)
Theorem X26_clock_never_goes_back :
  (forall (self self' : App.App) (ids : list nat) (t : float64),
      well_shaped self -> tables_scheduled self ->
      App.next_collision self = Ok (ids, t) ->
      App.collide self (ids, t) = Ok self' ->
      exists d, t = Fin d /\ 0 <= d /\
                App.time self' = fadd (App.time self) (Fin d) /\
                tables_scheduled self') /\
  (forall (container_radius : float64) (num_frames : nat)
          (balls : list Ball.Ball) (self : App.App),
      App.run container_radius num_frames balls = Ok self ->
      exists now, App.time self = Fin now /\ 0 <= now /\
                  tables_scheduled self).
Proof.
  split.
  - intros self self' ids t Hshape Hs Hnext Hc.
    destruct (frame_scheduled _ _ _ _ Hshape Hs Hnext Hc) as (d & -> & Hd & Hs').
    exists d. split; [reflexivity | split; [exact Hd | split; [| exact Hs']]].
    apply collide_counts in Hc as (Ht & _). exact Ht.
  - intros R n balls self H. unfold App.run in H.
    apply bind_ok in H as (s0 & H0 & H).
    pose proof (init_shape _ _ _ H0) as Hshape.
    apply init_scheduled in H0 as [Hs Ht].
    destruct (render_scheduled n s0 self (0 + 0) H Hshape Hs Ht)
      as (later & Hl & Hle & Hs').
    exists later. split; [exact Hl | split; [lra | exact Hs']].
Qed.

Lemma X26_witness :
  exists now, App.time escape_app1 = Fin now /\ 0 <= now /\
              tables_scheduled escape_app1.
Proof.
  destruct X26_clock_never_goes_back as [_ H].
  apply (H (Fin 10) 1%nat escape_balls escape_app1). exact escape_run.
Defined.

(* ================================================================== *)
(** * Containment along a frame *)
(* ================================================================== *)

(** On scheduled tables the event time is the smallest entry. *)
Lemma next_collision_earliest (self : App.App) (ids : list nat) (t : float64) :
  well_shaped self -> tables_scheduled self ->
  App.next_collision self = Ok (ids, t) ->
  Forall (fun x => flt x t = false) (App.b2w_table self) /\
  Forall (fun x => flt x t = false) (concat (App.b2b_table self)).
Proof.
  intros (_ & _ & Hsq) [Hw Hb] Hnext.
  assert (Hcat : Forall scheduled (concat (App.b2b_table self))).
  { apply Forall_forall. intros x Hx.
    apply list_elem_of_In, in_concat in Hx as (row & Hrow & Hx).
    apply list_elem_of_In in Hrow, Hx.
    eapply Forall_forall in Hb; [| exact Hrow].
    eapply Forall_forall in Hb; eassumption. }
  destruct (next_collision_least self (App.num_balls self) ids t Hsq)
    as (Hminw & Hminb & _); [| | exact Hnext |].
  { eapply Forall_impl; [exact Hw | apply scheduled_not_nan]. }
  { eapply Forall_impl; [exact Hcat | apply scheduled_not_nan]. }
  split; assumption.
Qed.

(** C9, as the code has it, in exact arithmetic.  One frame of the event
    loop (the event chosen by [next_collision], resolved by [collide]) on
    a well-shaped engine with scheduled tables keeps inside the container
    every ball with finite position, velocity and radius that was inside
    before the frame and that either is at rest or has a wall-table entry
    that is finite and is the time that [next_wall_collision] predicts
    for it.  Nothing is claimed for a ball whose wall time is [+inf]
    while it moves. *)
Theorem C9_containment_along_a_frame
  (self self' : App.App) (ids : list nat) (t : float64) (i : nat)
  (x y ux uy r R : R) (m d : float64) (n w : nat) :
  let b := Ball.mkBall (Fin x, Fin y) (Fin ux, Fin uy) m (Fin r) d n w in
  well_shaped self -> tables_scheduled self ->
  App.container_radius self = Fin R ->
  App.balls self !! i = Some b ->
  contained b (Fin R) = true ->
  (ux = 0 /\ uy = 0) \/
  (exists tw, Ball.next_wall_collision b (Fin R) = Ok (Fin tw) /\
              get_item (App.b2w_table self) i = Ok (Fin tw)) ->
  App.next_collision self = Ok (ids, t) ->
  App.collide self (ids, t) = Ok self' ->
  exists b', App.balls self' !! i = Some b' /\
             contained b' (App.container_radius self') = true.
Proof.
  intros b Hshape Hs HR Hb Hin Hcase Hnext Hrun.
  destruct (frame_scheduled _ _ _ _ Hshape Hs Hnext Hrun) as (dt & -> & Hdt & _).
  destruct (next_collision_earliest _ _ _ Hshape Hs Hnext) as [Hminw _].
  apply collide_places in Hrun as [Hplaces HR']. cbn [snd] in Hplaces.
  destruct (Hplaces i (Ball.update_position b (Fin dt))) as (b' & Hb' & [Hp Hr]).
  { rewrite list_lookup_fmap, Hb. reflexivity. }
  exists b'. split; [exact Hb' |].
  rewrite HR', HR.
  assert (Hmoved : contained (Ball.update_position b (Fin dt)) (Fin R) = true).
  { destruct Hcase as [[-> ->] | (tw & Hwall & Hentry)].
    - apply rest_stays_inside. exact Hin.
    - apply get_item_ok in Hentry.
      eapply Forall_lookup_1 in Hminw; [| exact Hentry]. cbn in Hminw.
      unfold Rltb in Hminw. destruct (Rlt_dec tw dt); [discriminate |].
      eapply move_stays_inside; [exact Hin | exact Hwall | lra]. }
  unfold contained in *. rewrite Hp, Hr. exact Hmoved.
Qed.

Lemma escape_app_scheduled : tables_scheduled escape_app.
Proof.
  assert (Hinf : scheduled PInf) by (left; reflexivity).
  split; cbn [escape_app App.b2w_table App.b2b_table].
  - apply Forall_cons. split; [exact Hinf |].
    apply Forall_cons. split; [| apply Forall_nil; exact I].
    right. exists 1. split; [reflexivity | lra].
  - repeat (apply Forall_cons; split; [| try (apply Forall_nil; exact I)]);
      try exact Hinf.
Qed.

Lemma C9_witness :
  exists b', App.balls escape_app1 !! 1%nat = Some b' /\
             contained b' (App.container_radius escape_app1) = true.
Proof.
  apply (C9_containment_along_a_frame escape_app escape_app1 [1%nat] (Fin 1) 1
           0 0 0 9 1 10 (Fin 1) (Fin 0) 0 0).
  - exact escape_app_shaped.
  - exact escape_app_scheduled.
  - reflexivity.
  - reflexivity.
  - apply contained_fin. rewrite (sqrt_of_square _ 0) by lra. lra.
  - right. exists 1. split; [exact escape_wall1 | reflexivity].
  - exact escape_next.
  - exact escape_collide.
Defined.

(** C9, as stated, fails.  Two balls of radius 1 in a container of radius
    10, both inside it and apart from each other: the first touches the
    wall at [(9, 0)] and moves outwards, so its wall roots [0] and [-18]
    are below the floor and its wall time is [+inf]; the second reaches
    the wall at time 1.  After the first frame the first ball is at
    [(10, 0)], outside the container. *)
Lemma C9_counterexample :
  Forall (fun b => contained b (Fin 10) = true) escape_balls /\
  App.run (Fin 10) 1 escape_balls = Ok escape_app1 /\
  exists b, App.balls escape_app1 !! 0%nat = Some b /\
            Ball.position b = (Fin 10, Fin 0) /\
            contained b (App.container_radius escape_app1) = false.
Proof.
  split; [| split; [exact escape_run |]].
  - unfold escape_balls, unit_ball, Ball.finite.
    repeat constructor; apply contained_fin.
    + rewrite (sqrt_of_square _ 9) by lra. lra.
    + rewrite (sqrt_of_square _ 0) by lra. lra.
  - eexists. split; [reflexivity |]. split; [reflexivity |].
    cbn [App.container_radius escape_app1].
    destruct (contained _ _) eqn:E; [| reflexivity].
    apply contained_fin in E. rewrite (sqrt_of_square _ 10) in E by lra. lra.
Qed.
